(** * Voice command interpretation and tool invocation: a shallow embedding

    The development follows three modules of the repository:

    - [sources/voice/voice_commands.py]: the pattern table, [parse_command],
      [_process_speech] and the bounded command history;
    - [tools/tool_executor.py]: [parse_tool_calls], [execute_tool] and
      [process_ai_response];
    - [sources/agents/enhanced_mcp_agent.py]: [discover_mcp_servers] and
      [execute_mcp_tool].

    Python values are modelled as follows.  A [str] is a list of code points
    restricted to the range U+0000..U+00FF, one [ascii] per code point; the
    character classes below are Python's on that range.  A [dict] is a finite
    map ([gmap]), a [list] a Rocq list.  The two standard-library services the
    code leans on, regular expressions ([re]) and the JSON decoder
    ([json.loads]), are given executable models for the fragment of their
    input languages the source uses. *)

From Stdlib Require Import ZArith QArith Ascii String List Lia DecimalString Sorted.
From stdpp Require Import base option list strings gmap.

Set Default Proof Using "Type".
#[local] Set Warnings "-register-all".

(** ** Text *)

Definition text := list ascii.

Definition text_of_string (s : string) : text := list_ascii_of_string s.
Coercion text_of_string : string >-> text.

Module Text.

Definition code (c : ascii) : N := N_of_ascii c.

Definition in_range (lo hi : N) (c : ascii) : bool :=
  ((lo <=? code c) && (code c <=? hi))%N.

(** [str.isspace] on one code point; also the class behind [str.strip]
    and the pattern escape [\s]. *)
Definition isspace (c : ascii) : bool :=
  in_range 9 13 c || in_range 28 32 c
  || (code c =? 133)%N || (code c =? 160)%N.

Definition isupper (c : ascii) : bool :=
  in_range 65 90 c || (in_range 192 222 c && negb (code c =? 215)%N).

Definition islower_cased (c : ascii) : bool :=
  in_range 97 122 c || (in_range 224 254 c && negb (code c =? 247)%N).

Definition lower_char (c : ascii) : ascii :=
  if isupper c then ascii_of_N (code c + 32) else c.

Definition upper_char (c : ascii) : ascii :=
  if islower_cased c then ascii_of_N (code c - 32) else c.

(** [str.lower] *)
Definition lower (t : text) : text := map lower_char t.

Definition is_ascii_digit (c : ascii) : bool := in_range 48 57 c.

(** The digit property behind [str.isdigit]: the decimal digits and the
    superscripts one, two and three. *)
Definition isdigit_char (c : ascii) : bool :=
  is_ascii_digit c || (code c =? 178)%N || (code c =? 179)%N
  || (code c =? 185)%N.

(** [str.isdigit]: false on the empty string. *)
Definition isdigit (t : text) : bool :=
  match t with
  | [] => false
  | _ => forallb isdigit_char t
  end.

(** Alphanumeric code points, the class behind the pattern escape [\w]
    (together with the underscore). *)
Definition isalnum (c : ascii) : bool :=
  in_range 48 57 c || in_range 65 90 c || in_range 97 122 c
  || (code c =? 170)%N || (code c =? 178)%N || (code c =? 179)%N
  || (code c =? 181)%N || (code c =? 185)%N || (code c =? 186)%N
  || in_range 188 190 c
  || in_range 192 214 c || in_range 216 246 c || in_range 248 255 c.

Definition isword (c : ascii) : bool := isalnum c || (code c =? 95)%N.

Fixpoint lstrip (t : text) : text :=
  match t with
  | c :: t' => if isspace c then lstrip t' else t
  | [] => []
  end.

Definition rstrip (t : text) : text := rev (lstrip (rev t)).

(** [str.strip] with no argument *)
Definition strip (t : text) : text := rstrip (lstrip t).

(** [t.startswith(w)] *)
Fixpoint startswith (w t : text) : bool :=
  match w, t with
  | [], _ => true
  | a :: w', b :: t' => if decide (a = b) then startswith w' t' else false
  | _ :: _, [] => false
  end.

(** [w in t] on strings: [w] occurs as a contiguous run of [t]. *)
Fixpoint contains (w t : text) : bool :=
  startswith w t ||
  match t with
  | [] => false
  | _ :: t' => contains w t'
  end.

(** [t.split(sep)] for a one-character separator. *)
Fixpoint split_on (sep : ascii) (t : text) : list text :=
  match t with
  | [] => [[]]
  | c :: t' =>
      if decide (c = sep) then [] :: split_on sep t'
      else match split_on sep t' with
           | l :: ls => (c :: l) :: ls
           | [] => [[c]]
           end
  end.

Definition digit_value (c : ascii) : Z := Z.of_N (code c) - 48.

(** The limit [int] puts on the digits of a decimal string
    ([sys.int_info.default_max_str_digits] in CPython 3.11). *)
Definition max_str_digits : nat := 4300.

(** [int(t)] on a run of digit characters; [None] is [ValueError], which
    is what [int] raises on a superscript digit and on a run of more than
    [max_str_digits] digits. *)
Definition int_of_digits (t : text) : option Z :=
  match t with
  | [] => None
  | _ =>
      if forallb is_ascii_digit t && (length t <=? max_str_digits)%nat
      then Some (fold_left (fun acc c => 10 * acc + digit_value c) t 0)%Z
      else None
  end.

Definition newline : ascii := "010"%char.
Definition dquote : ascii := "034"%char.

End Text.

(** ** Regular expressions

    A backtracking matcher for the fragment of Python's [re] syntax the
    source's pattern tables use: literals, [.], the escapes [\s \w \d] and
    their complements, bracketed sets, capturing and non-capturing groups,
    alternation, the quantifiers [? * +] in their greedy and lazy forms,
    back-references and [$].  Patterns are kept as the source writes them
    and compiled by [re_compile]; anything outside the fragment is refused
    there.  Alternatives are tried left to right and a quantifier tries
    its longest (greedy) or shortest (lazy) count first, as [re] does. *)

Module Re.

Record flags := { ignorecase : bool; dotall : bool }.

Definition no_flags : flags := {| ignorecase := false; dotall := false |}.
Definition IGNORECASE : flags := {| ignorecase := true; dotall := false |}.
Definition IGNORECASE_DOTALL : flags := {| ignorecase := true; dotall := true |}.

Inductive set_item :=
| SChar (c : ascii)
| SRange (lo hi : ascii)
| SSpace (neg : bool)
| SWord (neg : bool)
| SDigit (neg : bool).

Inductive charset :=
| CLit (c : ascii)
| CAny
| CSpace (neg : bool)
| CWord (neg : bool)
| CDigit (neg : bool)
| CSet (neg : bool) (items : list set_item).

Inductive regex :=
| REmpty
| RFail
| RChar (cs : charset)
| RSeq (r1 r2 : regex)
| RAlt (r1 r2 : regex)
| ROpt (greedy : bool) (r : regex)
| RStar (greedy : bool) (r : regex)
| RPlus (greedy : bool) (r : regex)
| RGroup (n : nat) (r : regex)
| RBackref (n : nat)
| REol.

(** *** Matching one character *)

Definition lit_match (fl : flags) (c x : ascii) : bool :=
  if ignorecase fl
  then bool_decide (Text.lower_char c = Text.lower_char x)
  else bool_decide (c = x).

Definition range_match (fl : flags) (lo hi x : ascii) : bool :=
  let inr y := Text.in_range (Text.code lo) (Text.code hi) y in
  if ignorecase fl
  then inr x || inr (Text.lower_char x) || inr (Text.upper_char x)
  else inr x.

Definition item_match (fl : flags) (i : set_item) (x : ascii) : bool :=
  match i with
  | SChar c => lit_match fl c x
  | SRange lo hi => range_match fl lo hi x
  | SSpace neg => xorb neg (Text.isspace x)
  | SWord neg => xorb neg (Text.isword x)
  | SDigit neg => xorb neg (Text.is_ascii_digit x)
  end.

Definition cs_match (fl : flags) (cs : charset) (x : ascii) : bool :=
  match cs with
  | CLit c => lit_match fl c x
  | CAny => dotall fl || negb (bool_decide (x = Text.newline))
  | CSpace neg => xorb neg (Text.isspace x)
  | CWord neg => xorb neg (Text.isword x)
  | CDigit neg => xorb neg (Text.is_ascii_digit x)
  | CSet neg items => xorb neg (existsb (fun i => item_match fl i x) items)
  end.

(** *** The matcher

    A match state is the position reached, the text still to read and the
    groups captured so far.  [rmatch] is written with a continuation: it
    calls [k] on every state in which [r] can end, in priority order, and
    returns the first success. *)

Record mstate := {
  m_pos : nat;
  m_rest : text;
  m_groups : gmap nat text
}.

Definition advance (n : nat) (st : mstate) : mstate :=
  {| m_pos := m_pos st + n; m_rest := drop n (m_rest st);
     m_groups := m_groups st |}.

Definition set_group (n : nat) (from : mstate) (st : mstate) : mstate :=
  {| m_pos := m_pos st; m_rest := m_rest st;
     m_groups := <[n := take (m_pos st - m_pos from) (m_rest from)]> (m_groups st) |}.

Definition or_else {A} (x y : option A) : option A :=
  match x with
  | Some a => Some a
  | None => y
  end.

Section Matcher.
Context {A : Type}.
Variable fl : flags.

(** The loop of a starred body [ma]: [n] bounds the number of iterations
    left, and an iteration that reads nothing is not taken. *)
Fixpoint star_loop (ma : mstate -> (mstate -> option A) -> option A)
    (greedy : bool) (k : mstate -> option A) (n : nat) (st : mstate)
    : option A :=
  let more :=
    match n with
    | O => None
    | S n' =>
        ma st (fun st1 =>
          if decide (m_pos st < m_pos st1)
          then star_loop ma greedy k n' st1
          else None)
    end in
  if greedy then or_else more (k st) else or_else (k st) more.

Fixpoint rmatch (r : regex) (st : mstate) (k : mstate -> option A)
    : option A :=
  match r with
  | REmpty => k st
  | RFail => None
  | RChar cs =>
      match m_rest st with
      | x :: _ => if cs_match fl cs x then k (advance 1 st) else None
      | [] => None
      end
  | RSeq r1 r2 => rmatch r1 st (fun st1 => rmatch r2 st1 k)
  | RAlt r1 r2 => or_else (rmatch r1 st k) (rmatch r2 st k)
  | ROpt greedy r1 =>
      if greedy then or_else (rmatch r1 st k) (k st)
      else or_else (k st) (rmatch r1 st k)
  | RStar greedy r1 =>
      star_loop (rmatch r1) greedy k (length (m_rest st)) st
  | RPlus greedy r1 =>
      rmatch r1 st (fun st1 =>
        star_loop (rmatch r1) greedy k (length (m_rest st1)) st1)
  | RGroup n r1 => rmatch r1 st (fun st1 => k (set_group n st st1))
  | RBackref n =>
      match m_groups st !! n with
      | Some g =>
          if Text.startswith g (m_rest st) then k (advance (length g) st)
          else None
      | None => None
      end
  | REol =>
      match m_rest st with
      | [] => k st
      | [c] => if bool_decide (c = Text.newline) then k st else None
      | _ => None
      end
  end.

End Matcher.

(** *** Compiling a pattern

    Groups are numbered by their opening parenthesis, from one.  A pattern
    outside the fragment ([None]) is one this model does not cover: an
    anchor other than [$], a counted repetition, a look-around, a
    quantified body that can match the empty string. *)

Fixpoint nullable (r : regex) : bool :=
  match r with
  | REmpty | REol | RBackref _ => true
  | RFail | RChar _ => false
  | RSeq r1 r2 => nullable r1 && nullable r2
  | RAlt r1 r2 => nullable r1 || nullable r2
  | ROpt _ _ | RStar _ _ => true
  | RPlus _ r1 | RGroup _ r1 => nullable r1
  end.

Definition is_quantifier (c : ascii) : bool :=
  bool_decide (c = "*"%char) || bool_decide (c = "+"%char)
  || bool_decide (c = "?"%char).

Definition is_ascii_alnum (c : ascii) : bool :=
  Text.in_range 48 57 c || Text.in_range 65 90 c || Text.in_range 97 122 c.

(** The class or character an escape denotes inside or outside a set. *)
Definition escape_item (c : ascii) : option set_item :=
  match c with
  | "s"%char => Some (SSpace false)
  | "S"%char => Some (SSpace true)
  | "w"%char => Some (SWord false)
  | "W"%char => Some (SWord true)
  | "d"%char => Some (SDigit false)
  | "D"%char => Some (SDigit true)
  | "n"%char => Some (SChar "010"%char)
  | "t"%char => Some (SChar "009"%char)
  | "r"%char => Some (SChar "013"%char)
  | "f"%char => Some (SChar "012"%char)
  | "v"%char => Some (SChar "011"%char)
  | _ => if is_ascii_alnum c then None else Some (SChar c)
  end.

Definition charset_of_item (i : set_item) : option charset :=
  match i with
  | SChar c => Some (CLit c)
  | SSpace neg => Some (CSpace neg)
  | SWord neg => Some (CWord neg)
  | SDigit neg => Some (CDigit neg)
  | SRange _ _ => None
  end.

(** The items of a bracketed set, up to its closing bracket. *)
Fixpoint parse_set_items (fuel : nat) (s : text)
    : option (list set_item * text) :=
  match fuel with
  | O => None
  | S fuel' =>
      match s with
      | [] => None
      | "]"%char :: s1 => Some ([], s1)
      | "["%char :: _ => None
      | "\"%char :: c :: s1 =>
          i ← escape_item c;
          '(its, s2) ← parse_set_items fuel' s1;
          Some (i :: its, s2)
      | "\"%char :: [] => None
      | lo :: "-"%char :: "]"%char :: s1 =>
          Some ([SChar lo; SChar "-"%char], s1)
      | _ :: "-"%char :: "\"%char :: _ => None
      | lo :: "-"%char :: hi :: s1 =>
          if (Text.code lo <=? Text.code hi)%N then
            '(its, s2) ← parse_set_items fuel' s1;
            Some (SRange lo hi :: its, s2)
          else None
      | c :: s1 =>
          '(its, s2) ← parse_set_items fuel' s1;
          Some (SChar c :: its, s2)
      end
  end.

Definition parse_set (s : text) : option (regex * text) :=
  match s with
  | "^"%char :: "]"%char :: _ | "]"%char :: _ => None
  | "^"%char :: s1 =>
      '(its, s2) ← parse_set_items (S (length s1)) s1;
      Some (RChar (CSet true its), s2)
  | _ =>
      '(its, s2) ← parse_set_items (S (length s)) s;
      Some (RChar (CSet false its), s2)
  end.

Definition parse_escape (s : text) : option (regex * text) :=
  match s with
  | [] => None
  | c :: s1 =>
      if Text.in_range 49 57 c then
        match s1 with
        | d :: _ =>
            if Text.is_ascii_digit d then None
            else Some (RBackref (N.to_nat (Text.code c - 48)), s1)
        | [] => Some (RBackref (N.to_nat (Text.code c - 48)), s1)
        end
      else
        i ← escape_item c;
        cs ← charset_of_item i;
        Some (RChar cs, s1)
  end.

(** A quantifier after the atom [a], if there is one. *)
Definition parse_quant (a : regex) (s : text) : option (regex * text) :=
  let quantified (mk : regex -> regex) (s1 : text) :=
    match s1 with
    | c :: _ =>
        if is_quantifier c || bool_decide (c = "{"%char) then None
        else Some (mk a, s1)
    | [] => Some (mk a, s1)
    end in
  match s with
  | "?"%char :: "?"%char :: s1 => quantified (ROpt false) s1
  | "?"%char :: s1 => quantified (ROpt true) s1
  | "*"%char :: "?"%char :: s1 =>
      if nullable a then None else quantified (RStar false) s1
  | "*"%char :: s1 =>
      if nullable a then None else quantified (RStar true) s1
  | "+"%char :: "?"%char :: s1 =>
      if nullable a then None else quantified (RPlus false) s1
  | "+"%char :: s1 =>
      if nullable a then None else quantified (RPlus true) s1
  | "{"%char :: c :: _ =>
      if Text.is_ascii_digit c || bool_decide (c = ","%char) then None
      else Some (a, s)
  | _ => Some (a, s)
  end.

(** Alternation, sequence and atom; [g] is the number of groups opened so
    far. *)
Fixpoint parse_alt (fuel : nat) (s : text) (g : nat)
    : option (regex * text * nat) :=
  match fuel with
  | O => None
  | S fuel' =>
      '(r1, s1, g1) ← parse_seq fuel' s g;
      match s1 with
      | "|"%char :: s2 =>
          '(r2, s3, g2) ← parse_alt fuel' s2 g1;
          Some (RAlt r1 r2, s3, g2)
      | _ => Some (r1, s1, g1)
      end
  end
with parse_seq (fuel : nat) (s : text) (g : nat)
    : option (regex * text * nat) :=
  match fuel with
  | O => None
  | S fuel' =>
      match s with
      | [] | "|"%char :: _ | ")"%char :: _ => Some (REmpty, s, g)
      | _ =>
          '(a, s1, g1) ← parse_atom fuel' s g;
          '(q, s2) ← parse_quant a s1;
          '(r, s3, g2) ← parse_seq fuel' s2 g1;
          Some (match r with REmpty => q | _ => RSeq q r end, s3, g2)
      end
  end
with parse_atom (fuel : nat) (s : text) (g : nat)
    : option (regex * text * nat) :=
  match fuel with
  | O => None
  | S fuel' =>
      match s with
      | "("%char :: "?"%char :: ":"%char :: s1 =>
          '(r, s2, g1) ← parse_alt fuel' s1 g;
          match s2 with
          | ")"%char :: s3 => Some (r, s3, g1)
          | _ => None
          end
      | "("%char :: "?"%char :: _ => None
      | "("%char :: s1 =>
          '(r, s2, g1) ← parse_alt fuel' s1 (S g);
          match s2 with
          | ")"%char :: s3 => Some (RGroup (S g) r, s3, g1)
          | _ => None
          end
      | "["%char :: s1 => '(r, s2) ← parse_set s1; Some (r, s2, g)
      | "\"%char :: s1 => '(r, s2) ← parse_escape s1; Some (r, s2, g)
      | "."%char :: s1 => Some (RChar CAny, s1, g)
      | "$"%char :: s1 => Some (REol, s1, g)
      | "^"%char :: _ => None
      | c :: s1 =>
          if is_quantifier c then None else Some (RChar (CLit c), s1, g)
      | [] => None
      end
  end.

(** [re.compile]: the whole pattern must be read. *)
Definition re_compile (p : text) : option regex :=
  match parse_alt (3 * S (length p)) p 0 with
  | Some (r, [], _) => Some r
  | _ => None
  end.

(** The compiled form of a pattern of the tables; [RFail], which matches
    nothing, stands for a pattern outside the fragment. *)
Definition compiled (p : text) : regex := default RFail (re_compile p).

(** *** Match objects, [search], [finditer] and [findall] *)

Record match_obj := {
  mo_start : nat;
  mo_end : nat;
  mo_whole : text;
  mo_groups : gmap nat text;
  mo_ngroups : nat
}.

Fixpoint ngroups (r : regex) : nat :=
  match r with
  | RSeq r1 r2 | RAlt r1 r2 => ngroups r1 + ngroups r2
  | ROpt _ r1 | RStar _ r1 | RPlus _ r1 => ngroups r1
  | RGroup _ r1 => S (ngroups r1)
  | _ => 0
  end.

Definition match_at (fl : flags) (r : regex) (pos : nat) (t : text)
    : option match_obj :=
  let st0 := {| m_pos := pos; m_rest := t; m_groups := ∅ |} in
  match rmatch fl r st0 Some with
  | Some st1 =>
      Some {| mo_start := pos; mo_end := m_pos st1;
              mo_whole := take (m_pos st1 - pos) t;
              mo_groups := m_groups st1;
              mo_ngroups := ngroups r |}
  | None => None
  end.

(** The leftmost match at or after the current position. *)
Fixpoint search_from (fl : flags) (r : regex) (pos : nat) (t : text)
    : option match_obj :=
  match match_at fl r pos t with
  | Some m => Some m
  | None =>
      match t with
      | [] => None
      | _ :: t' => search_from fl r (S pos) t'
      end
  end.

(** Successive non-overlapping matches, left to right.  After a match the
    scan resumes where it ended, one character further when the match was
    empty; for a pattern that cannot match the empty string, as those of
    the tables, this is the scan of [re].  [fuel] bounds the number of
    matches; the text length plus one is always enough. *)
Fixpoint finditer_from (fl : flags) (r : regex) (fuel : nat) (pos : nat)
    (t : text) : list match_obj :=
  match fuel with
  | O => []
  | S fuel' =>
      match search_from fl r pos t with
      | None => []
      | Some m =>
          let used := mo_end m - pos in
          let step := if decide (mo_end m = mo_start m) then S used else used in
          m :: (if decide (step <= length t)
                then finditer_from fl r fuel' (pos + step) (drop step t)
                else [])
      end
  end.

(** [match.group(i)]: [None] is Python's [None], the value of a group that
    took no part in the match. *)
Definition group (m : match_obj) (i : nat) : option text :=
  match i with
  | O => Some (mo_whole m)
  | _ => mo_groups m !! i
  end.

(** [match.groups()] as [findall] reports them: an absent group reads as
    the empty string. *)
Definition groups_or_empty (m : match_obj) : list text :=
  map (fun i => default [] (group m i)) (seq 1 (mo_ngroups m)).

End Re.

(** [re.search(pattern, text, flags)] *)
Definition re_search (p : text) (t : text) (fl : Re.flags)
    : option Re.match_obj :=
  Re.search_from fl (Re.compiled p) 0 t.

(** [re.finditer(pattern, text, flags)], as the list of its matches *)
Definition re_finditer (p : text) (t : text) (fl : Re.flags)
    : list Re.match_obj :=
  Re.finditer_from fl (Re.compiled p) (S (length t)) 0 t.

(** [re.findall(pattern, text)] for a pattern with several groups: the
    tuple of groups of each match. *)
Definition re_findall (p : text) (t : text) : list (list text) :=
  map Re.groups_or_empty (re_finditer p t Re.no_flags).

(** ** Python values, exceptions and results *)

Inductive pyval :=
| PNone
| PBool (b : bool)
| PInt (z : Z)
| PFloat (lexeme : text)
| PStr (s : text)
| PList (l : list pyval)
| PDict (d : gmap text pyval).

Record exn := { exn_type : text; exn_msg : text }.

Inductive result (A : Type) :=
| Ok (a : A)
| Raise (e : exn).
Arguments Ok {A} a.
Arguments Raise {A} e.

Definition AttributeError (msg : text) : exn :=
  {| exn_type := "AttributeError"; exn_msg := msg |}.

(** ** The command interpreter ([voice_commands.py]) *)

Module Voice.

Inductive CommandType :=
| MCP_CONTROL
| AGENT_REQUEST
| SYSTEM_CONTROL
| CONVERSATION
| UNKNOWN.

#[global] Instance CommandType_eq_dec : EqDecision CommandType.
Proof. solve_decision. Defined.

Record VoiceCommand := {
  original_text : text;
  command_type : CommandType;
  action : text;
  parameters : gmap text text;
  confidence : Q;
  timestamp : Q
}.

Record pattern_info := {
  p_pattern : text;
  p_action : text;
  p_params : list (text * nat)
}.

Definition entry (pat act : string) (ps : list (text * nat)) : pattern_info :=
  {| p_pattern := pat; p_action := act; p_params := ps |}.

(** [_initialize_command_patterns]: the table, in declaration order. *)
Definition command_patterns : list (CommandType * list pattern_info) :=
  [ (MCP_CONTROL,
     [ entry "open (?:file )?(.+?) in (?:cursor|editor)" "cursor_open_file"
         [("file_path" : text, 1)];
       entry "remember (?:that )?(.+)" "memory_save"
         [("content" : text, 1)];
       entry "watch (?:the )?(.+?) (?:directory|folder|files)" "file_watch"
         [("path" : text, 1)];
       entry "create (?:a )?file (?:called )?(.+)" "cursor_create_file"
         [("file_name" : text, 1)];
       entry "search (?:for )?(.+?) in (?:files|project)" "cursor_search_files"
         [("query" : text, 1)] ]);
    (AGENT_REQUEST,
     [ entry "(?:write|code|create) (?:a )?(.+?) (?:function|script|program)"
         "code_request" [("description" : text, 1)];
       entry "(?:browse|visit|go to) (.+)" "web_browse"
         [("url" : text, 1)];
       entry "(?:search|find|look up) (.+?) (?:on the web|online)" "web_search"
         [("query" : text, 1)];
       entry "(?:translate|convert) (.+?) (?:to|into) (.+)" "translate"
         [("text" : text, 1); ("target_language" : text, 2)] ]);
    (SYSTEM_CONTROL,
     [ entry "(?:start|begin) (?:listening|voice (?:mode|control))"
         "start_listening" [];
       entry "(?:stop|end|quit) (?:listening|voice (?:mode|control))"
         "stop_listening" [];
       entry "(?:set|change) voice (?:to )?(.+)" "change_voice"
         [("voice_name" : text, 1)];
       entry "(?:set|change) (?:speech )?(?:rate|speed) (?:to )?(.+)"
         "change_speech_rate" [("rate" : text, 1)];
       entry "(?:mute|unmute|silence)" "toggle_mute" [] ]);
    (CONVERSATION,
     [ entry "(?:hello|hi|hey)(?:\s+.+)?" "greeting" [];
       entry "(?:thank you|thanks)(?:\s+.+)?" "thanks" [];
       entry "(?:goodbye|bye|see you later)(?:\s+.+)?" "goodbye" [];
       entry "(?:help|what can you do)" "help" [] ]) ].

(** The parameter loop of [parse_command]: each named group that the
    pattern has is copied, stripped.  [match.group(i)] is [None] for a group
    that took no part in the match, and [None.strip()] raises. *)
Fixpoint extract_params (m : Re.match_obj) (ps : list (text * nat))
    (acc : gmap text text) : result (gmap text text) :=
  match ps with
  | [] => Ok acc
  | (param_name, group_index) :: ps' =>
      if decide (group_index <= Re.mo_ngroups m) then
        match Re.group m group_index with
        | Some g => extract_params m ps' (<[param_name := Text.strip g]> acc)
        | None =>
            Raise (AttributeError "'NoneType' object has no attribute 'strip'")
        end
      else extract_params m ps' acc
  end.

(** The inner loop: the first pattern of one command type that is found
    in the text. *)
Fixpoint first_pattern (t : text) (patterns : list pattern_info)
    : option (pattern_info * Re.match_obj) :=
  match patterns with
  | [] => None
  | info :: rest =>
      match re_search (p_pattern info) t Re.IGNORECASE with
      | Some m => Some (info, m)
      | None => first_pattern t rest
      end
  end.

(** The outer loop over the command types. *)
Fixpoint first_command (t : text)
    (table : list (CommandType * list pattern_info))
    : option (CommandType * pattern_info * Re.match_obj) :=
  match table with
  | [] => None
  | (ty, patterns) :: rest =>
      match first_pattern t patterns with
      | Some (info, m) => Some (ty, info, m)
      | None => first_command t rest
      end
  end.

(** [parse_command]; [now] is the clock reading [time.time()] returns. *)
Definition parse_command_with (table : list (CommandType * list pattern_info))
    (now : Q) (t : text) : result VoiceCommand :=
  let t := Text.strip (Text.lower t) in
  match first_command t table with
  | Some (ty, info, m) =>
      match extract_params m (p_params info) ∅ with
      | Ok params =>
          Ok {| original_text := t; command_type := ty;
                action := p_action info; parameters := params;
                confidence := 0.8; timestamp := now |}
      | Raise e => Raise e
      end
  | None =>
      Ok {| original_text := t; command_type := UNKNOWN;
            action := "general_query";
            parameters := {[ ("query" : text) := t ]};
            confidence := 0.3; timestamp := now |}
  end.

Definition parse_command : Q -> text -> result VoiceCommand :=
  parse_command_with command_patterns.

End Voice.

(** ** The session controller ([VoiceCommandProcessor]) *)

Module Controller.
Import Voice.

(** [re.sub] with the empty replacement: the text with every match cut
    out. *)
Fixpoint cut_matches (ms : list Re.match_obj) (pos : nat) (t : text) : text :=
  match ms with
  | [] => t
  | m :: ms' =>
      take (Re.mo_start m - pos) t
      ++ cut_matches ms' (Re.mo_end m) (drop (Re.mo_end m - pos) t)
  end.

Definition re_sub_empty (p : text) (t : text) (fl : Re.flags) : text :=
  cut_matches (re_finditer p t fl) 0 t.

(** [str(n)] for an integer *)
Definition str_of_int (z : Z) : text := NilZero.string_of_int (Z.to_int z).

(** The speech engine as the controller sees it: its properties, the
    voices it offers (identifier and name), and [handed_over], the texts
    [speak] has put on the synthesizer's queue so far, oldest first.
    The queue itself is emptied by the thread the synthesizer starts at
    construction, which is not modelled: [handed_over] records what was
    handed to the synthesizer, not what is waiting in its queue. *)
Record tts_state := {
  engine_rate : Z;
  engine_volume : Q;
  engine_voice : option text;
  engine_voices : list (text * text);
  handed_over : list text
}.

Record controller := {
  wake_word : text;
  listening : bool;
  wake_word_mode : bool;
  command_history : list VoiceCommand;
  max_history : nat;
  tts : tts_state
}.

Inductive event :=
| Logged (level : string) (msg : text)
| WakeWordDetected
| Dispatched (c : VoiceCommand)
| ErrorReported (e : exn)
| CaptureStarted
| CaptureStopped.

Section Processor.

(** The state of whatever the registered callbacks close over. *)
Context {H : Type}.

Definition callback (A B : Type) := A -> H -> result B * H.

Variable on_command_detected : option (callback VoiceCommand text).
Variable on_wake_word_detected : option (callback unit unit).
Variable on_error : option (callback exn unit).

Record world := {
  ctl : controller;
  ext : H;
  trace : list event
}.

(** Computations of the controller: they read and write the world and
    either return or raise. *)
Definition M (A : Type) := world -> result A * world.

Definition ret {A} (a : A) : M A := fun w => (Ok a, w).
Definition raise {A} (e : exn) : M A := fun w => (Raise e, w).
Definition bind {A B} (m : M A) (f : A -> M B) : M B :=
  fun w =>
    match m w with
    | (Ok a, w1) => f a w1
    | (Raise e, w1) => (Raise e, w1)
    end.
Definition try_except {A} (m : M A) (handler : exn -> M A) : M A :=
  fun w =>
    match m w with
    | (Ok a, w1) => (Ok a, w1)
    | (Raise e, w1) => handler e w1
    end.

Notation "x <- m ;; k" := (bind m (fun x => k))
  (at level 100, m at next level, right associativity).
Notation "m ;; k" := (bind m (fun _ => k))
  (at level 100, right associativity).

Definition get_ctl : M controller := fun w => (Ok (ctl w), w).
Definition modify_ctl (f : controller -> controller) : M unit :=
  fun w => (Ok tt, {| ctl := f (ctl w); ext := ext w; trace := trace w |}).
Definition emit (e : event) : M unit :=
  fun w => (Ok tt, {| ctl := ctl w; ext := ext w; trace := trace w ++ [e] |}).
Definition call {A B} (f : callback A B) (a : A) : M B :=
  fun w =>
    let '(r, h) := f a (ext w) in
    (r, {| ctl := ctl w; ext := h; trace := trace w |}).

Definition set_wake_word_mode (b : bool) (c : controller) : controller :=
  {| wake_word := wake_word c; listening := listening c;
     wake_word_mode := b; command_history := command_history c;
     max_history := max_history c; tts := tts c |}.
Definition set_listening (b : bool) (c : controller) : controller :=
  {| wake_word := wake_word c; listening := b;
     wake_word_mode := wake_word_mode c;
     command_history := command_history c;
     max_history := max_history c; tts := tts c |}.
Definition set_command_history (h : list VoiceCommand) (c : controller)
    : controller :=
  {| wake_word := wake_word c; listening := listening c;
     wake_word_mode := wake_word_mode c; command_history := h;
     max_history := max_history c; tts := tts c |}.
Definition set_tts (t : tts_state) (c : controller) : controller :=
  {| wake_word := wake_word c; listening := listening c;
     wake_word_mode := wake_word_mode c;
     command_history := command_history c;
     max_history := max_history c; tts := t |}.

(** *** The synthesizer's methods the controller calls *)

Definition clamp01 (v : Q) : Q :=
  if Qle_bool v 0 then 0 else if Qle_bool 1 v then 1 else v.

Definition tts_set_rate (rate : Z) : M unit :=
  modify_ctl (fun c => set_tts
    {| engine_rate := rate; engine_volume := engine_volume (tts c);
       engine_voice := engine_voice (tts c);
       engine_voices := engine_voices (tts c);
       handed_over := handed_over (tts c) |} c).

Definition tts_set_volume (volume : Q) : M unit :=
  modify_ctl (fun c => set_tts
    {| engine_rate := engine_rate (tts c); engine_volume := clamp01 volume;
       engine_voice := engine_voice (tts c);
       engine_voices := engine_voices (tts c);
       handed_over := handed_over (tts c) |} c).

Definition tts_set_voice (voice_id : text) : M bool :=
  c <- get_ctl ;;
  if existsb (fun v => bool_decide (v.1 = voice_id)) (engine_voices (tts c))
  then
    modify_ctl (fun c => set_tts
      {| engine_rate := engine_rate (tts c);
         engine_volume := engine_volume (tts c);
         engine_voice := Some voice_id;
         engine_voices := engine_voices (tts c);
         handed_over := handed_over (tts c) |} c) ;;
    ret true
  else ret false.

(** [get_available_voices]: a dict keyed by voice identifier, in insertion
    order; a repeated identifier keeps its first place and its last name. *)
Fixpoint dict_put (k v : text) (d : list (text * text)) : list (text * text) :=
  match d with
  | [] => [(k, v)]
  | (k', v') :: d' =>
      if decide (k' = k) then (k, v) :: d' else (k', v') :: dict_put k v d'
  end.

Definition tts_get_available_voices : M (list (text * text)) :=
  c <- get_ctl ;;
  ret (fold_left (fun d v => dict_put v.1 v.2 d) (engine_voices (tts c)) []).

(** [speak]: blank text is refused, anything else is stripped and put on
    the queue ([_queue_speech]); the put is recorded in [handed_over]. *)
Definition tts_speak (t : text) : M bool :=
  match Text.strip t with
  | [] => ret false
  | t' =>
      modify_ctl (fun c => set_tts
        {| engine_rate := engine_rate (tts c);
           engine_volume := engine_volume (tts c);
           engine_voice := engine_voice (tts c);
           engine_voices := engine_voices (tts c);
           handed_over := handed_over (tts c) ++ [t'] |} c) ;;
      ret true
  end.

(** *** Command handling *)

Definition param (c : VoiceCommand) (name : string) : text :=
  default [] (parameters c !! (name : text)).

Fixpoint find_voice (voice_name : text) (voices : list (text * text))
    : option (text * text) :=
  match voices with
  | [] => None
  | (voice_id, name) :: rest =>
      if Text.contains voice_name (Text.lower name)
      then Some (voice_id, name)
      else find_voice voice_name rest
  end.

Definition _handle_system_command (command : VoiceCommand) : M text :=
  let act := action command in
  if decide (act = ("start_listening" : text)) then
    modify_ctl (set_wake_word_mode false) ;;
    ret ("Continuous listening activated. I'm listening for commands." : text)
  else if decide (act = ("stop_listening" : text)) then
    modify_ctl (set_wake_word_mode true) ;;
    ret ("Switching to wake word mode. Say 'AgenticSeek' to get my attention."
         : text)
  else if decide (act = ("change_voice" : text)) then
    let voice_name := Text.lower (param command "voice_name") in
    voices <- tts_get_available_voices ;;
    match find_voice voice_name voices with
    | Some (voice_id, name) =>
        ok <- tts_set_voice voice_id ;;
        if ok then ret (("Voice changed to " : text) ++ name)
        else ret ("Failed to change voice" : text)
    | None =>
        ret (("Voice '" : text) ++ voice_name ++ ("' not found" : text))
    end
  else if decide (act = ("change_speech_rate" : text)) then
    let rate_text := Text.lower (param command "rate") in
    let set (rate : Z) :=
      tts_set_rate rate ;;
      ret (("Speech rate set to " : text) ++ str_of_int rate
           ++ (" words per minute" : text)) in
    if Text.contains "slow" rate_text || Text.contains "slower" rate_text
    then set 150%Z
    else if Text.contains "fast" rate_text || Text.contains "faster" rate_text
    then set 250%Z
    else if Text.contains "normal" rate_text then set 200%Z
    else
      match re_search "(\d+)" rate_text Re.no_flags with
      | Some m =>
          match Re.group m 1 ≫= Text.int_of_digits with
          | Some rate => set rate
          | None => ret ("Failed to change speech rate" : text)
          end
      | None => ret ("I didn't understand the speech rate" : text)
      end
  else if decide (act = ("toggle_mute" : text)) then
    c <- get_ctl ;;
    if Qle_bool (engine_volume (tts c)) 0 then
      tts_set_volume 0.8 ;; ret ("Unmuted" : text)
    else
      tts_set_volume 0 ;; ret ("Muted" : text)
  else ret ("System command not implemented" : text).

Definition _handle_conversation_command (command : VoiceCommand) : M text :=
  let act := action command in
  ret (if decide (act = ("greeting" : text)) then
         ("Hello! I'm ready to help you with AgenticSeek." : text)
       else if decide (act = ("thanks" : text)) then
         ("You're welcome! Happy to help." : text)
       else if decide (act = ("goodbye" : text)) then
         ("Goodbye! Have a great day." : text)
       else if decide (act = ("help" : text)) then
         ("I can help you control Cursor, manage memory, watch files, browse the web, write code, and more. Just speak naturally!" : text)
       else
         ("I understand you're trying to chat, but I'm not sure how to respond to that." : text)).

Definition _execute_command (command : VoiceCommand) : M text :=
  try_except
    (if decide (command_type command = SYSTEM_CONTROL) then
       _handle_system_command command
     else if decide (command_type command = CONVERSATION) then
       _handle_conversation_command command
     else
       match on_command_detected with
       | Some handler =>
           emit (Dispatched command) ;; call handler command
       | None =>
           ret (("Command recognized: " : text) ++ action command
                ++ (". No handler available." : text))
       end)
    (fun e =>
       emit (Logged "error"
               (("Error executing command: " : text) ++ exn_msg e)) ;;
       ret ("Sorry, I couldn't execute that command." : text)).

(** The history update of [_process_speech]: append, then drop the oldest
    entry when the bound is passed. *)
Definition history_push (max : nat) (command : VoiceCommand)
    (history : list VoiceCommand) : list VoiceCommand :=
  let history := history ++ [command] in
  if decide (max < length history) then drop 1 history else history.

(** The part of [_process_speech] after the wake-word gate. *)
Definition process_command (now : Q) (t : text) : M unit :=
  command <- (fun w => (parse_command now t, w)) ;;
  modify_ctl (fun c =>
    set_command_history
      (history_push (max_history c) command (command_history c)) c) ;;
  response <- _execute_command command ;;
  match response with
  | [] => ret tt
  | _ => tts_speak response ;; ret tt
  end.

Definition _process_speech (now : Q) (t : text) : M unit :=
  try_except
    (let t := Text.strip t in
     match t with
     | [] => ret tt
     | _ =>
         emit (Logged "info"
                 (("Processing speech: '" : text) ++ t ++ ("'" : text))) ;;
         c <- get_ctl ;;
         if wake_word_mode c then
           if Text.contains (wake_word c) (Text.lower t) then
             tts_speak "Yes?" ;;
             match on_wake_word_detected with
             | Some f => emit WakeWordDetected ;; call f tt
             | None => ret tt
             end ;;
             let t := Text.strip (re_sub_empty (wake_word c) t Re.IGNORECASE) in
             match t with
             | [] => ret tt
             | _ => process_command now t
             end
           else ret tt
         else process_command now t
     end)
    (fun e =>
       emit (Logged "error"
               (("Error processing speech: " : text) ++ exn_msg e)) ;;
       match on_error with
       | Some f => emit (ErrorReported e) ;; call f e
       | None => ret tt
       end ;;
       tts_speak "Sorry, I encountered an error processing that command." ;;
       ret tt).

(** *** Lifecycle methods *)

Definition start_listening : M unit :=
  c <- get_ctl ;;
  if listening c then ret tt
  else
    modify_ctl (set_listening true) ;;
    emit CaptureStarted ;;
    (if wake_word_mode c then
       tts_speak (("Voice control ready. Say '" : text) ++ wake_word c
                  ++ ("' to get my attention." : text))
     else tts_speak "Voice control ready. I'm listening for commands.") ;;
    ret tt.

Definition stop_listening : M unit :=
  c <- get_ctl ;;
  if listening c then
    modify_ctl (set_listening false) ;;
    emit CaptureStopped ;;
    tts_speak "Voice control stopped." ;;
    ret tt
  else ret tt.

Definition toggle_wake_word_mode : M unit :=
  modify_ctl (fun c => set_wake_word_mode (negb (wake_word_mode c)) c) ;;
  c <- get_ctl ;;
  tts_speak (("Switched to " : text)
             ++ (if wake_word_mode c then ("wake word" : text)
                 else ("continuous" : text))
             ++ (" mode." : text)) ;;
  ret tt.

End Processor.

(** [__init__]: the controller as constructed, with the voices the engine
    reports. *)
Definition init (tts_rate : Z) (tts_volume : Q) (wake : text)
    (voices : list (text * text)) : controller :=
  {| wake_word := Text.lower wake;
     listening := false;
     wake_word_mode := true;
     command_history := [];
     max_history := 50;
     tts := {| engine_rate := tts_rate; engine_volume := clamp01 tts_volume;
               engine_voice := None; engine_voices := voices;
               handed_over := [] |} |}.

End Controller.

(** ** A JSON decoder

    The functions of the executor and of the gateway below take the decoder
    [json.loads] as a parameter, so what is proved of them holds of any
    decoder, whatever it returns or raises.  [Json.loads] is a decoder to
    run them with: the grammar Python's [json] module accepts, on texts
    whose code points stay below U+0100 (an escape denoting a higher one
    is refused).  It raises what CPython 3.11 raises: [JSONDecodeError] on
    a text outside the grammar (its message, which gives the position, is
    left empty: neither caller reads it), [ValueError] on an integer of
    more than 4300 digits, and [RecursionError] on containers nested
    deeper than the interpreter has room for.  A number with a fraction or
    an exponent is kept as its lexeme. *)

Module Json.

Definition JSONDecodeError : exn :=
  {| exn_type := "JSONDecodeError"; exn_msg := [] |}.

(** [str(n)] for a count *)
Definition str_of_nat (n : nat) : text :=
  NilZero.string_of_uint (Nat.to_uint n).

Definition digits_error (digits : nat) : exn :=
  {| exn_type := "ValueError";
     exn_msg :=
       ("Exceeds the limit (4300 digits) for integer string conversion: value has "
        : text) ++ str_of_nat digits
       ++ (" digits; use sys.set_int_max_str_digits() to increase the limit"
           : text) |}.

(** The containers the decoder can be inside of at once when [json.loads]
    is called from the top level of a script, with the default recursion
    limit of 1000; every function frame between the top level and the
    call takes one away. *)
Definition max_depth : nat := 995.

Definition RecursionError (container : text) : exn :=
  {| exn_type := "RecursionError";
     exn_msg :=
       ("maximum recursion depth exceeded while decoding a JSON " : text)
       ++ container ++ (" from a unicode string" : text) |}.

(** What scanning a value gives: the value and the text after it, no
    value of the grammar ([Invalid]), or an exception other than
    [JSONDecodeError]. *)
Inductive scanned :=
| Found (v : pyval) (rest : text)
| Invalid
| Failed (e : exn).

Definition is_ws (c : ascii) : bool :=
  bool_decide (c = " "%char) || bool_decide (c = "009"%char)
  || bool_decide (c = "010"%char) || bool_decide (c = "013"%char).

Fixpoint skip_ws (s : text) : text :=
  match s with
  | c :: s' => if is_ws c then skip_ws s' else s
  | [] => []
  end.

Definition eat (lit : text) (s : text) : option text :=
  if Text.startswith lit s then Some (drop (length lit) s) else None.

Fixpoint take_digits (s : text) : text * text :=
  match s with
  | c :: s' =>
      if Text.is_ascii_digit c
      then let '(ds, r) := take_digits s' in (c :: ds, r)
      else ([], s)
  | [] => ([], [])
  end.

Definition int_value (negative : bool) (ds : text) : Z :=
  let n := fold_left (fun acc c => 10 * acc + Text.digit_value c)%Z ds 0%Z in
  if negative then (- n)%Z else n.

(** The number at the head of [s], if any: an integer part, then an
    optional fraction and an optional exponent.  An integer goes through
    [int], which refuses more than [Text.max_str_digits] digits. *)
Definition scan_number (s : text) : scanned :=
  let '(negative, s1) :=
    match s with
    | "-"%char :: s' => (true, s')
    | _ => (false, s)
    end in
  let int_part :=
    match s1 with
    | "0"%char :: s2 => Some (["0"%char], s2)
    | c :: _ =>
        if Text.is_ascii_digit c then Some (take_digits s1) else None
    | [] => None
    end in
  match int_part with
  | None => Invalid
  | Some (ds, r1) =>
      let '(frac, r2) :=
        match r1 with
        | "."%char :: r =>
            match take_digits r with
            | ([], _) => ([], r1)
            | (fs, r') => ("."%char :: fs, r')
            end
        | _ => ([], r1)
        end in
      let '(exp, r3) :=
        match r2 with
        | e :: r =>
            if bool_decide (e = "e"%char) || bool_decide (e = "E"%char) then
              let '(sign, r') :=
                match r with
                | c :: r'' =>
                    if bool_decide (c = "-"%char) || bool_decide (c = "+"%char)
                    then ([c], r'') else ([], r)
                | [] => ([], r)
                end in
              match take_digits r' with
              | ([], _) => ([], r2)
              | (es, r'') => (e :: sign ++ es, r'')
              end
            else ([], r2)
        | [] => ([], r2)
        end in
      match frac, exp with
      | [], [] =>
          if (Text.max_str_digits <? length ds)%nat
          then Failed (digits_error (length ds))
          else Found (PInt (int_value negative ds)) r3
      | _, _ =>
          Found
            (PFloat ((if negative then ["-"%char] else []) ++ ds ++ frac
                     ++ exp))
            r3
      end
  end.

Definition hex_value (c : ascii) : option N :=
  if Text.in_range 48 57 c then Some (Text.code c - 48)%N
  else if Text.in_range 97 102 c then Some (Text.code c - 87)%N
  else if Text.in_range 65 70 c then Some (Text.code c - 55)%N
  else None.

Definition simple_escape (c : ascii) : option ascii :=
  match c with
  | "034"%char => Some "034"%char
  | "\"%char => Some "\"%char
  | "/"%char => Some "/"%char
  | "b"%char => Some "008"%char
  | "f"%char => Some "012"%char
  | "n"%char => Some "010"%char
  | "r"%char => Some "013"%char
  | "t"%char => Some "009"%char
  | _ => None
  end.

(** The body of a string, after its opening quote. *)
Fixpoint scan_string (s : text) (acc : text) : option (text * text) :=
  match s with
  | [] => None
  | c :: s1 =>
      if bool_decide (c = Text.dquote) then Some (rev acc, s1)
      else if bool_decide (c = "\"%char) then
        match s1 with
        | "u"%char :: h1 :: h2 :: h3 :: h4 :: s2 =>
            a ← hex_value h1; b ← hex_value h2;
            c ← hex_value h3; d ← hex_value h4;
            let n := (((a * 16 + b) * 16 + c) * 16 + d)%N in
            if (n <? 256)%N then scan_string s2 (ascii_of_N n :: acc)
            else None
        | e :: s2 =>
            x ← simple_escape e;
            scan_string s2 (x :: acc)
        | [] => None
        end
      else if (Text.code c <? 32)%N then None
      else scan_string s1 (c :: acc)
  end.

Definition constant (lit : text) (v : pyval) (s : text) : scanned :=
  match eat lit s with
  | Some r => Found v r
  | None => Invalid
  end.

(** [room] is the number of containers that can still be entered. *)
Fixpoint scan_value (fuel : nat) (room : nat) (s : text) : scanned :=
  match fuel with
  | O => Invalid
  | S fuel' =>
      match s with
      | "034"%char :: s1 =>
          match scan_string s1 [] with
          | Some (str, r) => Found (PStr str) r
          | None => Invalid
          end
      | "{"%char :: s1 =>
          match room with
          | O => Failed (RecursionError "object")
          | S room' =>
              match skip_ws s1 with
              | "}"%char :: r => Found (PDict ∅) r
              | s2 => scan_members fuel' room' s2 ∅
              end
          end
      | "["%char :: s1 =>
          match room with
          | O => Failed (RecursionError "array")
          | S room' =>
              match skip_ws s1 with
              | "]"%char :: r => Found (PList []) r
              | s2 => scan_elements fuel' room' s2 []
              end
          end
      | "n"%char :: _ => constant "null" PNone s
      | "t"%char :: _ => constant "true" (PBool true) s
      | "f"%char :: _ => constant "false" (PBool false) s
      | "N"%char :: _ => constant "NaN" (PFloat "NaN") s
      | "I"%char :: _ => constant "Infinity" (PFloat "Infinity") s
      | _ =>
          match scan_number s with
          | Invalid => constant "-Infinity" (PFloat "-Infinity") s
          | found_or_failed => found_or_failed
          end
      end
  end
with scan_members (fuel : nat) (room : nat) (s : text)
    (acc : gmap text pyval) : scanned :=
  match fuel with
  | O => Invalid
  | S fuel' =>
      match s with
      | "034"%char :: s1 =>
          match scan_string s1 [] with
          | Some (key, r1) =>
              match skip_ws r1 with
              | ":"%char :: r2 =>
                  match scan_value fuel' room (skip_ws r2) with
                  | Found v r3 =>
                      match skip_ws r3 with
                      | "}"%char :: r => Found (PDict (<[key := v]> acc)) r
                      | ","%char :: r4 =>
                          scan_members fuel' room (skip_ws r4)
                            (<[key := v]> acc)
                      | _ => Invalid
                      end
                  | Invalid => Invalid
                  | Failed e => Failed e
                  end
              | _ => Invalid
              end
          | None => Invalid
          end
      | _ => Invalid
      end
  end
with scan_elements (fuel : nat) (room : nat) (s : text) (acc : list pyval)
    : scanned :=
  match fuel with
  | O => Invalid
  | S fuel' =>
      match scan_value fuel' room s with
      | Found v r1 =>
          match skip_ws r1 with
          | "]"%char :: r => Found (PList (rev (v :: acc))) r
          | ","%char :: r2 => scan_elements fuel' room (skip_ws r2) (v :: acc)
          | _ => Invalid
          end
      | Invalid => Invalid
      | Failed e => Failed e
      end
  end.

(** [json.loads]: one value, with white space allowed around it.  A
    container takes two steps of the scan for one character of the text,
    which the fuel allows for; [room] is the nesting the decoder can
    enter where it is called. *)
Definition loads_with (room : nat) (s : text) : result pyval :=
  match scan_value (2 * length s + 2) room (skip_ws s) with
  | Found v r =>
      match skip_ws r with
      | [] => Ok v
      | _ => Raise JSONDecodeError
      end
  | Invalid => Raise JSONDecodeError
  | Failed e => Raise e
  end.

Definition loads : text -> result pyval := loads_with max_depth.

End Json.

(** ** The tool executor ([tools/tool_executor.py]) *)

Module Tools.

(** The three notations, in the order of the source's [patterns] list. *)
Definition patterns : list text :=
  [ ("TOOL_CALL:\s*(\w+)\s*\((.*?)\)" : text);
    ("\[TOOL:\s*(\w+)(?:,\s*args:\s*({.*?}))?\]" : text);
    ("use\s+tool:\s*(\w+)(?:\s+with\s+args\s*({.*?}))?" : text) ].

(** The pattern that splits a function-call argument list. *)
Definition arg_pattern : text :=
  ("(\w+)=([" : text) ++ [Text.dquote] ++ ("\']?)(.*?)\2(?:,|$)" : text).

(** An extracted call: the dict with keys [tool], [args] and [raw_match]. *)
Record tool_call := {
  tool : text;
  args : pyval;
  raw_match : text
}.

(** The value an argument token is given. *)
Definition coerce_arg (arg_value : text) : result pyval :=
  let low := Text.lower arg_value in
  if bool_decide (low = ("true" : text)) || bool_decide (low = ("false" : text))
  then Ok (PBool (bool_decide (low = ("true" : text))))
  else if Text.isdigit arg_value then
    match Text.int_of_digits arg_value with
    | Some z => Ok (PInt z)
    | None =>
        Raise {| exn_type := "ValueError";
                 exn_msg := ("invalid literal for int() with base 10" : text) |}
    end
  else Ok (PStr arg_value).

(** The loop over the [findall] tuples [(arg_name, quote, arg_value)]. *)
Fixpoint coerce_args (arg_matches : list (list text)) (acc : gmap text pyval)
    : result (gmap text pyval) :=
  match arg_matches with
  | [] => Ok acc
  | [arg_name; _; arg_value] :: rest =>
      match coerce_arg arg_value with
      | Ok v => coerce_args rest (<[arg_name := v]> acc)
      | Raise e => Raise e
      end
  | _ :: _ =>
      Raise {| exn_type := "ValueError";
               exn_msg := ("not enough values to unpack" : text) |}
  end.

Section Executor.

Variable json_loads : text -> result pyval.

(** The argument block of one match: a block that starts with a brace goes
    to the JSON decoder as a whole, any other is split into [name=value]
    fields; whatever fails leaves the block itself under the key [input]. *)
Definition parse_args (args_str : option text) : pyval :=
  match args_str with
  | None | Some [] => PDict ∅
  | Some s =>
      let fallback := PDict {[ ("input" : text) := PStr s ]} in
      if Text.startswith "{" s then
        match json_loads s with
        | Ok v => v
        | Raise _ => fallback
        end
      else
        match coerce_args (re_findall arg_pattern s) ∅ with
        | Ok d => PDict d
        | Raise _ => fallback
        end
  end.

(** The state the tool functions act on (files, processes, connections). *)
Context {W : Type}.

(** What a call of a tool function does: it returns a value, or raises an
    exception of class [Exception], whose formatted traceback is
    [traceback]. *)
Inductive outcome :=
| Returned (v : pyval)
| Raised (e : exn) (traceback : text).

(** A registered callable: what [tool_function( **args )] does. *)
Definition tool_fn := pyval -> W -> outcome * W.

Variable tools : gmap text tool_fn.

(** The calls one match contributes: one if its name is registered. *)
Definition call_of_match (m : Re.match_obj) : list tool_call :=
  match Re.group m 1 with
  | Some tool_name =>
      let args_str :=
        if decide (1 < Re.mo_ngroups m) then Re.group m 2 else Some [] in
      let a := parse_args args_str in
      if decide (is_Some (tools !! tool_name)) then
        [ {| tool := tool_name; args := a; raw_match := Re.mo_whole m |} ]
      else []
  | None => []
  end.

Definition calls_of_pattern (t : text) (pattern : text) : list tool_call :=
  flat_map call_of_match (re_finditer pattern t Re.IGNORECASE_DOTALL).

Definition parse_tool_calls (t : text) : list tool_call :=
  flat_map (calls_of_pattern t) patterns.

(** [execute_tool] *)
Definition execute_tool (tool_name : text) (a : pyval) (w : W) : pyval * W :=
  match tools !! tool_name with
  | None =>
      (PDict {[ ("error" : text) :=
                  PStr (("Tool '" : text) ++ tool_name
                        ++ ("' not found" : text)) ]}, w)
  | Some tool_function =>
      match tool_function a w with
      | (Returned r, w1) =>
          let success :=
            match r with
            | PDict d => default (PBool true) (d !! ("success" : text))
            | _ => PBool true
            end in
          (PDict (<[ ("tool" : text) := PStr tool_name ]>
                 (<[ ("args" : text) := a ]>
                 (<[ ("result" : text) := r ]>
                 {[ ("success" : text) := success ]}))), w1)
      | (Raised e tb, w1) =>
          (PDict (<[ ("tool" : text) := PStr tool_name ]>
                 (<[ ("args" : text) := a ]>
                 (<[ ("error" : text) :=
                       PStr (("Tool execution failed: " : text) ++ exn_msg e) ]>
                 {[ ("traceback" : text) := PStr tb ]}))), w1)
      end
  end.

(** The loop of [process_ai_response] over the extracted calls. *)
Fixpoint execute_all (calls : list tool_call) (w : W) : list pyval * W :=
  match calls with
  | [] => ([], w)
  | c :: rest =>
      let '(r, w1) := execute_tool (tool c) (args c) w in
      let '(rs, w2) := execute_all rest w1 in
      (r :: rs, w2)
  end.

(** [process_ai_response] *)
Definition process_ai_response (ai_response : text) (w : W) : pyval * W :=
  match parse_tool_calls ai_response with
  | [] =>
      (PDict (<[ ("success" : text) := PBool true ]>
             (<[ ("message" : text) := PStr ai_response ]>
             (<[ ("tool_calls" : text) := PList [] ]>
             {[ ("has_tool_calls" : text) := PBool false ]}))), w)
  | tool_calls =>
      let '(executed_tools, w1) := execute_all tool_calls w in
      (PDict (<[ ("success" : text) := PBool true ]>
             (<[ ("message" : text) := PStr ai_response ]>
             (<[ ("tool_calls" : text) := PList executed_tools ]>
             (<[ ("has_tool_calls" : text) := PBool true ]>
             {[ ("tool_count" : text) :=
                  PInt (Z.of_nat (length executed_tools)) ]})))), w1)
  end.

End Executor.

(** The names [_register_tools] registers, family by family. *)
Definition file_tools : list string :=
  ["read_file"; "write_file"; "list_directory"; "search_files";
   "create_directory"; "move_file"; "copy_file"; "delete_file"].
Definition shell_tools : list string :=
  ["execute_command"; "execute_python_script"; "get_system_info";
   "check_process"].
Definition cursor_tools : list string :=
  ["open_file"; "open_directory"; "create_and_open_file";
   "is_cursor_running"; "get_cursor_info"].
Definition database_tools : list string :=
  ["connect_sqlite"; "execute_query"; "get_tables"; "get_table_schema";
   "create_sample_table"; "close_connection"; "list_connections"].
Definition git_tools : list string :=
  ["git_status"; "git_add"; "git_commit"; "git_push"; "git_branch";
   "git_log"].

(** [dict.update]: the entries of [new] replace those of [d]. *)
Definition dict_update {V} (d new : gmap text V) : gmap text V := new ∪ d.

(** [_register_tools], given the callable behind each name. *)
Definition family {W} (impl : string -> @tool_fn W) (names : list string)
    : gmap text (@tool_fn W) :=
  list_to_map (map (fun n => (text_of_string n, impl n)) names).

Definition _register_tools {W} (impl : string -> @tool_fn W)
    : gmap text (@tool_fn W) :=
  let tools := ∅ in
  let tools := dict_update tools (family impl file_tools) in
  let tools := dict_update tools (family impl shell_tools) in
  let tools := dict_update tools (family impl cursor_tools) in
  let tools := dict_update tools (family impl database_tools) in
  dict_update tools (family impl git_tools).

End Tools.

(** ** The tool-server gateway ([enhanced_mcp_agent.py]) *)

Module Gateway.

(** A server descriptor as the descriptor format gives it: the launch
    command, its arguments (none when absent) and the environment
    overrides (none when absent). *)
Record descriptor := {
  command : text;
  d_args : list text;
  env : gmap text text
}.

(** What [discover_mcp_servers] finds at one configuration path: no file,
    a file that cannot be read or decoded, or a decoded object, with its
    [mcpServers] table if it has one. *)
Inductive config_file :=
| NoFile
| Unreadable
| Config (mcpServers : option (gmap text descriptor)).

(** [discover_mcp_servers]: the loop over the configuration paths, in
    order; [servers.update] lets each table overwrite what is there. *)
Definition discover_step (servers : gmap text descriptor) (f : config_file)
    : gmap text descriptor :=
  match f with
  | Config (Some table) => Tools.dict_update servers table
  | Config None | NoFile | Unreadable => servers
  end.

Definition discover_mcp_servers (files : list config_file)
    : gmap text descriptor :=
  fold_left discover_step files ∅.

(** *** Python's [in] and indexing on a decoded value *)

Definition type_name (v : pyval) : text :=
  match v with
  | PNone => "NoneType"
  | PBool _ => "bool"
  | PInt _ => "int"
  | PFloat _ => "float"
  | PStr _ => "str"
  | PList _ => "list"
  | PDict _ => "dict"
  end.

Definition TypeError (msg : text) : exn :=
  {| exn_type := "TypeError"; exn_msg := msg |}.

Definition is_str (key : text) (v : pyval) : bool :=
  match v with
  | PStr s => bool_decide (s = key)
  | _ => false
  end.

(** [key in v] *)
Definition py_contains (key : text) (v : pyval) : result bool :=
  match v with
  | PDict d => Ok (bool_decide (is_Some (d !! key)))
  | PList l => Ok (existsb (is_str key) l)
  | PStr s => Ok (Text.contains key s)
  | _ =>
      Raise (TypeError (("argument of type '" : text) ++ type_name v
                        ++ ("' is not iterable" : text)))
  end.

(** [v[key]] for a string key *)
Definition py_getitem (v : pyval) (key : text) : result pyval :=
  match v with
  | PDict d =>
      match d !! key with
      | Some x => Ok x
      | None => Raise {| exn_type := "KeyError"; exn_msg := key |}
      end
  | PList _ =>
      Raise (TypeError "list indices must be integers or slices, not str")
  | PStr _ => Raise (TypeError "string indices must be integers, not 'str'")
  | _ =>
      Raise (TypeError (("'" : text) ++ type_name v
                        ++ ("' object is not subscriptable" : text)))
  end.

(** *** One call *)

(** How a spawned server process ends, as [communicate] reports it: the
    time-out passes, or the process exits. *)
Inductive proc_outcome :=
| TimedOut
| Exited (returncode : Z) (stdout stderr : text).

Inductive event :=
| Spawned (cmd : list text) (environment : gmap text text)
| Sent (input : text)
| Killed.

(** [isinstance(e, json.JSONDecodeError)] *)
Definition is_decode_error (e : exn) : bool :=
  bool_decide (exn_type e = ("JSONDecodeError" : text)).

Definition error_payload (msg : text) : pyval :=
  PDict {[ ("error" : text) := PStr msg ]}.

Definition error_value (v : pyval) : pyval :=
  PDict {[ ("error" : text) := v ]}.

Section Call.

Variable json_loads : text -> result pyval.
Variable json_dumps : pyval -> result text.

(** The host: whether a command can be spawned with an environment
    ([Popen] raises when it cannot), and what the spawned process does
    with its input. *)
Variable popen : list text -> gmap text text -> result unit.
Variable communicate : list text -> gmap text text -> text -> proc_outcome.
Variable os_environ : gmap text text.

(** What one line of output decides: go on to the next line, return a
    value, or raise out of the loop.  Of what the decoder raises only
    [JSONDecodeError] is caught inside the loop. *)
Inductive line_result :=
| NextLine
| Return (v : pyval)
| Abort (e : exn).

Definition scan_line (line : text) : line_result :=
  match Text.strip line with
  | [] => NextLine
  | _ =>
      match json_loads line with
      | Raise e => if is_decode_error e then NextLine else Abort e
      | Ok response =>
          match py_contains "result" response with
          | Raise e => Abort e
          | Ok true =>
              match py_getitem response "result" with
              | Ok v => Return v
              | Raise e => Abort e
              end
          | Ok false =>
              match py_contains "error" response with
              | Raise e => Abort e
              | Ok true =>
                  match py_getitem response "error" with
                  | Ok v => Return (error_value v)
                  | Raise e => Abort e
                  end
              | Ok false => NextLine
              end
          end
      end
  end.

(** The response loop: [None] when the lines run out. *)
Fixpoint scan_lines (lines : list text) : option (result pyval) :=
  match lines with
  | [] => None
  | line :: rest =>
      match scan_line line with
      | NextLine => scan_lines rest
      | Return v => Some (Ok v)
      | Abort e => Some (Raise e)
      end
  end.

Definition failed (e : exn) : pyval :=
  error_payload (("Failed to execute MCP tool: " : text) ++ exn_msg e).

Definition request (tool_name : text) (arguments : pyval) : pyval :=
  PDict (<[ ("jsonrpc" : text) := PStr "2.0" ]>
        (<[ ("id" : text) := PInt 1 ]>
        (<[ ("method" : text) := PStr "tools/call" ]>
        {[ ("params" : text) :=
             PDict (<[ ("name" : text) := PStr tool_name ]>
                   {[ ("arguments" : text) := arguments ]}) ]}))).

(** [execute_mcp_tool]: the value returned and the process events, in
    order.  [arguments] is [args or {}]. *)
Definition execute_mcp_tool (mcp_servers : gmap text descriptor)
    (server_name tool_name : text) (arguments : pyval)
    : pyval * list event :=
  match mcp_servers !! server_name with
  | None =>
      (error_payload (("MCP server '" : text) ++ server_name
                      ++ ("' not found" : text)), [])
  | Some server_config =>
      let cmd := command server_config :: d_args server_config in
      let environment := Tools.dict_update os_environ (env server_config) in
      match popen cmd environment with
      | Raise e => (failed e, [])
      | Ok _ =>
          match json_dumps (request tool_name arguments) with
          | Raise e => (failed e, [Spawned cmd environment])
          | Ok body =>
              let input := body ++ [Text.newline] in
              match communicate cmd environment input with
              | TimedOut =>
                  (error_payload "MCP server timeout",
                   [Spawned cmd environment; Sent input; Killed])
              | Exited returncode stdout stderr =>
                  let events := [Spawned cmd environment; Sent input] in
                  if decide (returncode ≠ 0%Z) then
                    (error_payload (("MCP server error: " : text) ++ stderr),
                     events)
                  else
                    match scan_lines
                            (Text.split_on Text.newline (Text.strip stdout))
                    with
                    | Some (Ok v) => (v, events)
                    | Some (Raise e) => (failed e, events)
                    | None =>
                        (error_payload "No valid response from MCP server",
                         events)
                    end
              end
          end
      end
  end.

End Call.

End Gateway.

(** * Notions used in the statements *)

Module ReSpec.
Import Re.

(** The groups every match of [r] sets, by the shape of [r]. *)
Fixpoint sure_groups (r : regex) : list nat :=
  match r with
  | RSeq r1 r2 => sure_groups r1 ++ sure_groups r2
  | RPlus _ r1 => sure_groups r1
  | RGroup n r1 => n :: sure_groups r1
  | _ => []
  end.

(** [st1] is a state a match of [r] begun in [st] can end in. *)
Definition extends (r : regex) (st st1 : mstate) : Prop :=
  m_pos st <= m_pos st1
  /\ (forall n, In n (sure_groups r) -> is_Some (m_groups st1 !! n))
  /\ (forall n, is_Some (m_groups st !! n) -> is_Some (m_groups st1 !! n)).

(** Successive matches do not overlap and move rightwards. *)
Definition before (a b : match_obj) : Prop :=
  mo_end a <= mo_start b /\ mo_start a < mo_start b.

End ReSpec.

Module VoiceSpec.
Import Voice.

(** The text [parse_command] works on: lowercased, then stripped. *)
Definition normalize (t : text) : text := Text.strip (Text.lower t).

Definition no_pattern_matches (t : text) : Prop :=
  forall ty pats info,
    In (ty, pats) command_patterns -> In info pats ->
    re_search (p_pattern info) t Re.IGNORECASE = None.

Definition some_pattern_matches (t : text) : Prop :=
  exists ty pats info,
    In (ty, pats) command_patterns /\ In info pats
    /\ is_Some (re_search (p_pattern info) t Re.IGNORECASE).

(** The command of the unmatched case, for the text [t]. *)
Definition general_query (now : Q) (t : text) : VoiceCommand :=
  {| original_text := t; command_type := UNKNOWN;
     action := "general_query";
     parameters := {[ ("query" : text) := t ]};
     confidence := 0.3; timestamp := now |}.

(** The property read with the input itself as the text that is matched
    and that is stored under [query]. *)
Definition baselines_on_input : Prop :=
  forall (now : Q) (t : text),
    (no_pattern_matches t ->
     exists c, parse_command now t = Ok c
       /\ command_type c = UNKNOWN
       /\ action c = ("general_query" : text)
       /\ parameters c = {[ ("query" : text) := t ]}
       /\ confidence c = 0.3%Q)
    /\ (some_pattern_matches t ->
        exists c, parse_command now t = Ok c /\ confidence c = 0.8%Q).

(** Every parameter of an entry names a group that each match of the
    entry's pattern sets. *)
Definition entry_ok (info : pattern_info) : bool :=
  forallb (fun '(_, i) =>
    bool_decide (i = 0 \/ i ∈ ReSpec.sure_groups (Re.compiled (p_pattern info))))
    (p_params info).

Definition table_ok (table : list (CommandType * list pattern_info)) : bool :=
  forallb (fun '(ty, pats) =>
    negb (bool_decide (ty = UNKNOWN)) && forallb entry_ok pats) table.

End VoiceSpec.

Module ControllerSpec.
Import Voice Controller.

Definition is_log (e : event) : Prop :=
  match e with
  | Logged _ _ => True
  | _ => False
  end.

(** The history bound [__init__] sets. *)
Definition capacity : nat := 50.

(** [c1] has the history and the bound of [c]. *)
Definition keeps (c c1 : controller) : Prop :=
  command_history c1 = command_history c /\ max_history c1 = max_history c.

(** [c1] has the bound of [c] and its history, or that history with one
    command pushed. *)
Definition pushes (c c1 : controller) : Prop :=
  max_history c1 = max_history c
  /\ (command_history c1 = command_history c
      \/ exists command,
           command_history c1
           = history_push (max_history c) command (command_history c)).

Section Reach.
Context {H : Type}.
Variable on_command_detected : option (@callback H VoiceCommand text).
Variable on_wake_word_detected : option (@callback H unit unit).
Variable on_error : option (@callback H exn unit).

(** A computation relates the controller before to the controller after. *)
Definition respects {A} (R : controller -> controller -> Prop)
    (m : @M H A) : Prop :=
  forall w, R (ctl w) (ctl (m w).2).

(** One call of a method of the controller. *)
Inductive step : @world H -> @world H -> Prop :=
| step_speech now t w :
    step w (_process_speech on_command_detected on_wake_word_detected
              on_error now t w).2
| step_start w : step w (start_listening w).2
| step_stop w : step w (stop_listening w).2
| step_toggle w : step w (toggle_wake_word_mode w).2.

(** The worlds a constructed controller can be in. *)
Inductive reachable : @world H -> Prop :=
| reach_init w rate volume wake voices :
    ctl w = init rate volume wake voices -> reachable w
| reach_step w w1 : reachable w -> step w w1 -> reachable w1.

(** Processing a run of utterances, oldest first, each with the clock
    reading at which it is processed. *)
Definition hear_all (utterances : list (Q * text)) (w : @world H)
    : @world H :=
  fold_left (fun w u =>
    (_process_speech on_command_detected on_wake_word_detected on_error
       u.1 u.2 w).2)
    utterances w.

End Reach.

(** The spoken command "stop listening", which puts the controller back
    in wake-word mode. *)
Definition stops (c : VoiceCommand) : Prop :=
  command_type c = SYSTEM_CONTROL
  /\ action c = ("stop_listening" : text).

(** In continuous mode the utterance [u] is taken for the command [c]: it
    is not blank, its stripped text parses as [c], and [c] does not leave
    the mode. *)
Definition heard_as (u : Q * text) (c : VoiceCommand) : Prop :=
  Text.strip u.2 <> []
  /\ parse_command u.1 (Text.strip u.2) = Ok c
  /\ ~ stops c.

(** The controller does not leave continuous mode. *)
Definition stays_continuous (c c1 : controller) : Prop :=
  wake_word_mode c = false -> wake_word_mode c1 = false.

(** Pushing a run of commands, oldest first. *)
Definition push_all (max : nat) (commands history : list VoiceCommand)
    : list VoiceCommand :=
  fold_left (fun h c => history_push max c h) commands history.

End ControllerSpec.

Module ToolsSpec.
Import Tools.

Section Spec.
Variable json_loads : text -> result pyval.
Context {W : Type}.
Variable tools : gmap text (@tool_fn W).

Definition registered (name : text) : bool :=
  bool_decide (is_Some (tools !! name)).

(** The tool names of all the directives found in a text, notation by
    notation. *)
Definition matched_names (t : text) : list text :=
  flat_map (fun p =>
    omap (fun m => Re.group m 1) (re_finditer p t Re.IGNORECASE_DOTALL))
    patterns.

(** The extracted calls of one notation, each with the position of its
    match in the text. *)
Definition spanned_calls_of_pattern (t : text) (p : text)
    : list (nat * tool_call) :=
  flat_map (fun m =>
    map (fun c => (Re.mo_start m, c)) (call_of_match json_loads tools m))
    (re_finditer p t Re.IGNORECASE_DOTALL).

Definition spanned_calls (t : text) : list (nat * tool_call) :=
  flat_map (spanned_calls_of_pattern t) patterns.

(** The record [execute_tool] builds when the callable raises. *)
Definition failure_record (c : tool_call) (e : exn) (tb : text) : pyval :=
  PDict (<[ ("tool" : text) := PStr (tool c) ]>
        (<[ ("args" : text) := args c ]>
        (<[ ("error" : text) :=
              PStr (("Tool execution failed: " : text) ++ exn_msg e) ]>
        {[ ("traceback" : text) := PStr tb ]}))).

End Spec.

(** C7 read literally: whatever the text, the aggregate has the three
    fields. *)
Definition aggregate_fields_always : Prop :=
  forall (json_loads : text -> result pyval) (W : Type)
    (tools : gmap text (@tool_fn W)) (t : text) (w : W),
  exists d,
    (process_ai_response json_loads tools t w).1 = PDict d
    /\ is_Some (d !! ("tool_calls" : text))
    /\ is_Some (d !! ("has_tool_calls" : text))
    /\ is_Some (d !! ("tool_count" : text)).

(** C8 read literally: the calls come in the order of their positions in
    the text, whatever notation each was written in. *)
Definition source_order : Prop :=
  forall (json_loads : text -> result pyval) (W : Type)
    (tools : gmap text (@tool_fn W)) (t : text),
  StronglySorted le (map fst (spanned_calls json_loads tools t)).

(** *** The arguments of a directive *)

(** The argument text of a directive: the second group of its match,
    empty when the group is absent. *)
Definition argument_block (m : Re.match_obj) : text :=
  default []
    (if decide (1 < Re.mo_ngroups m) then Re.group m 2 else Some []).

(** The name and the token of a field [name=token], as [findall] reports
    the field: name, quote, token. *)
Definition field_name (f : list text) : text := nth 0 f [].
Definition field_token (f : list text) : text := nth 2 f [].

(** The token of the last field with the name [name]. *)
Fixpoint last_token (name : text) (fields : list (list text))
    : option text :=
  match fields with
  | [] => None
  | f :: rest =>
      match last_token name rest with
      | Some v => Some v
      | None =>
          if decide (field_name f = name) then Some (field_token f)
          else None
      end
  end.

(** A numeral in decimal digits, and the integer it writes. *)
Definition is_decimal (v : text) : bool :=
  match v with
  | [] => false
  | _ => forallb Text.is_ascii_digit v
  end.

Definition decimal_value (v : text) : Z :=
  fold_left (fun acc c => 10 * acc + Text.digit_value c)%Z v 0%Z.

(** C9 as amended, for one token: [true] and [false], in any case of
    their letters, are booleans; a decimal numeral is the integer it
    writes; anything else is itself. *)
Definition token_value (v : text) : pyval :=
  if bool_decide (Text.lower v = ("true" : text)) then PBool true
  else if bool_decide (Text.lower v = ("false" : text)) then PBool false
  else if is_decimal v then PInt (decimal_value v)
  else PStr v.

(** A token made of digit characters that [int] refuses: it holds a
    superscript digit, or it has more digits than [int] reads. *)
Definition refused (v : text) : Prop :=
  Text.isdigit v = true
  /\ (is_decimal v = false \/ Text.max_str_digits < length v).

(** The arguments kept for a block that could not be read. *)
Definition input_only (block : text) : pyval :=
  PDict {[ ("input" : text) := PStr block ]}.

(** C9 as amended: [a] is what the argument text [block] stands for.  No
    text stands for no arguments.  A text that starts with a brace is
    decoded whole, and kept under [input] when the decoder raises.  Any
    other text is split into fields: when [int] refuses the token of some
    field the whole text is kept under [input], and otherwise each name
    is given the value of the token of its last field. *)
Definition coerced (json_loads : text -> result pyval) (block : text)
    (a : pyval) : Prop :=
  (block = [] -> a = PDict ∅)
  /\ (Text.startswith "{" block = true ->
      a = match json_loads block with
          | Ok v => v
          | Raise _ => input_only block
          end)
  /\ (block <> [] -> Text.startswith "{" block = false ->
      let fields := re_findall arg_pattern block in
      (Exists (fun f => refused (field_token f)) fields ->
       a = input_only block)
      /\ (Forall (fun f => ~ refused (field_token f)) fields ->
          exists d,
            a = PDict d
            /\ forall name,
                 d !! name = token_value <$> last_token name fields)).

(** C9 read literally, for one token: only the tokens [true] and [false]
    as written are booleans. *)
Definition literal_value (v : text) : pyval :=
  if bool_decide (v = ("true" : text)) then PBool true
  else if bool_decide (v = ("false" : text)) then PBool false
  else if is_decimal v then PInt (decimal_value v)
  else PStr v.

(** C9 read literally: a labeled directive with the one field
    [name=token] gives the name the value read off the token. *)
Definition coercion_by_literal : Prop :=
  forall (json_loads : text -> result pyval) (W : Type)
    (tools : gmap text (@tool_fn W)) (t : text) (c : tool_call)
    (name token : text),
    In c (parse_tool_calls json_loads tools t) ->
    raw_match c
    = ("TOOL_CALL: " : text) ++ tool c ++ ("(" : text) ++ name
      ++ ("=" : text) ++ token ++ (")" : text) ->
    name <> [] -> token <> [] ->
    forallb Text.isword name = true -> forallb Text.isword token = true ->
    args c = PDict {[ name := literal_value token ]}.

End ToolsSpec.

Module GatewaySpec.
Import Gateway.

(** The descriptor a configuration file gives a server name, if any. *)
Definition defines (f : config_file) (name : text) : option descriptor :=
  match f with
  | Config (Some table) => table !! name
  | _ => None
  end.

(** C1 read literally: the descriptor kept for a name is that of the
    earliest file that defines it. *)
Definition first_writer_wins : Prop :=
  forall (files : list config_file) (i : nat) (f : config_file)
    (name : text) (d : descriptor),
    files !! i = Some f -> defines f name = Some d ->
    (forall j f', j < i -> files !! j = Some f' -> defines f' name = None) ->
    discover_mcp_servers files !! name = Some d.

(** A line is passed over when it is blank, when the decoder raises
    [JSONDecodeError] on it, or when it decodes to an object with neither
    field. *)
Definition passed_over (json_loads : text -> result pyval) (line : text)
    : Prop :=
  Text.strip line = []
  \/ (exists e, json_loads line = Raise e /\ is_decode_error e = true)
  \/ exists d, json_loads line = Ok (PDict d)
       /\ d !! ("result" : text) = None /\ d !! ("error" : text) = None.

End GatewaySpec.

(** * Concrete inputs *)

Module Samples.
Import Voice Controller.

(** A controller as the demo constructs it, with nothing registered. *)
Definition fresh_world : @world unit :=
  {| ctl := init 180 0.8 "agenticsseek" []; ext := tt; trace := [] |}.

(** Fifty-one distinct commands, told apart by their time stamps. *)
Definition numbered (n : nat) : VoiceCommand :=
  VoiceSpec.general_query (inject_Z (Z.of_nat n)) "note".

Definition fifty_one : list VoiceCommand := map numbered (seq 0 51).

(** The utterances they are parsed from, and a constructed controller
    switched to continuous mode. *)
Definition note (n : nat) : Q * text :=
  (inject_Z (Z.of_nat n), (" note " : text)).

Definition fifty_one_notes : list (Q * text) := map note (seq 0 51).

Definition continuous : @world unit := (toggle_wake_word_mode fresh_world).2.

(** A registry where every tool returns an empty dict, except
    [write_file], which raises. *)
Definition sample_impl (n : string) : @Tools.tool_fn unit :=
  fun _ w =>
    if decide (n = "write_file")
    then (Tools.Raised {| exn_type := "OSError"; exn_msg := "disk full" |}
            "Traceback", w)
    else (Tools.Returned (PDict ∅), w).

Definition sample_tools : gmap text (@Tools.tool_fn unit) :=
  Tools._register_tools sample_impl.

(** A bracketed directive followed by a labeled one. *)
Definition two_notations : text :=
  "[TOOL: read_file] TOOL_CALL: write_file()".

(** Two configuration files that both declare the server [memory]. *)
Definition user_server : Gateway.descriptor :=
  {| Gateway.command := "node"; Gateway.d_args := [("user.js" : text)];
     Gateway.env := ∅ |}.
Definition project_server : Gateway.descriptor :=
  {| Gateway.command := "node"; Gateway.d_args := [("project.js" : text)];
     Gateway.env := ∅ |}.
Definition two_files : list Gateway.config_file :=
  [ Gateway.Config (Some {[ ("memory" : text) := user_server ]});
    Gateway.NoFile;
    Gateway.Config (Some {[ ("memory" : text) := project_server ]}) ].

(** A host on which every command starts, and a server that prints a
    progress count before its response. *)
Definition sample_popen (cmd : list text) (environment : gmap text text)
    : result unit := Ok tt.
Definition noisy_stdout : text :=
  ("42" : text) ++ [Text.newline] ++ ("{" : text) ++ [Text.dquote]
  ++ ("result" : text) ++ [Text.dquote] ++ (": {}}" : text)
  ++ [Text.newline].
Definition response_line : text :=
  ("{" : text) ++ [Text.dquote] ++ ("result" : text) ++ [Text.dquote]
  ++ (": {}}" : text).
Definition noisy_server (cmd : list text) (environment : gmap text text)
    (input : text) : Gateway.proc_outcome :=
  Gateway.Exited 0 noisy_stdout [].
Definition sample_dumps (v : pyval) : result text := Ok ("{}" : text).
Definition sample_servers : gmap text Gateway.descriptor :=
  Gateway.discover_mcp_servers two_files.

(** A labeled directive with a boolean written in capitals, a numeral
    and a word; the same with a superscript two for the numeral; and the
    one-field directive of the first. *)
Definition coercion_text : text :=
  "TOOL_CALL: read_file(a=TRUE, n=42, p=x)".
Definition superscript_text : text :=
  ("TOOL_CALL: read_file(a=true, n=" : text) ++ ["178"%char]
  ++ (")" : text).
Definition shouted_text : text := "TOOL_CALL: read_file(a=TRUE)".

(** Two labeled directives; the first names the tool that raises. *)
Definition batch_text : text :=
  "TOOL_CALL: write_file(file_path=/tmp/a.txt) TOOL_CALL: read_file(n=42)".

End Samples.

(** * Further notions *)

Module ReText.
Import Re.

(** The text [u] read between two match states. *)
Definition consumed (st st1 : mstate) (u : text) : Prop :=
  m_rest st = u ++ m_rest st1 /\ m_pos st1 = m_pos st + length u.

(** [c] is written literally on every path through [r]. *)
Fixpoint needs (c : ascii) (r : regex) : bool :=
  match r with
  | RChar (CLit c') => bool_decide (c' = c)
  | RSeq r1 r2 => needs c r1 || needs c r2
  | RAlt r1 r2 => needs c r1 && needs c r2
  | RPlus _ r1 | RGroup _ r1 => needs c r1
  | _ => false
  end.

(** A character no other character equals when case is ignored. *)
Definition caseless (c : ascii) : Prop :=
  forall x, Text.lower_char c = Text.lower_char x -> x = c.

(** Where a match lies in the text scanned from position [pos]. *)
Definition located (pos : nat) (t : text) (m : match_obj) : Prop :=
  exists a b,
    t = a ++ mo_whole m ++ b
    /\ mo_start m = pos + length a
    /\ mo_end m = mo_start m + length (mo_whole m).

End ReText.

Module Catalogue.

(** [get_available_tools]: the names the executor advertises, each with
    its description. *)
Definition get_available_tools : gmap text text :=
  list_to_map
    (map (fun '(n, d) => (text_of_string n, text_of_string d))
      [ ("read_file", "Read contents of a file");
        ("write_file", "Write content to a file");
        ("list_directory", "List contents of a directory");
        ("search_files", "Search for files matching a pattern");
        ("create_directory", "Create a new directory");
        ("move_file", "Move or rename a file");
        ("copy_file", "Copy a file or directory");
        ("delete_file", "Delete a file or directory");
        ("execute_command", "Execute a shell command");
        ("execute_python_script", "Execute Python script code");
        ("get_system_info", "Get system information");
        ("check_process", "Check if a process is running");
        ("open_file", "Open file in Cursor IDE");
        ("open_directory", "Open directory in Cursor IDE");
        ("create_and_open_file", "Create new file and open in Cursor");
        ("is_cursor_running", "Check if Cursor IDE is running");
        ("get_cursor_info", "Get Cursor IDE information");
        ("connect_sqlite", "Connect to SQLite database");
        ("execute_query", "Execute SQL query");
        ("get_tables", "Get list of database tables");
        ("get_table_schema", "Get schema of a table");
        ("create_sample_table", "Create sample table with data");
        ("close_connection", "Close database connection");
        ("list_connections", "List active database connections");
        ("git_status", "Get git repository status");
        ("git_add", "Add files to git staging");
        ("git_commit", "Commit staged changes");
        ("git_push", "Push commits to remote repository");
        ("git_branch", "Git branch operations (list, create, switch)");
        ("git_log", "Get git commit history") ]%string).

(** All the names [_register_tools] goes through, family after family. *)
Definition registered_names : list string :=
  Tools.file_tools ++ Tools.shell_tools ++ Tools.cursor_tools
  ++ Tools.database_tools ++ Tools.git_tools.

(** The aggregate [process_ai_response] returns when it extracts no
    call. *)
Definition no_calls_aggregate (ai_response : text) : pyval :=
  PDict (<[ ("success" : text) := PBool true ]>
        (<[ ("message" : text) := PStr ai_response ]>
        (<[ ("tool_calls" : text) := PList [] ]>
        {[ ("has_tool_calls" : text) := PBool false ]}))).

End Catalogue.

Module VoiceMoreSpec.
Import Voice.

(** The table as one list, in the order [parse_command] goes through
    it. *)
Definition entries : list (CommandType * pattern_info) :=
  flat_map (fun '(ty, pats) => map (pair ty) pats) command_patterns.

(** The first entry of a list whose pattern is found in the text. *)
Fixpoint first_entry (t : text) (es : list (CommandType * pattern_info))
    : option (CommandType * pattern_info * Re.match_obj) :=
  match es with
  | [] => None
  | (ty, info) :: rest =>
      match re_search (p_pattern info) t Re.IGNORECASE with
      | Some m => Some (ty, info, m)
      | None => first_entry t rest
      end
  end.

End VoiceMoreSpec.

Module ControllerMoreSpec.
Import Voice Controller.

(** What [speak] does to the controller: a blank text changes nothing, any
    other is stripped and handed to the synthesizer. *)
Definition enqueue (t : text) (c : controller) : controller :=
  match Text.strip t with
  | [] => c
  | t' =>
      set_tts
        {| engine_rate := engine_rate (tts c);
           engine_volume := engine_volume (tts c);
           engine_voice := engine_voice (tts c);
           engine_voices := engine_voices (tts c);
           handed_over := handed_over (tts c) ++ [t'] |} c
  end.

(** An utterance the synthesizer can speak is not blank and carries no
    surrounding white space. *)
Definition utterance_ok (u : text) : Prop := u <> [] /\ Text.strip u = u.

(** What was handed over in [c1] is what was handed over in [c],
    followed by further utterances. *)
Definition hands_more (c c1 : controller) : Prop :=
  exists new,
    handed_over (tts c1) = handed_over (tts c) ++ new
    /\ Forall utterance_ok new.

(** Everything but the synthesizer is as it was. *)
Definition same_session (c c1 : controller) : Prop :=
  wake_word c1 = wake_word c /\ listening c1 = listening c
  /\ wake_word_mode c1 = wake_word_mode c
  /\ command_history c1 = command_history c
  /\ max_history c1 = max_history c.

Section Shapes.
Context {H : Type}.

(** The computation returns, whatever the world. *)
Definition returns {A} (m : @M H A) : Prop :=
  forall w, exists a w1, m w = (Ok a, w1).

(** The computation returns without calling out: the callbacks' state and
    the trace are as they were. *)
Definition quiet {A} (m : @M H A) : Prop :=
  forall w, exists a w1,
    m w = (Ok a, w1) /\ ext w1 = ext w /\ trace w1 = trace w.

End Shapes.

(** The announcement of [toggle_wake_word_mode] for the mode entered. *)
Definition mode_announcement (wake : bool) : text :=
  ("Switched to " : text)
  ++ (if wake then ("wake word" : text) else ("continuous" : text))
  ++ (" mode." : text).

(** [CommandType.value] *)
Definition type_value (ty : CommandType) : text :=
  match ty with
  | MCP_CONTROL => "mcp"
  | AGENT_REQUEST => "agent"
  | SYSTEM_CONTROL => "system"
  | CONVERSATION => "conversation"
  | UNKNOWN => "unknown"
  end.

(** One entry of what [get_command_history] returns: the dict with keys
    [text], [type], [action], [params], [confidence] and [timestamp]. *)
Record history_entry := {
  h_text : text;
  h_type : text;
  h_action : text;
  h_params : gmap text text;
  h_confidence : Q;
  h_timestamp : Q
}.

Definition history_view (cmd : VoiceCommand) : history_entry :=
  {| h_text := original_text cmd;
     h_type := type_value (command_type cmd);
     h_action := action cmd;
     h_params := parameters cmd;
     h_confidence := confidence cmd;
     h_timestamp := timestamp cmd |}.

(** The slice [l[start:]]: a negative [start] counts from the end, and
    either way it is clipped to the list. *)
Definition slice_from {A} (start : Z) (l : list A) : list A :=
  if (start <? 0)%Z
  then drop (Z.to_nat (Z.max 0 (Z.of_nat (length l) + start))) l
  else drop (Z.to_nat start) l.

(** [get_command_history(limit)] *)
Definition get_command_history (limit : Z) (c : controller)
    : list history_entry :=
  let recent_commands := slice_from (- limit) (command_history c) in
  map history_view recent_commands.

(** The replies that mean no handler took the command. *)
Definition not_implemented : text := "System command not implemented".
Definition chat_fallback : text :=
  "I understand you're trying to chat, but I'm not sure how to respond to that.".

End ControllerMoreSpec.

Module SessionSpec.
Import Voice Controller ControllerMoreSpec.

(** What a system command leaves alone: capture, the wake word, the
    history and its bound and the voices on offer; and it hands nothing
    to the synthesizer. *)
Definition capture_untouched (c c1 : controller) : Prop :=
  listening c1 = listening c /\ wake_word c1 = wake_word c
  /\ command_history c1 = command_history c
  /\ max_history c1 = max_history c
  /\ handed_over (tts c1) = handed_over (tts c)
  /\ engine_voices (tts c1) = engine_voices (tts c).

(** The actions [_handle_system_command] and
    [_handle_conversation_command] have a branch for. *)
Definition system_actions : list text :=
  [ ("start_listening" : text); ("stop_listening" : text);
    ("change_voice" : text); ("change_speech_rate" : text);
    ("toggle_mute" : text) ].
Definition conversation_actions : list text :=
  [ ("greeting" : text); ("thanks" : text); ("goodbye" : text);
    ("help" : text) ].

(** Whether the handler for commands of type [ty] has a branch for the
    action [a]; the other types go to the registered handler. *)
Definition action_known (ty : CommandType) (a : text) : bool :=
  match ty with
  | SYSTEM_CONTROL => bool_decide (a ∈ system_actions)
  | CONVERSATION => bool_decide (a ∈ conversation_actions)
  | _ => true
  end.

(** A controller that has recorded the commands [h]. *)
Definition with_history (h : list VoiceCommand) : controller :=
  set_command_history h (init 180 0.8 "agenticsseek" []).

End SessionSpec.

Module MoreSamples.
Import Voice Controller.

Definition mute_command : VoiceCommand :=
  {| original_text := "mute"; command_type := SYSTEM_CONTROL;
     action := "toggle_mute"; parameters := ∅;
     confidence := 0.8; timestamp := 0 |}.

Definition open_command : VoiceCommand :=
  {| original_text := "open main.py in cursor"; command_type := MCP_CONTROL;
     action := "cursor_open_file";
     parameters := {[ ("file_path" : text) := ("main.py" : text) ]};
     confidence := 0.8; timestamp := 0 |}.


(** A handler that always raises. *)
Definition failing_handler : @callback unit VoiceCommand text :=
  fun _ h =>
    (Raise {| exn_type := "RuntimeError"; exn_msg := "bridge down" |}, h).

End MoreSamples.

Module GatewaySamples.
Import Gateway.

(** A server that logs a line and a status object before its response,
    and prints an error object after it. *)
Definition status_line : text :=
  ("{" : text) ++ [Text.dquote] ++ ("status" : text) ++ [Text.dquote]
  ++ (": 1}" : text).
Definition error_line : text :=
  ("{" : text) ++ [Text.dquote] ++ ("error" : text) ++ [Text.dquote]
  ++ (": 1}" : text).
Definition chatty_stdout : text :=
  ("starting" : text) ++ [Text.newline] ++ status_line ++ [Text.newline]
  ++ Samples.response_line ++ [Text.newline] ++ error_line
  ++ [Text.newline].
Definition chatty_server (cmd : list text) (environment : gmap text text)
    (input : text) : proc_outcome :=
  Exited 0 chatty_stdout [].

(** A server that exits with status zero without a response. *)
Definition silent_stdout : text :=
  ("starting" : text) ++ [Text.newline] ++ status_line ++ [Text.newline].
Definition silent_server (cmd : list text) (environment : gmap text text)
    (input : text) : proc_outcome :=
  Exited 0 silent_stdout [].

End GatewaySamples.

(** ** The agent's handler for voice commands ([EnhancedMCPAgent])

    [_initialize_voice_system] registers [_handle_voice_command] as the
    controller's [on_command_detected] and leaves the other two callbacks
    unset.  The agent is taken as constructed by default, with [verbose]
    false.  [_execute_mcp_voice_command] calls the gateway and catches
    every exception itself, so it is a state transformer that returns a
    text; it is a parameter here. *)

Module Agent.
Import Voice Controller.

Definition get (params : gmap text text) (key : string) : text :=
  default [] (params !! (key : text)).

(** [_execute_agent_voice_command]: no step of its body raises on a
    command whose parameters are texts, so its [except] branch is left
    out. *)
Definition _execute_agent_voice_command (command : VoiceCommand) : text :=
  let act := action command in
  let params := parameters command in
  if decide (act = ("code_request" : text)) then
    let description := get params "description" in
    ("I'll help you write " : text) ++ description
    ++ (". Let me process this request." : text)
  else if decide (act = ("web_browse" : text)) then
    let url := get params "url" in
    ("I'll browse to " : text) ++ url ++ (" for you." : text)
  else if decide (act = ("web_search" : text)) then
    let query := get params "query" in
    ("Searching the web for '" : text) ++ query ++ ("'." : text)
  else if decide (act = ("translate" : text)) then
    let txt := get params "text" in
    let target := get params "target_language" in
    ("Translating '" : text) ++ take 30 txt ++ ("...' to " : text)
    ++ target ++ ("." : text)
  else
    ("Agent command '" : text) ++ act ++ ("' not implemented" : text).

Section Handler.
Context {H : Type}.
Variable _execute_mcp_voice_command : VoiceCommand -> H -> text * H.

Definition _handle_voice_command : @callback H VoiceCommand text :=
  fun command h =>
    if decide (command_type command = MCP_CONTROL) then
      let '(reply, h1) := _execute_mcp_voice_command command h in
      (Ok reply, h1)
    else if decide (command_type command = AGENT_REQUEST) then
      (Ok (_execute_agent_voice_command command), h)
    else
      (Ok (("Command received: " : text) ++ action command), h).

End Handler.

End Agent.

Module AgentSpec.
Import Voice Controller Agent.

(** The actions [_execute_agent_voice_command] has a branch for. *)
Definition agent_actions : list text :=
  [ ("code_request" : text); ("web_browse" : text); ("web_search" : text);
    ("translate" : text) ].

(** The reply kept for an action without a branch. *)
Definition agent_fallback (act : text) : text :=
  ("Agent command '" : text) ++ act ++ ("' not implemented" : text).

Definition agent_action_known (ty : CommandType) (a : text) : bool :=
  match ty with
  | AGENT_REQUEST => bool_decide (a ∈ agent_actions)
  | _ => true
  end.

(** A gateway handler that answers nothing, a controller in continuous
    mode, and the command of the utterance "Visit example.org". *)
Definition mute_gateway : VoiceCommand -> unit -> text * unit :=
  fun _ h => ([], h).

Definition continuous_world : @world unit :=
  {| ctl := set_wake_word_mode false (init 180 0.8 "agenticsseek" []);
     ext := tt; trace := [] |}.

Definition visit_command : VoiceCommand :=
  {| original_text := "visit example.org"; command_type := AGENT_REQUEST;
     action := "web_browse";
     parameters := {[ ("url" : text) := ("example.org" : text) ]};
     confidence := 0.8; timestamp := 0 |}.

End AgentSpec.

Module FurtherSpec.
Import Voice Controller.

(** The synthesizer's volume is one the engine accepts. *)
Definition volume_ok (c : controller) : Prop :=
  (0 <= engine_volume (tts c))%Q /\ (engine_volume (tts c) <= 1)%Q.

(** A computation relates a controller to one that is no worse. *)
Definition keeps_volume_ok (c c1 : controller) : Prop :=
  volume_ok c -> volume_ok c1.

(** The spoken command "mute". *)
Definition said_mute (command : VoiceCommand) : Prop :=
  action command = ("toggle_mute" : text).

End FurtherSpec.

(** * Properties *)

(** ** Text *)

Module TextFacts.
Import Text.

Lemma startswith_spec (w t : text) :
  startswith w t = true <-> exists b, t = w ++ b.
Proof.
  revert t. induction w as [|a w IH]; intros t; simpl.
  - split; [intros _; by exists t | done].
  - destruct t as [|c t].
    + split; [done | intros [b Hb]; discriminate].
    + destruct (decide (a = c)) as [->|Hne].
      * rewrite IH. split; intros [b Hb]; exists b; simpl in *; congruence.
      * split; [done | intros [b Hb]; simpl in Hb; congruence].
Qed.

Lemma contains_spec (w t : text) :
  contains w t = true <-> exists a b, t = a ++ w ++ b.
Proof.
  induction t as [|c t IH]; simpl.
  - rewrite orb_false_r, startswith_spec. split.
    + intros [b Hb]. by exists [], b.
    + intros (a & b & Hab). destruct a; simpl in Hab; [by exists b|done].
  - rewrite orb_true_iff, startswith_spec, IH. split.
    + intros [[b Hb]|(a & b & Hab)]; [by exists [], b|].
      exists (c :: a), b. by rewrite Hab.
    + intros (a & b & Hab). destruct a as [|c' a]; simpl in Hab.
      * left. by exists b.
      * right. exists a, b. congruence.
Qed.

Lemma lstrip_suffix (t : text) : exists a, t = a ++ lstrip t.
Proof.
  induction t as [|c t [a IH]]; simpl; [by exists []|].
  destruct (isspace c); [|by exists []].
  exists (c :: a). simpl. by rewrite <- IH.
Qed.

Lemma rstrip_prefix (t : text) : exists b, t = rstrip t ++ b.
Proof.
  unfold rstrip. destruct (lstrip_suffix (rev t)) as [a Ha].
  exists (rev a). rewrite <- rev_app_distr, <- Ha. by rewrite rev_involutive.
Qed.

(** The stripped text is a contiguous run of the text. *)
Lemma strip_infix (t : text) : exists a b, t = a ++ strip t ++ b.
Proof.
  unfold strip. destruct (lstrip_suffix t) as [a Ha].
  destruct (rstrip_prefix (lstrip t)) as [b Hb].
  exists a, b. by rewrite <- Hb.
Qed.

Lemma contains_infix (w s a b : text) :
  contains w s = true -> contains w (a ++ s ++ b) = true.
Proof.
  rewrite !contains_spec. intros (x & y & ->).
  exists (a ++ x), (y ++ b). by rewrite <- !app_assoc.
Qed.

Lemma contains_lower_strip (w t : text) :
  contains w (lower (strip t)) = true -> contains w (lower t) = true.
Proof.
  intros Hc. destruct (strip_infix t) as (a & b & Ht).
  rewrite Ht at 1. unfold lower in *. rewrite !map_app.
  by apply contains_infix.
Qed.

End TextFacts.

(** ** The matcher *)

Module ReFacts.
Import Re ReSpec.

Section Matcher.
Context {A : Type}.
Variable fl : flags.

Lemma or_else_Some (x y : option A) (a : A) :
  or_else x y = Some a -> x = Some a \/ y = Some a.
Proof. destruct x; simpl; intros; [left|right]; congruence. Qed.

Lemma extends_refl_nil (r : regex) (st : mstate) :
  sure_groups r = [] -> extends r st st.
Proof.
  intros Hr. unfold extends. rewrite Hr. split; [lia|]. split; [|done].
  intros n []. 
Qed.

(** Weakening: a state reached for some pattern is reached for any
    pattern that promises no group. *)
Lemma extends_weaken (r r' : regex) (st st1 : mstate) :
  sure_groups r' = [] -> extends r st st1 -> extends r' st st1.
Proof.
  intros Hr (Hp & _ & Hm). unfold extends. rewrite Hr.
  split; [done|]. split; [intros n []|done].
Qed.

Lemma extends_trans (r1 r2 : regex) (st st1 st2 : mstate) :
  extends r1 st st1 -> extends r2 st1 st2 ->
  m_pos st <= m_pos st2
  /\ (forall n, In n (sure_groups r1 ++ sure_groups r2) ->
        is_Some (m_groups st2 !! n))
  /\ (forall n, is_Some (m_groups st !! n) -> is_Some (m_groups st2 !! n)).
Proof.
  intros (Hp1 & Hs1 & Hm1) (Hp2 & Hs2 & Hm2).
  split; [lia|]. split; [|auto].
  intros n [Hn|Hn]%in_app_or; auto.
Qed.

(** The loop of a starred body ends in a state that is not to the left
    and forgets no group, whenever the body does. *)
Lemma star_loop_inv (r1 : regex) (greedy : bool)
    (k : mstate -> option A) (x : A) :
  (forall st k', rmatch fl r1 st k' = Some x ->
     exists st1, k' st1 = Some x /\ extends r1 st st1) ->
  forall n st, star_loop (rmatch fl r1) greedy k n st = Some x ->
  exists st1, k st1 = Some x /\ extends (RStar greedy r1) st st1.
Proof.
  intros IH n. induction n as [|n IHn]; intros st Hs; simpl in Hs.
  - destruct greedy; simpl in Hs.
    + exists st. split; [done|]. by apply extends_refl_nil.
    + apply or_else_Some in Hs as [Hs|Hs]; [|done].
      exists st. split; [done|]. by apply extends_refl_nil.
  - assert (Hmore :
      rmatch fl r1 st (fun st1 =>
        if decide (m_pos st < m_pos st1)
        then star_loop (rmatch fl r1) greedy k n st1 else None) = Some x ->
      exists st1, k st1 = Some x /\ extends (RStar greedy r1) st st1).
    { intros Hm. apply IH in Hm as (st1 & Hk & He).
      destruct (decide (m_pos st < m_pos st1)); [|done].
      apply IHn in Hk as (st2 & Hk2 & He2).
      exists st2. split; [done|].
      destruct (extends_trans _ _ _ _ _ He He2) as (Hp & _ & Hm).
      split; [done|]. split; [intros ? []|done]. }
    destruct greedy; apply or_else_Some in Hs as [Hs|Hs]; auto;
      exists st; (split; [done|]); by apply extends_refl_nil.
Qed.

(** Every success of the matcher is a success of its continuation, in a
    state that extends the starting one. *)
Lemma rmatch_inv (r : regex) :
  forall (st : mstate) (k : mstate -> option A) (x : A),
  rmatch fl r st k = Some x ->
  exists st1, k st1 = Some x /\ extends r st st1.
Proof.
  induction r as [| |cs|r1 IH1 r2 IH2|r1 IH1 r2 IH2|g r1 IH1|g r1 IH1
                  |g r1 IH1|n r1 IH1|n|]; intros st k x Hm; simpl in Hm.
  - exists st. split; [done|]. by apply extends_refl_nil.
  - done.
  - destruct (m_rest st) as [|c rest]; [done|].
    destruct (cs_match fl cs c); [|done].
    exists (advance 1 st). split; [done|].
    split; [simpl; lia|]. split; [intros ? []|done].
  - apply IH1 in Hm as (st1 & Hk & He1).
    apply IH2 in Hk as (st2 & Hk2 & He2).
    exists st2. split; [done|]. by eapply extends_trans.
  - apply or_else_Some in Hm as [Hm|Hm].
    + apply IH1 in Hm as (st1 & Hk & He). exists st1. split; [done|].
      by eapply extends_weaken.
    + apply IH2 in Hm as (st1 & Hk & He). exists st1. split; [done|].
      by eapply extends_weaken.
  - assert (Hin : rmatch fl r1 st k = Some x ->
              exists st1, k st1 = Some x /\ extends (ROpt g r1) st st1).
    { intros H1. apply IH1 in H1 as (st1 & Hk & He). exists st1.
      split; [done|]. by eapply extends_weaken. }
    destruct g; apply or_else_Some in Hm as [Hm|Hm]; auto;
      exists st; (split; [done|]); by apply extends_refl_nil.
  - eapply star_loop_inv; eauto.
  - apply IH1 in Hm as (st1 & Hk & He1).
    eapply star_loop_inv in Hk as (st2 & Hk2 & He2); [|eauto].
    exists st2. split; [done|].
    destruct (extends_trans _ _ _ _ _ He1 He2) as (Hp & Hs & Hmono).
    simpl in Hs. rewrite app_nil_r in Hs. by split.
  - apply IH1 in Hm as (st1 & Hk & (Hp & Hs & Hmono)).
    exists (set_group n st st1). split; [done|].
    split; [done|]. split.
    + intros i [->|Hi]; simpl.
      * rewrite lookup_insert_eq. by eexists.
      * destruct (decide (n = i)) as [->|Hne];
          [rewrite lookup_insert_eq; by eexists|].
        rewrite lookup_insert_ne by done. auto.
    + intros i Hi. simpl.
      destruct (decide (n = i)) as [->|Hne];
        [rewrite lookup_insert_eq; by eexists|].
      rewrite lookup_insert_ne by done. auto.
  - destruct (m_groups st !! n) as [g|]; [|done].
    destruct (Text.startswith g (m_rest st)); [|done].
    exists (advance (length g) st). split; [done|].
    split; [simpl; lia|]. split; [intros ? []|done].
  - exists st. split; [|by apply extends_refl_nil].
    destruct (m_rest st) as [|c [|c' rest]]; [done| |done].
    by destruct (bool_decide (c = Text.newline)).
Qed.

End Matcher.

(** A match found at a position starts there, ends no earlier and has
    every group its pattern promises. *)
Lemma match_at_inv (fl : flags) (r : regex) (pos : nat) (t : text)
    (m : match_obj) :
  match_at fl r pos t = Some m ->
  mo_start m = pos /\ pos <= mo_end m
  /\ mo_ngroups m = ngroups r
  /\ forall n, In n (sure_groups r) -> is_Some (mo_groups m !! n).
Proof.
  unfold match_at. intros Hm.
  destruct (rmatch fl r _ Some) as [st1|] eqn:Hr; [|done].
  apply rmatch_inv in Hr as (st2 & [= ->] & (Hp & Hs & _)).
  injection Hm as <-. simpl in *. auto.
Qed.

Lemma search_from_inv (fl : flags) (r : regex) (t : text) :
  forall (pos : nat) (m : match_obj),
  search_from fl r pos t = Some m ->
  pos <= mo_start m /\ mo_start m <= mo_end m
  /\ mo_ngroups m = ngroups r
  /\ forall n, In n (sure_groups r) -> is_Some (mo_groups m !! n).
Proof.
  induction t as [|c t IH]; intros pos m Hs; simpl in Hs.
  - destruct (match_at fl r pos []) eqn:Hm; [|done].
    injection Hs as ->. apply match_at_inv in Hm as (-> & ? & ? & ?).
    auto.
  - destruct (match_at fl r pos (c :: t)) eqn:Hm.
    + injection Hs as ->. apply match_at_inv in Hm as (-> & ? & ? & ?).
      auto.
    + apply IH in Hs as (? & ? & ? & ?). split; [lia|auto].
Qed.

(** The matches [finditer] yields lie at or after the starting position,
    in increasing position and without overlap. *)
Lemma finditer_from_sorted (fl : flags) (r : regex) :
  forall (fuel pos : nat) (t : text),
  Forall (fun m => pos <= mo_start m /\ mo_start m <= mo_end m)
    (finditer_from fl r fuel pos t)
  /\ StronglySorted before (finditer_from fl r fuel pos t).
Proof.
  induction fuel as [|fuel IH]; intros pos t; simpl.
  - split; constructor.
  - destruct (search_from fl r pos t) as [m|] eqn:Hs;
      [|split; constructor].
    apply search_from_inv in Hs as (Hps & Hse & _).
    set (used := mo_end m - pos).
    set (step := if decide (mo_end m = mo_start m) then S used else used).
    assert (Hstep : mo_end m <= pos + step /\ mo_start m < pos + step).
    { unfold step, used. destruct (decide (mo_end m = mo_start m)); lia. }
    destruct (decide (step <= length t)).
    + destruct (IH (pos + step) (drop step t)) as [Hall Hsorted].
      split.
      * constructor; [done|].
        eapply Forall_impl; [exact Hall|]. simpl. intros m' ?. lia.
      * constructor; [done|].
        eapply Forall_impl; [exact Hall|]. simpl.
        intros m' ?. unfold before. lia.
    + split; repeat constructor; done.
Qed.

End ReFacts.

(** ** The command interpreter *)

Module VoiceFacts.
Import Voice VoiceSpec.

Lemma first_pattern_None (t : text) (pats : list pattern_info) :
  first_pattern t pats = None <->
  forall info, In info pats -> re_search (p_pattern info) t Re.IGNORECASE = None.
Proof.
  induction pats as [|info pats IH]; simpl; [by split|].
  destruct (re_search (p_pattern info) t Re.IGNORECASE) eqn:Hs.
  - split; [done|]. intros H. specialize (H info (or_introl eq_refl)).
    congruence.
  - rewrite IH. split.
    + intros H i [<-|Hi]; auto.
    + intros H i Hi. auto.
Qed.

Lemma first_pattern_Some (t : text) (pats : list pattern_info) info m :
  first_pattern t pats = Some (info, m) ->
  In info pats /\ re_search (p_pattern info) t Re.IGNORECASE = Some m.
Proof.
  induction pats as [|i pats IH]; simpl; [done|].
  destruct (re_search (p_pattern i) t Re.IGNORECASE) eqn:Hs.
  - intros [= <- <-]. auto.
  - intros H. apply IH in H as [? ?]. auto.
Qed.

Lemma first_command_None (t : text) table :
  first_command t table = None <->
  forall ty pats info, In (ty, pats) table -> In info pats ->
    re_search (p_pattern info) t Re.IGNORECASE = None.
Proof.
  induction table as [|[ty pats] table IH]; simpl; [by split|].
  destruct (first_pattern t pats) as [[info m]|] eqn:Hf.
  - split; [done|]. intros H.
    apply first_pattern_Some in Hf as [Hin Hs].
    rewrite (H ty pats info) in Hs; auto. done.
  - rewrite IH. rewrite first_pattern_None in Hf. split.
    + intros H ty' pats' info [[= <- <-]|Hin] Hi; eauto.
    + intros H ty' pats' info Hin Hi. eauto.
Qed.

Lemma first_command_Some (t : text) table ty info m :
  first_command t table = Some (ty, info, m) ->
  exists pats, In (ty, pats) table /\ In info pats
    /\ re_search (p_pattern info) t Re.IGNORECASE = Some m.
Proof.
  induction table as [|[ty' pats] table IH]; simpl; [done|].
  destruct (first_pattern t pats) as [[info' m']|] eqn:Hf.
  - intros [= -> -> ->]. apply first_pattern_Some in Hf as [? ?].
    exists pats. auto.
  - intros H. apply IH in H as (pats' & ? & ? & ?). exists pats'. auto.
Qed.

(** The parameter loop returns when every named group is set. *)
Lemma extract_params_total (m : Re.match_obj) (ps : list (text * nat)) :
  forall acc,
  (forall name i, In (name, i) ps -> i <= Re.mo_ngroups m ->
     is_Some (Re.group m i)) ->
  exists params, extract_params m ps acc = Ok params.
Proof.
  induction ps as [|[name i] ps IH]; intros acc Hall; simpl.
  - by exists acc.
  - destruct (decide (i <= Re.mo_ngroups m)) as [Hle|Hgt].
    + destruct (Hall name i (or_introl eq_refl) Hle) as [g ->].
      apply IH. intros n j Hin. apply (Hall n). by right.
    + apply IH. intros n j Hin. apply (Hall n). by right.
Qed.

Lemma command_patterns_ok : table_ok command_patterns = true.
Proof. vm_compute. reflexivity. Qed.

(** A match of a table entry sets every group the entry's parameters
    name, so [parse_command] returns. *)
Lemma table_params_set ty pats info t m :
  In (ty, pats) command_patterns -> In info pats ->
  re_search (p_pattern info) t Re.IGNORECASE = Some m ->
  ty <> UNKNOWN
  /\ forall name i, In (name, i) (p_params info) -> is_Some (Re.group m i).
Proof.
  intros Hin Hi Hs.
  pose proof command_patterns_ok as Hok. unfold table_ok in Hok.
  rewrite forallb_forall in Hok. specialize (Hok _ Hin). simpl in Hok.
  apply andb_true_iff in Hok as [Hty Hpats].
  split.
  { intros ->. by rewrite bool_decide_eq_true_2 in Hty. }
  rewrite forallb_forall in Hpats. specialize (Hpats _ Hi).
  unfold entry_ok in Hpats. rewrite forallb_forall in Hpats.
  intros name i Hp. specialize (Hpats _ Hp). simpl in Hpats.
  apply bool_decide_eq_true_1 in Hpats.
  unfold re_search in Hs.
  apply ReFacts.search_from_inv in Hs as (_ & _ & _ & Hsure).
  destruct Hpats as [->|Hsg%list_elem_of_In]; [by eexists|].
  destruct i; [by eexists|]. simpl. auto.
Qed.

Lemma parse_command_unmatched (now : Q) (t : text) :
  first_command (normalize t) command_patterns = None ->
  parse_command now t = Ok (general_query now (normalize t)).
Proof.
  intros Hno. unfold parse_command, parse_command_with.
  fold (normalize t). by rewrite Hno.
Qed.

(** C2 (as amended).  With [t'] the input lowercased and stripped: when no
    pattern of the table matches [t'], [parse_command] returns the command
    of type [UNKNOWN], action [general_query], parameters [{query: t'}] and
    confidence 0.3; when some pattern matches [t'], it returns a command
    whose type is not [UNKNOWN] and whose confidence is 0.8, above 0.3. *)
Theorem parse_command_baselines (now : Q) (t : text) :
  (no_pattern_matches (normalize t) ->
   parse_command now t = Ok (general_query now (normalize t)))
  /\ (some_pattern_matches (normalize t) ->
      exists c, parse_command now t = Ok c
        /\ command_type c <> UNKNOWN
        /\ confidence c = 0.8%Q
        /\ (confidence (general_query now (normalize t)) < confidence c)%Q).
Proof.
  split.
  - intros Hno. apply parse_command_unmatched.
    by apply (proj2 (first_command_None _ _)).
  - unfold parse_command, parse_command_with. fold (normalize t).
    intros (ty & pats & info & Hin & Hi & Hs).
    destruct (first_command (normalize t) command_patterns)
      as [[[ty' info'] m]|] eqn:Hf.
    + apply first_command_Some in Hf as (pats' & Hin' & Hi' & Hs').
      destruct (table_params_set _ _ _ _ _ Hin' Hi' Hs') as [Hty Hset].
      destruct (extract_params_total m (p_params info') ∅) as [params ->].
      { intros name i Hp _. exact (Hset name i Hp). }
      eexists. split; [reflexivity|]. simpl. split; [done|].
      split; [done|]. reflexivity.
    + rewrite first_command_None in Hf.
      rewrite (Hf _ _ _ Hin Hi) in Hs. by destruct Hs.
Qed.

(** An input in capitals: nothing matches it, and it is matched and
    stored in lower case. *)
Lemma parse_command_baselines_witness :
  parse_command 0 "XYZ" = Ok (general_query 0 (normalize "XYZ"))
  /\ exists c, parse_command 0 "Hello there" = Ok c
       /\ command_type c <> UNKNOWN
       /\ confidence c = 0.8%Q
       /\ (confidence (general_query 0 (normalize "Hello there"))
           < confidence c)%Q.
Proof.
  split.
  - apply (parse_command_baselines 0 "XYZ").
    refine (proj1 (first_command_None _ _) _). vm_compute. reflexivity.
  - apply (parse_command_baselines 0 "Hello there").
    exists CONVERSATION, (default [] (snd <$> last command_patterns)),
      (entry "(?:hello|hi|hey)(?:\s+.+)?" "greeting" []).
    split; [vm_compute; tauto|]. split; [vm_compute; tauto|].
    vm_compute. eexists. reflexivity.
Defined.

(** C2 (as stated) fails: on the input [XYZ] no pattern matches, and the
    text stored under [query] is [xyz], not the input. *)
Lemma baselines_on_input_fails : ~ baselines_on_input.
Proof.
  intros Hclaim. destruct (Hclaim 0%Q ("XYZ" : text)) as [Hno _].
  destruct Hno as (c & Hc & _ & _ & Hp & _).
  { refine (proj1 (first_command_None _ _) _). vm_compute. reflexivity. }
  rewrite parse_command_unmatched in Hc by (vm_compute; reflexivity).
  injection Hc as <-. simpl in Hp.
  apply (f_equal (fun d => d !! ("query" : text))) in Hp.
  rewrite !lookup_singleton_eq in Hp. vm_compute in Hp. discriminate.
Qed.

End VoiceFacts.

(** ** The session controller *)

Module ControllerFacts.
Import Voice Controller ControllerSpec.

Lemma keeps_refl c : keeps c c.
Proof. by split. Qed.

Lemma keeps_trans c c1 c2 : keeps c c1 -> keeps c1 c2 -> keeps c c2.
Proof. intros [? ?] [? ?]. split; congruence. Qed.

Lemma keeps_pushes c c1 : keeps c c1 -> pushes c c1.
Proof. intros [? ?]. split; auto. Qed.

Lemma keeps_then_pushes c c1 c2 : keeps c c1 -> pushes c1 c2 -> pushes c c2.
Proof.
  intros [Hh Hm] [Hm2 Hp]. split; [congruence|].
  rewrite <- Hh, <- Hm. exact Hp.
Qed.

Lemma pushes_then_keeps c c1 c2 : pushes c c1 -> keeps c1 c2 -> pushes c c2.
Proof.
  intros [Hm Hp] [Hh2 Hm2]. split; [congruence|]. by rewrite Hh2.
Qed.

Section Frame.
Context {H : Type}.
Abbreviation M := (@M H).

Lemma respects_bind {A B} (Ra Rb Rc : controller -> controller -> Prop)
    (m : M A) (f : A -> M B) :
  respects Ra m -> (forall a, respects Rb (f a)) ->
  (forall c c1, Ra c c1 -> Rc c c1) ->
  (forall c c1 c2, Ra c c1 -> Rb c1 c2 -> Rc c c2) ->
  respects Rc (bind m f).
Proof.
  intros Hm Hf Hsub Hcomp w. unfold bind. specialize (Hm w).
  destruct (m w) as [[a|e] w1]; simpl in *; [|auto].
  eapply Hcomp; [exact Hm|]. apply Hf.
Qed.

Lemma respects_try {A} (Ra Rb Rc : controller -> controller -> Prop)
    (m : M A) (h : exn -> M A) :
  respects Ra m -> (forall e, respects Rb (h e)) ->
  (forall c c1, Ra c c1 -> Rc c c1) ->
  (forall c c1 c2, Ra c c1 -> Rb c1 c2 -> Rc c c2) ->
  respects Rc (try_except m h).
Proof.
  intros Hm Hh Hsub Hcomp w. unfold try_except. specialize (Hm w).
  destruct (m w) as [[a|e] w1]; simpl in *; [auto|].
  eapply Hcomp; [exact Hm|]. apply Hh.
Qed.

Lemma keeps_bind {A B} (m : M A) (f : A -> M B) :
  respects keeps m -> (forall a, respects keeps (f a)) ->
  respects keeps (bind m f).
Proof.
  intros. eapply respects_bind; eauto using keeps_trans.
Qed.

Lemma keeps_try {A} (m : M A) (h : exn -> M A) :
  respects keeps m -> (forall e, respects keeps (h e)) ->
  respects keeps (try_except m h).
Proof.
  intros. eapply respects_try; eauto using keeps_trans.
Qed.

Lemma keeps_ret {A} (a : A) : respects keeps (ret a : M A).
Proof. intros w. apply keeps_refl. Qed.

Lemma keeps_raise {A} (e : exn) : respects keeps (raise e : M A).
Proof. intros w. apply keeps_refl. Qed.

Lemma keeps_emit (e : event) : respects keeps (emit e : M unit).
Proof. intros w. apply keeps_refl. Qed.

Lemma keeps_get_ctl : respects keeps (get_ctl : M controller).
Proof. intros w. apply keeps_refl. Qed.

Lemma keeps_call {A B} (f : callback A B) (a : A) :
  respects keeps (call f a : M B).
Proof. intros w. unfold call. destruct (f a (ext w)). apply keeps_refl. Qed.

Lemma keeps_modify (f : controller -> controller) :
  (forall c, keeps c (f c)) -> respects keeps (modify_ctl f : M unit).
Proof. intros Hf w. apply Hf. Qed.

Lemma keeps_pure {A} (r : result A) :
  respects keeps ((fun w => (r, w)) : M A).
Proof. intros w. apply keeps_refl. Qed.

End Frame.

(** Decomposes a computation of the controller into its primitive steps,
    none of which touches the history; [known] closes the calls already
    dealt with. *)
Ltac frame_by known :=
  repeat first
    [ known
    | match goal with
      | |- respects _ (ret _) => apply keeps_ret
      | |- respects _ (raise _) => apply keeps_raise
      | |- respects _ (emit _) => apply keeps_emit
      | |- respects _ get_ctl => apply keeps_get_ctl
      | |- respects _ (call _ _) => apply keeps_call
      | |- respects _ (modify_ctl _) =>
          apply keeps_modify; intros ?; split; reflexivity
      | |- respects _ (bind _ _) => apply keeps_bind; [|intros ?]
      | |- respects _ (try_except _ _) => apply keeps_try; [|intros ?]
      | |- respects _ (if ?b then _ else _) => destruct b
      | |- respects _ (match ?x with _ => _ end) => destruct x
      end ].

Ltac frame := frame_by fail.

(** The same for any relation that is reflexive and transitive. *)

Section Rel.
Context {H : Type}.
Abbreviation M := (@M H).

Lemma rel_ret `{!PreOrder R} {A} (a : A) : respects R (ret a : M A).
Proof. intros w. reflexivity. Qed.

Lemma rel_raise `{!PreOrder R} {A} (e : exn) : respects R (raise e : M A).
Proof. intros w. reflexivity. Qed.

Lemma rel_emit `{!PreOrder R} (e : event) : respects R (emit e : M unit).
Proof. intros w. reflexivity. Qed.

Lemma rel_get_ctl `{!PreOrder R} : respects R (get_ctl : M controller).
Proof. intros w. reflexivity. Qed.

Lemma rel_pure `{!PreOrder R} {A} (r : result A) :
  respects R ((fun w => (r, w)) : M A).
Proof. intros w. reflexivity. Qed.

Lemma rel_call `{!PreOrder R} {A B} (f : callback A B) (a : A) :
  respects R (call f a : M B).
Proof. intros w. unfold call. destruct (f a (ext w)). reflexivity. Qed.

Lemma rel_modify (R : controller -> controller -> Prop)
    (f : controller -> controller) :
  (forall c, R c (f c)) -> respects R (modify_ctl f : M unit).
Proof. intros Hf w. apply Hf. Qed.

Lemma rel_bind `{!PreOrder R} {A B} (m : M A) (f : A -> M B) :
  respects R m -> (forall a, respects R (f a)) -> respects R (bind m f).
Proof.
  intros Hm Hf w. unfold bind. specialize (Hm w).
  destruct (m w) as [[a|e] w1]; simpl in *; [|done].
  etrans; [exact Hm|apply Hf].
Qed.

Lemma rel_try `{!PreOrder R} {A} (m : M A) (h : exn -> M A) :
  respects R m -> (forall e, respects R (h e)) ->
  respects R (try_except m h).
Proof.
  intros Hm Hh w. unfold try_except. specialize (Hm w).
  destruct (m w) as [[a|e] w1]; simpl in *; [done|].
  etrans; [exact Hm|apply Hh].
Qed.

End Rel.

(** Decomposes a computation of the controller into its primitive steps;
    [known] closes the state updates and the calls already dealt with. *)
Ltac rel_by known :=
  repeat first
    [ known
    | match goal with
      | |- respects _ (ret _) => apply rel_ret
      | |- respects _ (raise _) => apply rel_raise
      | |- respects _ (emit _) => apply rel_emit
      | |- respects _ get_ctl => apply rel_get_ctl
      | |- respects _ (call _ _) => apply rel_call
      | |- respects _ (bind _ _) => apply rel_bind; [|intros ?]
      | |- respects _ (try_except _ _) => apply rel_try; [|intros ?]
      | |- respects _ (if ?b then _ else _) => destruct b
      | |- respects _ (match ?x with _ => _ end) => destruct x
      end ].

Section Invariant.
Context {H : Type}.
Variable on_command_detected : option (@callback H VoiceCommand text).
Variable on_wake_word_detected : option (@callback H unit unit).
Variable on_error : option (@callback H exn unit).

Lemma tts_speak_keeps (t : text) : respects keeps (@tts_speak H t).
Proof. unfold tts_speak. frame. Qed.

Lemma tts_set_rate_keeps (r : Z) : respects keeps (@tts_set_rate H r).
Proof. unfold tts_set_rate. frame. Qed.

Lemma tts_set_volume_keeps (v : Q) : respects keeps (@tts_set_volume H v).
Proof. unfold tts_set_volume. frame. Qed.

Lemma tts_set_voice_keeps (v : text) : respects keeps (@tts_set_voice H v).
Proof. unfold tts_set_voice. frame. Qed.

Lemma tts_get_available_voices_keeps :
  respects keeps (@tts_get_available_voices H).
Proof. unfold tts_get_available_voices. frame. Qed.

Lemma _handle_system_command_keeps (command : VoiceCommand) :
  respects keeps (@_handle_system_command H command).
Proof.
  unfold _handle_system_command. cbv zeta.
  frame_by ltac:(first
    [ apply tts_set_rate_keeps | apply tts_set_volume_keeps
    | apply tts_set_voice_keeps | apply tts_get_available_voices_keeps ]).
Qed.

Lemma _execute_command_keeps (command : VoiceCommand) :
  respects keeps (_execute_command on_command_detected command).
Proof.
  unfold _execute_command, _handle_conversation_command.
  frame_by ltac:(apply _handle_system_command_keeps).
Qed.

(** What a parsed utterance does to the history: one push. *)
Lemma process_command_pushes (now : Q) (t : text) :
  respects pushes (process_command on_command_detected now t).
Proof.
  unfold process_command.
  eapply respects_bind with (Ra := keeps) (Rb := pushes);
    [apply keeps_pure| |apply keeps_pushes|apply keeps_then_pushes].
  intros command.
  eapply respects_bind with (Ra := pushes) (Rb := keeps);
    [| |auto|apply pushes_then_keeps].
  - intros w. split; [done|]. right. by exists command.
  - intros _.
    frame_by ltac:(first
      [ apply _execute_command_keeps | apply tts_speak_keeps ]).
Qed.

Lemma _process_speech_pushes (now : Q) (t : text) :
  respects pushes
    (_process_speech on_command_detected on_wake_word_detected on_error
       now t).
Proof.
  unfold _process_speech. cbv zeta.
  eapply respects_try with (Ra := pushes) (Rb := keeps);
    [| |auto|apply pushes_then_keeps].
  - destruct (Text.strip t) as [|c0 t0];
      [intros w; apply keeps_pushes, keeps_refl|].
    eapply respects_bind with (Ra := keeps) (Rb := pushes);
      [apply keeps_emit| |apply keeps_pushes|apply keeps_then_pushes].
    intros _.
    eapply respects_bind with (Ra := keeps) (Rb := pushes);
      [apply keeps_get_ctl| |apply keeps_pushes|apply keeps_then_pushes].
    intros c. destruct (wake_word_mode c);
      [|apply process_command_pushes].
    destruct (Text.contains (wake_word c) (Text.lower (c0 :: t0)));
      [|intros w; apply keeps_pushes, keeps_refl].
    eapply respects_bind with (Ra := keeps) (Rb := pushes);
      [apply tts_speak_keeps| |apply keeps_pushes|apply keeps_then_pushes].
    intros _.
    eapply respects_bind with (Ra := keeps) (Rb := pushes);
      [|intros _|apply keeps_pushes|apply keeps_then_pushes].
    + frame.
    + match goal with
      | |- respects _ (match ?x with _ => _ end) => destruct x
      end; [intros w; apply keeps_pushes, keeps_refl
           |apply process_command_pushes].
  - intros e. frame_by ltac:(apply tts_speak_keeps).
Qed.

Lemma start_listening_keeps : respects keeps (@start_listening H).
Proof.
  unfold start_listening.
  frame_by ltac:(apply tts_speak_keeps).
Qed.

Lemma stop_listening_keeps : respects keeps (@stop_listening H).
Proof.
  unfold stop_listening.
  frame_by ltac:(apply tts_speak_keeps).
Qed.

Lemma toggle_wake_word_mode_keeps :
  respects keeps (@toggle_wake_word_mode H).
Proof.
  unfold toggle_wake_word_mode.
  frame_by ltac:(apply tts_speak_keeps).
Qed.

Lemma step_pushes (w w1 : @world H) :
  step on_command_detected on_wake_word_detected on_error w w1 ->
  pushes (ctl w) (ctl w1).
Proof.
  intros [now t w0|w0|w0|w0].
  - apply _process_speech_pushes.
  - apply keeps_pushes, start_listening_keeps.
  - apply keeps_pushes, stop_listening_keeps.
  - apply keeps_pushes, toggle_wake_word_mode_keeps.
Qed.

End Invariant.

Lemma history_push_length (max : nat) (c : VoiceCommand) h :
  length h <= max -> length (history_push max c h) <= max.
Proof.
  intros Hl. unfold history_push.
  destruct (decide (max < length (h ++ [c]))) as [Hgt|Hle].
  - rewrite length_drop, length_app. simpl. lia.
  - lia.
Qed.

Lemma pushes_bounded c c1 :
  pushes c c1 ->
  length (command_history c) <= max_history c ->
  length (command_history c1) <= max_history c1.
Proof.
  intros [Hm [Hh|[cmd Hh]]] Hl; rewrite Hm, Hh; [done|].
  by apply history_push_length.
Qed.

(** A run of pushes leaves the last [max] entries of what was there and
    what came in. *)
Lemma push_all_drop (max : nat) (commands : list VoiceCommand) :
  forall h, length h <= max ->
  push_all max commands h
  = drop (length (h ++ commands) - max) (h ++ commands).
Proof.
  unfold push_all.
  induction commands as [|c commands IH]; intros h Hl; simpl.
  - rewrite app_nil_r. replace (length h - max) with 0 by lia. done.
  - rewrite IH by (by apply history_push_length).
    unfold history_push.
    destruct (decide (max < length (h ++ [c]))) as [Hgt|Hle].
    + rewrite length_app in Hgt. simpl in Hgt.
      replace ((h ++ [c]) ) with (h ++ [c]) by done.
      rewrite <- (drop_app_le (h ++ [c]) commands 1)
        by (rewrite length_app; simpl; lia).
      rewrite <- app_assoc. simpl. rewrite drop_drop.
      f_equal. rewrite length_drop, !length_app. simpl. lia.
    + rewrite <- app_assoc. simpl. done.
Qed.

Lemma reachable_bounded {H} cmd wake err (w : @world H) :
  reachable cmd wake err w ->
  max_history (ctl w) = capacity
  /\ length (command_history (ctl w)) <= capacity.
Proof.
  induction 1 as [w rate volume wake0 voices Hinit|w w1 Hr [Hmax Hlen] Hstep].
  - rewrite Hinit. simpl. unfold capacity. split; [done|lia].
  - apply step_pushes in Hstep. pose proof Hstep as [Hm _].
    split; [congruence|].
    rewrite <- Hmax, <- Hm. eapply pushes_bounded; [exact Hstep|].
    by rewrite Hmax.
Qed.

#[local] Instance stays_continuous_preorder : PreOrder stays_continuous.
Proof.
  split.
  - by intros c Hc.
  - intros c c1 c2 H1 H2 Hc. by apply H2, H1.
Qed.

Ltac continuous_by known :=
  rel_by ltac:(first
    [ known | apply rel_modify; intros ? Hmode; exact Hmode ]).

Section Recorded.
Context {H : Type}.
Variable on_command_detected : option (@callback H VoiceCommand text).
Variable on_wake_word_detected : option (@callback H unit unit).
Variable on_error : option (@callback H exn unit).

Lemma tts_speak_continuous (t : text) :
  respects stays_continuous (@tts_speak H t).
Proof. unfold tts_speak. continuous_by fail. Qed.

Lemma _handle_system_command_continuous (command : VoiceCommand) :
  action command <> ("stop_listening" : text) ->
  respects stays_continuous (@_handle_system_command H command).
Proof.
  intros Hne.
  unfold _handle_system_command, tts_get_available_voices, tts_set_voice,
    tts_set_rate, tts_set_volume.
  cbv zeta. case_decide.
  - rel_by ltac:(apply rel_modify; intros ? _; reflexivity).
  - case_decide; [done|]. continuous_by fail.
Qed.

Lemma _execute_command_continuous (command : VoiceCommand) :
  ~ stops command ->
  respects stays_continuous (_execute_command on_command_detected command).
Proof.
  intros Hns. unfold _execute_command, _handle_conversation_command.
  apply rel_try; [|intros e; continuous_by fail].
  case_decide as Hty.
  - apply _handle_system_command_continuous. intros Hact. by apply Hns.
  - continuous_by fail.
Qed.

(** What is done with a parsed command after it is pushed. *)
Lemma after_push_settled (command : VoiceCommand) :
  ~ stops command ->
  let rest : @M H unit :=
    bind (_execute_command on_command_detected command) (fun response =>
      match response with
      | [] => ret tt
      | _ => bind (tts_speak response) (fun _ => ret tt)
      end) in
  respects keeps rest /\ respects stays_continuous rest.
Proof.
  intros Hns rest. unfold rest. split.
  - frame_by ltac:(first
      [ apply _execute_command_keeps | apply tts_speak_keeps ]).
  - continuous_by ltac:(first
      [ apply _execute_command_continuous; exact Hns
      | apply tts_speak_continuous ]).
Qed.

(** The part of [_process_speech] after the gate records the command the
    text parses as: it is pushed on the history, and nothing after the
    push touches the history. *)
Lemma process_command_records (now : Q) (t : text) (c : VoiceCommand)
    (w : @world H) :
  parse_command now t = Ok c -> ~ stops c ->
  let c1 := ctl (process_command on_command_detected now t w).2 in
  command_history c1
  = history_push (max_history (ctl w)) c (command_history (ctl w))
  /\ max_history c1 = max_history (ctl w)
  /\ stays_continuous (ctl w) c1.
Proof.
  intros Hp Hns. unfold process_command. unfold bind at 1. rewrite Hp.
  unfold bind at 1. unfold modify_ctl at 1. cbv beta iota zeta.
  destruct (after_push_settled c Hns) as [Hk Hc].
  match goal with |- context [ctl (?m ?w0).2] =>
    destruct (Hk w0) as [Hh Hm]; pose proof (Hc w0) as Hmode
  end.
  split; [exact Hh|]. split; [exact Hm|exact Hmode].
Qed.

(** In continuous mode a non-blank utterance is recorded. *)
Lemma _process_speech_records (u : Q * text) (c : VoiceCommand)
    (w : @world H) :
  wake_word_mode (ctl w) = false -> heard_as u c ->
  let c1 := ctl (_process_speech on_command_detected on_wake_word_detected
                   on_error u.1 u.2 w).2 in
  command_history c1
  = history_push (max_history (ctl w)) c (command_history (ctl w))
  /\ max_history c1 = max_history (ctl w)
  /\ wake_word_mode c1 = false.
Proof.
  intros Hmode (Hne & Hp & Hns). destruct u as [now t]. simpl in *.
  remember (_process_speech on_command_detected on_wake_word_detected
              on_error now t w).2 as w1 eqn:Hw1.
  unfold _process_speech in Hw1. cbv zeta in Hw1.
  destruct (Text.strip t) as [|a l] eqn:Hs; [exfalso; by apply Hne|].
  set (handler := fun e : exn => _) in Hw1.
  assert (Hhk : forall e, respects keeps (handler e)).
  { intros e. unfold handler. frame_by ltac:(apply tts_speak_keeps). }
  assert (Hhc : forall e, respects stays_continuous (handler e)).
  { intros e. unfold handler.
    continuous_by ltac:(apply tts_speak_continuous). }
  unfold try_except in Hw1. unfold bind at 1 in Hw1.
  unfold emit at 1 in Hw1. unfold bind at 1 in Hw1.
  unfold get_ctl at 1 in Hw1. cbv beta iota in Hw1. cbn [ctl] in Hw1.
  rewrite Hmode in Hw1.
  match type of Hw1 with context [process_command _ now (a :: l) ?w0] =>
    destruct (process_command_records now (a :: l) c w0 Hp Hns)
      as (Hh & Hm & Hc);
    destruct (process_command on_command_detected now (a :: l) w0)
      as [[[]|e] w2]
  end; simpl in Hh, Hm, Hc, Hw1; subst w1.
  - split; [done|]. split; [done|]. by apply Hc.
  - destruct (Hhk e w2) as [Hh2 Hm2]. pose proof (Hhc e w2) as Hc2.
    split; [congruence|]. split; [congruence|].
    apply Hc2. by apply Hc.
Qed.

(** A run of utterances in continuous mode pushes the commands they are
    taken for, oldest first. *)
Lemma hear_all_records (utterances : list (Q * text))
    (commands : list VoiceCommand) :
  Forall2 heard_as utterances commands ->
  forall w : @world H,
    wake_word_mode (ctl w) = false ->
    let c1 := ctl (hear_all on_command_detected on_wake_word_detected
                     on_error utterances w) in
    command_history c1
    = push_all (max_history (ctl w)) commands (command_history (ctl w))
    /\ max_history c1 = max_history (ctl w)
    /\ wake_word_mode c1 = false.
Proof.
  induction 1 as [|u c us cs Hu _ IH]; intros w Hmode; [done|].
  destruct (_process_speech_records u c w Hmode Hu) as (Hh & Hm & Hc).
  unfold hear_all, push_all in *. simpl.
  destruct (IH _ Hc) as (Hh1 & Hm1 & Hc1).
  rewrite Hh1, Hm1, Hh, Hm. done.
Qed.

End Recorded.

(** C4.  In every state a constructed controller can reach, the history
    holds at most 50 commands, and an utterance pushes at most one
    command.  In continuous mode a non-blank utterance is recorded: the
    command its stripped text parses as is appended to the history, and
    the oldest entry is dropped when that makes 51.  So after 51 such
    utterances the history is the last 50 of their commands, in order:
    the one recorded first is gone (it occurs nowhere in the history when
    the 51 are distinct) and the one recorded last is the newest entry.
    (The spoken command "stop listening" is left out of the run: it puts
    the controller back in wake-word mode.) *)
Theorem history_bounded_fifo {H} cmd wake err (w : @world H) :
  reachable cmd wake err w ->
  (max_history (ctl w) = capacity
   /\ length (command_history (ctl w)) <= capacity
   /\ forall now t,
        pushes (ctl w) (ctl (_process_speech cmd wake err now t w).2))
  /\ (wake_word_mode (ctl w) = false ->
      (forall u c,
         heard_as u c ->
         command_history (ctl (_process_speech cmd wake err u.1 u.2 w).2)
         = history_push capacity c (command_history (ctl w)))
      /\ forall (utterances : list (Q * text)) (commands : list VoiceCommand),
           Forall2 heard_as utterances commands ->
           length commands = S capacity ->
           let history :=
             command_history (ctl (hear_all cmd wake err utterances w)) in
           history = drop 1 commands
           /\ length history = capacity
           /\ last history = last commands
           /\ (NoDup commands ->
               forall c, head commands = Some c -> ~ In c history)).
Proof.
  intros Hr.
  destruct (reachable_bounded _ _ _ _ Hr) as [Hmax Hbound].
  split.
  { split; [done|]. split; [done|].
    intros now t. apply _process_speech_pushes. }
  intros Hmode. split.
  { intros u c Hu. rewrite <- Hmax.
    by destruct (_process_speech_records cmd wake err u c w Hmode Hu). }
  intros utterances commands Hheard Hlen history.
  assert (Hh : history = drop 1 commands).
  { unfold history.
    destruct (hear_all_records cmd wake err _ _ Hheard w Hmode) as [-> _].
    rewrite Hmax, push_all_drop by done.
    rewrite drop_app_ge by (rewrite length_app; lia).
    f_equal. rewrite length_app. lia. }
  split; [done|]. rewrite Hh.
  destruct commands as [|c0 [|c1 rest]]; [discriminate..|].
  simpl in Hlen. unfold capacity in *. simpl.
  split; [lia|]. split; [done|].
  intros Hnd c [= <-].
  apply NoDup_cons_1_1 in Hnd. intros Hin. apply Hnd.
  by apply list_elem_of_In.
Qed.

Lemma note_heard (n : nat) : heard_as (Samples.note n) (Samples.numbered n).
Proof.
  split; [vm_compute; discriminate|]. split.
  - unfold parse_command, parse_command_with, Samples.note. simpl snd.
    replace (first_command _ command_patterns) with
      (@None (CommandType * pattern_info * Re.match_obj))
      by (vm_compute; reflexivity).
    reflexivity.
  - intros [Hty _]. discriminate Hty.
Qed.

Lemma numbered_distinct : NoDup Samples.fifty_one.
Proof.
  unfold Samples.fifty_one. apply NoDup_fmap_2_strong; [|apply NoDup_seq].
  intros n m _ _ Heq. unfold Samples.numbered, VoiceSpec.general_query in Heq.
  injection Heq as Heq. lia.
Qed.

Lemma history_bounded_fifo_witness :
  let w := Samples.continuous in
  let history :=
    command_history (ctl (hear_all None None None Samples.fifty_one_notes w))
  in
  length (command_history (ctl w)) <= capacity
  /\ history = drop 1 Samples.fifty_one
  /\ length history = capacity
  /\ last history = last Samples.fifty_one
  /\ ~ In (Samples.numbered 0) history.
Proof.
  assert (Hr : reachable None None None Samples.continuous).
  { eapply reach_step; [|apply step_toggle]. by eapply reach_init. }
  destruct (history_bounded_fifo None None None Samples.continuous Hr)
    as [(_ & Hbound & _) Hrun].
  destruct (Hrun eq_refl) as [_ Hall].
  assert (Hheard : Forall2 heard_as Samples.fifty_one_notes Samples.fifty_one).
  { unfold Samples.fifty_one_notes, Samples.fifty_one.
    induction (seq 0 51) as [|n l IH]; simpl; constructor;
      [apply note_heard|exact IH]. }
  destruct (Hall _ _ Hheard eq_refl) as (Hd & Hl & Hlast & Hgone).
  split; [exact Hbound|]. split; [exact Hd|]. split; [exact Hl|].
  split; [exact Hlast|].
  apply Hgone; [apply numbered_distinct|reflexivity].
Defined.

(** C3.  In wake-word mode, an utterance whose lowercased text does not
    contain the wake word is dropped: the call returns with the controller
    and the callbacks' state as they were, no command pushed, and nothing
    traced but log lines (no dispatch, no speech). *)
Theorem wake_word_gate {H} cmd wake err (now : Q) (t : text) (w : @world H) :
  wake_word_mode (ctl w) = true ->
  Text.contains (wake_word (ctl w)) (Text.lower t) = false ->
  exists new,
    _process_speech cmd wake err now t w
    = (Ok tt, {| ctl := ctl w; ext := ext w; trace := trace w ++ new |})
    /\ Forall is_log new.
Proof.
  intros Hmode Hno.
  assert (Hstrip :
    Text.contains (wake_word (ctl w)) (Text.lower (Text.strip t)) = false).
  { destruct (Text.contains _ (Text.lower (Text.strip t))) eqn:Hc; [|done].
    apply TextFacts.contains_lower_strip in Hc. congruence. }
  unfold _process_speech, try_except. cbv zeta.
  destruct (Text.strip t) as [|c0 t0] eqn:Hs.
  - exists []. split; [|constructor].
    unfold ret. destruct w; simpl. by rewrite app_nil_r.
  - eexists [_]. unfold bind, emit, get_ctl, ret. simpl.
    rewrite Hmode. simpl in Hstrip. rewrite Hstrip. simpl.
    split; [reflexivity|]. repeat constructor.
Qed.

Lemma wake_word_gate_witness :
  exists new,
    _process_speech None None None 0 "open main.py in cursor"
      Samples.fresh_world
    = (Ok tt, {| ctl := ctl Samples.fresh_world;
                 ext := ext Samples.fresh_world;
                 trace := trace Samples.fresh_world ++ new |})
    /\ Forall is_log new.
Proof.
  apply (wake_word_gate None None None 0 "open main.py in cursor"
           Samples.fresh_world); reflexivity.
Defined.

End ControllerFacts.

(** ** The tool executor *)

Module ToolsFacts.
Import Tools ToolsSpec.

Section Facts.
Variable json_loads : text -> result pyval.
Context {W : Type}.
Variable tools : gmap text (@tool_fn W).

Abbreviation call_of_match := (call_of_match json_loads tools).
Abbreviation parse_tool_calls := (parse_tool_calls json_loads tools).
Abbreviation execute_tool := (execute_tool tools).
Abbreviation execute_all := (execute_all tools).

(** One match gives one call when its name is registered, none
    otherwise. *)
Lemma call_of_match_names (m : Re.match_obj) :
  map tool (call_of_match m)
  = filter (fun n => registered tools n = true)
      (option_list (Re.group m 1)).
Proof.
  unfold Tools.call_of_match, registered.
  destruct (Re.group m 1) as [name|]; simpl; [|done].
  rewrite filter_cons, filter_nil.
  destruct (decide (is_Some (tools !! name))) as [Hs|Hn].
  - destruct (decide (bool_decide (is_Some (tools !! name)) = true))
      as [Hb|Hb]; [done|].
    by rewrite bool_decide_eq_true_2 in Hb.
  - destruct (decide (bool_decide (is_Some (tools !! name)) = true))
      as [Hb|Hb]; [|done].
    by apply bool_decide_eq_true_1 in Hb.
Qed.

Lemma call_of_match_registered (m : Re.match_obj) (c : tool_call) :
  In c (call_of_match m) -> is_Some (tools !! tool c).
Proof.
  unfold Tools.call_of_match.
  destruct (Re.group m 1) as [name|]; [|done].
  destruct (decide (is_Some (tools !! name))); [|done].
  intros [<-|[]]. done.
Qed.

Lemma parse_tool_calls_registered (t : text) (c : tool_call) :
  In c (parse_tool_calls t) -> is_Some (tools !! tool c).
Proof.
  unfold Tools.parse_tool_calls, calls_of_pattern.
  intros (p & _ & Hc)%in_flat_map.
  apply in_flat_map in Hc as (m & _ & Hc).
  by eapply call_of_match_registered.
Qed.

Lemma map_flat_map {A B C} (f : B -> C) (g : A -> list B) (l : list A) :
  map f (flat_map g l) = flat_map (fun a => map f (g a)) l.
Proof.
  induction l as [|a l IH]; simpl; [done|]. by rewrite map_app, IH.
Qed.

Lemma filter_flat_map {A B} (P : B -> Prop) `{!forall x, Decision (P x)}
    (g : A -> list B) (l : list A) :
  filter P (flat_map g l) = flat_map (fun a => filter P (g a)) l.
Proof.
  induction l as [|a l IH]; simpl; [done|]. by rewrite filter_app, IH.
Qed.

Lemma flat_map_option_list {A B} (f : A -> option B) (l : list A) :
  flat_map (fun a => option_list (f a)) l = omap f l.
Proof.
  induction l as [|a l IH]; simpl; [done|].
  rewrite IH. by destruct (f a).
Qed.

Lemma parse_tool_calls_names (t : text) :
  map tool (parse_tool_calls t)
  = filter (fun n => registered tools n = true) (matched_names t).
Proof.
  unfold Tools.parse_tool_calls, matched_names, calls_of_pattern.
  rewrite map_flat_map, filter_flat_map. apply flat_map_ext. intros p.
  rewrite map_flat_map, <- flat_map_option_list, filter_flat_map.
  apply flat_map_ext. intros m. apply call_of_match_names.
Qed.

(** C10.  Every call [parse_tool_calls] returns names a key of the
    registry, and the names of the returned calls are the names of the
    directives found in the text with the unregistered ones removed: a
    directive naming an unregistered tool yields no call. *)
Theorem extracted_calls_registered (t : text) :
  Forall (fun c => is_Some (tools !! tool c)) (parse_tool_calls t)
  /\ map tool (parse_tool_calls t)
     = filter (fun n => registered tools n = true) (matched_names t).
Proof.
  split; [|apply parse_tool_calls_names].
  apply List.Forall_forall. intros c. apply parse_tool_calls_registered.
Qed.

(** *** Dispatch *)

Lemma execute_all_length (calls : list tool_call) :
  forall w, length (execute_all calls w).1 = length calls.
Proof.
  induction calls as [|c calls IH]; intros w; simpl; [done|].
  destruct (execute_tool (tool c) (args c) w) as [r w1].
  specialize (IH w1). destruct (execute_all calls w1) as [rs w2].
  simpl in *. by rewrite IH.
Qed.

(** The record at each place is that of the call at that place, run in
    the state the calls before it left. *)
Lemma execute_all_lookup (calls : list tool_call) :
  forall (i : nat) (c : tool_call) (w : W),
  calls !! i = Some c ->
  (execute_all calls w).1 !! i
  = Some (execute_tool (tool c) (args c)
            (execute_all (take i calls) w).2).1.
Proof.
  induction calls as [|c0 calls IH]; intros i c w Hi; [done|].
  destruct i as [|i]; simpl in *.
  - injection Hi as ->.
    destruct (execute_tool (tool c) (args c) w) as [r w1].
    by destruct (execute_all calls w1).
  - destruct (execute_tool (tool c0) (args c0) w) as [r w1].
    specialize (IH i c w1 Hi).
    destruct (execute_all calls w1) as [rs w2].
    destruct (execute_all (take i calls) w1) as [rs' w2'].
    simpl in *. done.
Qed.

Lemma execute_tool_raised (c : tool_call) (f : tool_fn) (w w1 : W) e tb :
  tools !! tool c = Some f ->
  f (args c) w = (Raised e tb, w1) ->
  execute_tool (tool c) (args c) w = (failure_record c e tb, w1).
Proof.
  intros Hf Hr. unfold Tools.execute_tool.
  destruct (tools !! tool c) as [g|]; [|done].
  injection Hf as ->. by rewrite Hr.
Qed.

(** C7 (as amended).  [process_ai_response] returns a dict with the field
    [tool_calls], one record per extracted call in order, and the field
    [has_tool_calls], true exactly when a call was extracted; the field
    [tool_count] is there, and is the number of calls, exactly when a call
    was extracted.  Each call is run, in the state the calls before it
    left, whether or not those raised; the record of a call whose
    callable raises carries the tool name, the arguments, the message and
    the traceback. *)
Theorem process_ai_response_aggregate (t : text) (w : W) :
  let calls := parse_tool_calls t in
  exists d records w1,
    process_ai_response json_loads tools t w = (PDict d, w1)
    /\ execute_all calls w = (records, w1)
    /\ d !! ("tool_calls" : text) = Some (PList records)
    /\ d !! ("has_tool_calls" : text)
       = Some (PBool (negb (bool_decide (calls = []))))
    /\ d !! ("tool_count" : text)
       = (if decide (calls = []) then None
          else Some (PInt (Z.of_nat (length calls))))
    /\ length records = length calls
    /\ forall i c, calls !! i = Some c ->
       let w_i := (execute_all (take i calls) w).2 in
       exists f, tools !! tool c = Some f
         /\ records !! i = Some (execute_tool (tool c) (args c) w_i).1
         /\ forall e tb w', f (args c) w_i = (Raised e tb, w') ->
            records !! i = Some (failure_record c e tb).
Proof.
  intros calls. unfold Tools.process_ai_response. fold calls.
  pose proof (execute_all_length calls w) as Hlen.
  pose proof (fun i c => execute_all_lookup calls i c w) as Hlook.
  assert (Hreg : forall i c, calls !! i = Some c -> is_Some (tools !! tool c)).
  { intros i c Hi. apply (parse_tool_calls_registered t).
    apply list_elem_of_In. by eapply list_elem_of_lookup_2. }
  destruct calls as [|c0 calls'] eqn:Hcalls.
  - eexists _, [], w. repeat split; try reflexivity. intros i c Hi. done.
  - rewrite <- Hcalls in *.
    destruct (execute_all calls w) as [records w1] eqn:Hex.
    simpl in Hlen, Hlook.
    eexists _, records, w1. split; [reflexivity|]. split; [done|].
    split; [reflexivity|]. split.
    { rewrite Hcalls. reflexivity. }
    split.
    { destruct (decide (calls = [])) as [He|_]; [congruence|].
      rewrite <- Hlen. reflexivity. }
    split; [done|].
    intros i c Hi. destruct (Hreg i c Hi) as [f Hf].
    exists f. split; [done|]. split; [by apply Hlook|].
    intros e tb w' Hr. rewrite (Hlook i c Hi).
    by rewrite (execute_tool_raised c f _ w' e tb).
Qed.

(** *** Order of the extracted calls *)

Lemma spanned_calls_snd (t : text) :
  map snd (spanned_calls json_loads tools t) = parse_tool_calls t.
Proof.
  unfold spanned_calls, Tools.parse_tool_calls, spanned_calls_of_pattern,
    calls_of_pattern.
  rewrite map_flat_map. apply flat_map_ext. intros p.
  rewrite map_flat_map. apply flat_map_ext. intros m.
  rewrite map_map. simpl. apply map_id.
Qed.

Lemma call_of_match_cases (m : Re.match_obj) :
  call_of_match m = [] \/ exists c, call_of_match m = [c].
Proof.
  unfold Tools.call_of_match.
  destruct (Re.group m 1) as [name|]; [|by left].
  destruct (decide (is_Some (tools !! name))); [right|by left].
  by eexists.
Qed.

(** The positions of the calls drawn from a run of successive matches
    increase. *)
Lemma spanned_sorted (ms : list Re.match_obj) :
  StronglySorted ReSpec.before ms ->
  let spanned :=
    flat_map (fun m =>
      map (fun c => (Re.mo_start m, c)) (call_of_match m)) ms in
  StronglySorted lt (map fst spanned)
  /\ Forall (fun s => exists m, In m ms /\ s.1 = Re.mo_start m) spanned.
Proof.
  induction 1 as [|m ms Hs [IH1 IH2] Hall]; simpl; [split; constructor|].
  assert (Hrest : Forall (fun s : nat * tool_call =>
            exists m', In m' (m :: ms) /\ s.1 = Re.mo_start m')
            (flat_map (fun m0 =>
               map (fun c => (Re.mo_start m0, c)) (call_of_match m0)) ms)).
  { eapply Forall_impl; [exact IH2|]. simpl.
    intros s (m' & Hin & Hm'). exists m'. auto. }
  destruct (call_of_match_cases m) as [->|[c ->]]; simpl; [by split|].
  split.
  - constructor; [done|]. apply Forall_map.
    eapply Forall_impl; [exact IH2|]. simpl.
    intros s (m' & Hin & ->).
    rewrite List.Forall_forall in Hall. by apply Hall.
  - constructor; [|done]. exists m. auto.
Qed.

(** C8 (as amended).  The calls come notation by notation, in the order of
    the source's pattern list: all those in the labeled function-call
    form, then the bracketed ones, then the "use tool" ones.  Within one
    notation they come by increasing position of their match.  No call is
    removed as a duplicate: there are as many as there are directives
    naming a registered tool. *)
Theorem calls_grouped_by_notation (t : text) (p1 p2 p3 : text) :
  patterns = [p1; p2; p3] ->
  map snd (spanned_calls json_loads tools t) = parse_tool_calls t
  /\ parse_tool_calls t
     = calls_of_pattern json_loads tools t p1
       ++ calls_of_pattern json_loads tools t p2
       ++ calls_of_pattern json_loads tools t p3
  /\ spanned_calls json_loads tools t
     = spanned_calls_of_pattern json_loads tools t p1
       ++ spanned_calls_of_pattern json_loads tools t p2
       ++ spanned_calls_of_pattern json_loads tools t p3
  /\ Forall (fun p =>
       StronglySorted lt
         (map fst (spanned_calls_of_pattern json_loads tools t p)))
       [p1; p2; p3]
  /\ length (parse_tool_calls t)
     = length (filter (fun n => registered tools n = true)
                 (matched_names t)).
Proof.
  intros Hp. split; [apply spanned_calls_snd|].
  unfold Tools.parse_tool_calls, spanned_calls. rewrite Hp. simpl.
  rewrite !app_nil_r. split; [done|]. split; [done|]. split.
  - apply List.Forall_forall. intros p _.
    unfold spanned_calls_of_pattern, re_finditer.
    apply spanned_sorted. apply ReFacts.finditer_from_sorted.
  - pose proof (parse_tool_calls_names t) as Hn.
    apply (f_equal (@length text)) in Hn. rewrite length_map in Hn.
    unfold Tools.parse_tool_calls in Hn. rewrite Hp in Hn. simpl in Hn.
    by rewrite !app_nil_r in Hn.
Qed.

(** *** Argument coercion *)

Lemma isdigit_lower_char (c : ascii) :
  Text.isdigit_char c = true -> Text.lower_char c = c.
Proof. destruct c as [[] [] [] [] [] [] [] []]; vm_compute; congruence. Qed.

Lemma isdigit_lower (v : text) :
  forallb Text.isdigit_char v = true -> Text.lower v = v.
Proof.
  induction v as [|c v IH]; simpl; [done|].
  intros [Hc Hv]%andb_true_iff. by rewrite (isdigit_lower_char c Hc), IH.
Qed.

Lemma digit_isdigit (c : ascii) :
  Text.is_ascii_digit c = true -> Text.isdigit_char c = true.
Proof. unfold Text.isdigit_char. by intros ->. Qed.

Lemma decimal_isdigit (v : text) :
  is_decimal v = true -> Text.isdigit v = true.
Proof.
  unfold is_decimal, Text.isdigit. destruct v as [|c v]; [done|].
  generalize (c :: v). intros l. induction l as [|x l IH]; simpl; [done|].
  intros [Hx Hl]%andb_true_iff. by rewrite (digit_isdigit x Hx), IH.
Qed.

(** A run of digit characters is neither [true] nor [false]. *)
Lemma isdigit_not_boolean (v : text) :
  Text.isdigit v = true ->
  bool_decide (Text.lower v = ("true" : text)) = false
  /\ bool_decide (Text.lower v = ("false" : text)) = false.
Proof.
  intros Hd. unfold Text.isdigit in Hd. destruct v as [|c v]; [done|].
  rewrite (isdigit_lower _ Hd).
  split; apply bool_decide_eq_false_2; intros Heq; rewrite Heq in Hd;
    vm_compute in Hd; discriminate.
Qed.

Lemma int_of_digits_decimal (v : text) :
  is_decimal v = true -> length v <= Text.max_str_digits ->
  Text.int_of_digits v = Some (decimal_value v).
Proof.
  unfold is_decimal, Text.int_of_digits, decimal_value.
  destruct v as [|c v]; [done|]. intros -> Hl.
  by rewrite (proj2 (Nat.leb_le _ _) Hl).
Qed.

Lemma int_of_digits_refused (v : text) :
  is_decimal v = false \/ Text.max_str_digits < length v ->
  Text.int_of_digits v = None.
Proof.
  unfold is_decimal, Text.int_of_digits.
  destruct v as [|c v]; [done|]. intros [->|Hl]; [done|].
  rewrite (proj2 (Nat.leb_gt _ _) Hl). by rewrite andb_false_r.
Qed.

(** Token by token, the code gives the amended value, or raises on a
    token [int] refuses. *)
Lemma coerce_arg_value (v : text) :
  ~ refused v -> coerce_arg v = Ok (token_value v).
Proof.
  intros Hnot. unfold coerce_arg, token_value.
  destruct (bool_decide (Text.lower v = ("true" : text))) eqn:Ht; [done|].
  destruct (bool_decide (Text.lower v = ("false" : text))) eqn:Hf; [done|].
  simpl. destruct (Text.isdigit v) eqn:Hd.
  - destruct (is_decimal v) eqn:Hdec.
    + rewrite int_of_digits_decimal; [done|done|].
      destruct (le_lt_dec (length v) Text.max_str_digits) as [|Hgt]; [done|].
      exfalso. apply Hnot. split; [done|by right].
    + exfalso. apply Hnot. split; [done|by left].
  - destruct (is_decimal v) eqn:Hdec; [|done].
    apply decimal_isdigit in Hdec. congruence.
Qed.

Lemma coerce_arg_refused (v : text) :
  refused v -> exists e, coerce_arg v = Raise e.
Proof.
  intros [Hd Hr]. unfold coerce_arg.
  destruct (isdigit_not_boolean v Hd) as [-> ->]. simpl. rewrite Hd.
  rewrite (int_of_digits_refused v Hr). by eexists.
Qed.

(** The loop over the fields is all or nothing: it raises when [int]
    refuses a token, and otherwise the last field of a name decides. *)
Lemma coerce_args_fields (fields : list (list text)) :
  Forall (fun f => length f = 3) fields ->
  forall acc : gmap text pyval,
    (Exists (fun f => refused (field_token f)) fields ->
     exists e, coerce_args fields acc = Raise e)
    /\ (Forall (fun f => ~ refused (field_token f)) fields ->
        exists d,
          coerce_args fields acc = Ok d
          /\ forall name,
               d !! name
               = match last_token name fields with
                 | Some v => Some (token_value v)
                 | None => acc !! name
                 end).
Proof.
  induction 1 as [|f fields Hf _ IH]; intros acc.
  - split; [by intros ?%Exists_nil|]. intros _. by exists acc.
  - destruct f as [|n [|q [|v [|]]]]; try done. simpl coerce_args. split.
    + intros [Hr|Hr]%Exists_cons.
      * destruct (coerce_arg_refused v Hr) as [e ->]. by eexists.
      * destruct (coerce_arg v); [by apply IH|by eexists].
    + intros [Hv Hrest]%Forall_cons. rewrite (coerce_arg_value v Hv).
      destruct (proj2 (IH (<[n := token_value v]> acc)) Hrest)
        as (d & -> & Hd).
      exists d. split; [done|]. intros name. rewrite Hd.
      simpl last_token. destruct (last_token name fields); [done|].
      unfold field_name, field_token. simpl.
      destruct (decide (n = name)) as [->|Hne];
        [by rewrite lookup_insert_eq|by rewrite lookup_insert_ne].
Qed.

Lemma finditer_from_ngroups (fl : Re.flags) (r : Re.regex) :
  forall (fuel pos : nat) (t : text),
    Forall (fun m => Re.mo_ngroups m = Re.ngroups r)
      (Re.finditer_from fl r fuel pos t).
Proof.
  induction fuel as [|fuel IH]; intros pos t; simpl; [constructor|].
  destruct (Re.search_from fl r pos t) as [m|] eqn:Hs; [|constructor].
  apply ReFacts.search_from_inv in Hs as (_ & _ & Hn & _).
  constructor; [done|]. destruct (decide _); [apply IH|constructor].
Qed.

(** [findall] reports every field as name, quote and token. *)
Lemma fields_shape (block : text) :
  Forall (fun f => length f = 3) (re_findall arg_pattern block).
Proof.
  unfold re_findall, re_finditer. apply Forall_map.
  eapply Forall_impl; [apply finditer_from_ngroups|].
  intros m Hm. simpl. unfold Re.groups_or_empty.
  rewrite length_map, length_seq, Hm. by vm_compute.
Qed.

Lemma parse_args_default (args_str : option text) :
  parse_args json_loads args_str
  = parse_args json_loads (Some (default [] args_str)).
Proof. by destruct args_str. Qed.

Lemma parse_args_coerced (block : text) :
  coerced json_loads block (parse_args json_loads (Some block)).
Proof.
  unfold coerced, parse_args. destruct block as [|c block].
  - split; [done|]. split; [done|]. by intros Hne.
  - split; [done|]. split.
    + by intros ->.
    + intros _ ->. cbv zeta.
      destruct (coerce_args_fields _ (fields_shape (c :: block)) ∅)
        as [Hbad Hgood].
      split.
      * intros Hex. by destruct (Hbad Hex) as [e ->].
      * intros Hall. destruct (Hgood Hall) as (d & -> & Hd).
        exists d. split; [done|]. intros name. rewrite Hd.
        destruct (last_token name _); [done|]. by rewrite lookup_empty.
Qed.

End Facts.

(** C9 (as amended).  Every extracted call stems from a match of one of
    the notations, names the tool of the match, and has for arguments
    what the argument text of the match stands for: nothing for no text;
    for a text that starts with a brace what the JSON decoder makes of it
    whole, or the text under [input] when the decoder raises; for any
    other text its fields, each name with the value of the token of its
    last field, where [true] and [false] in any case of their letters are
    booleans, a decimal numeral is the integer it writes and any other
    token is itself; but the whole text under [input] when a token is
    made of digit characters that [int] refuses, a superscript digit or
    more than 4300 digits. *)
Theorem argument_coercion (json_loads : text -> result pyval) {W : Type}
    (tools : gmap text (@tool_fn W)) (t : text) :
  Forall (fun c =>
    exists p m,
      In p patterns /\ In m (re_finditer p t Re.IGNORECASE_DOTALL)
      /\ Re.group m 1 = Some (tool c) /\ raw_match c = Re.mo_whole m
      /\ coerced json_loads (argument_block m) (args c))
    (parse_tool_calls json_loads tools t).
Proof.
  apply List.Forall_forall. intros c Hc. unfold parse_tool_calls in Hc.
  apply in_flat_map in Hc as (p & Hp & Hc). unfold calls_of_pattern in Hc.
  apply in_flat_map in Hc as (m & Hm & Hc). exists p, m.
  unfold call_of_match in Hc.
  destruct (Re.group m 1) as [name|] eqn:Hname; [|done].
  destruct (decide (is_Some (tools !! name))); [|done].
  destruct Hc as [<-|[]]. cbn [tool args raw_match].
  split; [done|]. split; [done|]. split; [done|]. split; [done|].
  unfold argument_block.
  match goal with |- coerced _ _ (parse_args _ ?a) =>
    rewrite (parse_args_default json_loads a)
  end.
  exact (parse_args_coerced json_loads _).
Qed.

Lemma argument_coercion_witness :
  Forall (fun c =>
    exists p m,
      In p patterns
      /\ In m (re_finditer p Samples.coercion_text Re.IGNORECASE_DOTALL)
      /\ Re.group m 1 = Some (tool c) /\ raw_match c = Re.mo_whole m
      /\ coerced Json.loads (argument_block m) (args c))
    (parse_tool_calls Json.loads Samples.sample_tools Samples.coercion_text).
Proof.
  exact (argument_coercion Json.loads Samples.sample_tools
           Samples.coercion_text).
Defined.

(** The arguments of the sample directives: a boolean written in capitals,
    a numeral and a word; and a block with a superscript two, kept whole
    under [input]. *)
Lemma coercion_samples :
  (exists d,
     map args (parse_tool_calls Json.loads Samples.sample_tools
                 Samples.coercion_text) = [PDict d]
     /\ d !! ("a" : text) = Some (PBool true)
     /\ d !! ("n" : text) = Some (PInt 42)
     /\ d !! ("p" : text) = Some (PStr "x"))
  /\ map args (parse_tool_calls Json.loads Samples.sample_tools
                 Samples.superscript_text)
     = [input_only (("a=true, n=" : text) ++ ["178"%char])].
Proof.
  split; [|vm_compute; reflexivity].
  eexists. split; [vm_compute; reflexivity|]. repeat split.
Qed.

(** C9 (as stated) fails: in the directive [TOOL_CALL: read_file(a=TRUE)]
    the token [TRUE] is neither [true] nor [false] nor a numeral, and the
    extracted call gives [a] the boolean, not the string. *)
Lemma coercion_by_literal_fails : ~ coercion_by_literal.
Proof.
  intros Hclaim.
  pose (c := {| tool := ("read_file" : text);
                args := PDict {[ ("a" : text) := PBool true ]};
                raw_match := Samples.shouted_text |}).
  specialize (Hclaim Json.loads unit Samples.sample_tools
                Samples.shouted_text c ("a" : text) ("TRUE" : text)).
  assert (Hargs : args c
                  = PDict {[ ("a" : text)
                             := literal_value ("TRUE" : text) ]}).
  { apply Hclaim; [|reflexivity|discriminate|discriminate
                   |reflexivity|reflexivity].
    vm_compute. left. reflexivity. }
  apply (f_equal (fun v => match v with
                          | PDict d => d !! ("a" : text)
                          | _ => None
                          end)) in Hargs.
  vm_compute in Hargs. discriminate.
Qed.


(** C7 (as stated) fails: a text with no directive gives an aggregate
    without the field [tool_count]. *)
Lemma aggregate_fields_always_fails : ~ aggregate_fields_always.
Proof.
  intros Hclaim.
  destruct (Hclaim Json.loads unit Samples.sample_tools
              ("nothing to call here" : text) tt)
    as (d & Hd & _ & _ & [v Hv]).
  vm_compute in Hd. injection Hd as <-. vm_compute in Hv. discriminate.
Qed.

(** C8 (as stated) fails: of a bracketed directive followed by a labeled
    one, the labeled one is returned first. *)
Lemma source_order_fails : ~ source_order.
Proof.
  intros Hclaim.
  specialize (Hclaim Json.loads unit Samples.sample_tools
                Samples.two_notations).
  vm_compute in Hclaim.
  apply StronglySorted_inv in Hclaim as [_ Hall].
  apply Forall_inv in Hall. lia.
Qed.

Lemma process_ai_response_aggregate_witness :
  let tools := Samples.sample_tools in
  let w := tt in
  let calls := parse_tool_calls Json.loads tools Samples.batch_text in
  exists d records w1,
    process_ai_response Json.loads tools Samples.batch_text w = (PDict d, w1)
    /\ execute_all tools calls w = (records, w1)
    /\ d !! ("tool_calls" : text) = Some (PList records)
    /\ d !! ("has_tool_calls" : text)
       = Some (PBool (negb (bool_decide (calls = []))))
    /\ d !! ("tool_count" : text)
       = (if decide (calls = []) then None
          else Some (PInt (Z.of_nat (length calls))))
    /\ length records = length calls
    /\ forall i c, calls !! i = Some c ->
       let w_i := (execute_all tools (take i calls) w).2 in
       exists f, tools !! tool c = Some f
         /\ records !! i = Some (execute_tool tools (tool c) (args c) w_i).1
         /\ forall e tb w', f (args c) w_i = (Raised e tb, w') ->
            records !! i = Some (failure_record c e tb).
Proof.
  exact (process_ai_response_aggregate Json.loads Samples.sample_tools
           Samples.batch_text tt).
Defined.

(** The batch above, run: the first call raises and is recorded as a
    failure, the second still runs and succeeds. *)
Example batch_runs_past_failure :
  exists r0 r1,
    (execute_all Samples.sample_tools
       (parse_tool_calls Json.loads Samples.sample_tools Samples.batch_text)
       tt).1 = [PDict r0; PDict r1]
    /\ r0 !! ("error" : text)
       = Some (PStr "Tool execution failed: disk full")
    /\ r0 !! ("tool" : text) = Some (PStr "write_file")
    /\ r1 !! ("tool" : text) = Some (PStr "read_file")
    /\ r1 !! ("success" : text) = Some (PBool true)
    /\ r1 !! ("args" : text)
       = Some (PDict {[ ("n" : text) := PInt 42 ]}).
Proof. vm_compute. eexists _, _. repeat split; reflexivity. Qed.

Lemma calls_grouped_by_notation_witness :
  map tool (parse_tool_calls Json.loads Samples.sample_tools
              Samples.two_notations)
  = map tool
      (calls_of_pattern Json.loads Samples.sample_tools
         Samples.two_notations "TOOL_CALL:\s*(\w+)\s*\((.*?)\)"
       ++ calls_of_pattern Json.loads Samples.sample_tools
            Samples.two_notations
            "\[TOOL:\s*(\w+)(?:,\s*args:\s*({.*?}))?\]"
       ++ calls_of_pattern Json.loads Samples.sample_tools
            Samples.two_notations
            "use\s+tool:\s*(\w+)(?:\s+with\s+args\s*({.*?}))?").
Proof.
  refine (f_equal (map tool)
            (proj1 (proj2 (calls_grouped_by_notation Json.loads
               Samples.sample_tools Samples.two_notations _ _ _ _)))).
  reflexivity.
Defined.

End ToolsFacts.

(** ** The tool-server gateway *)

Module GatewayFacts.
Import Gateway GatewaySpec.

Lemma discover_step_lookup (servers : gmap text descriptor)
    (f : config_file) (name : text) :
  discover_step servers f !! name
  = match defines f name with
    | Some d => Some d
    | None => servers !! name
    end.
Proof.
  destruct f as [| |[table|]]; simpl; try done.
  unfold Tools.dict_update. destruct (table !! name) as [d|] eqn:Ht.
  - by apply lookup_union_Some_l.
  - by rewrite lookup_union_r.
Qed.

Lemma discover_snoc (files : list config_file) (f : config_file) :
  discover_mcp_servers (files ++ [f])
  = discover_step (discover_mcp_servers files) f.
Proof. unfold discover_mcp_servers. by rewrite fold_left_app. Qed.

Lemma discover_undefined (files : list config_file) (name : text) :
  (forall f, In f files -> defines f name = None) ->
  discover_mcp_servers files !! name = None.
Proof.
  induction files as [|f files IH] using rev_ind; intros Hall; [done|].
  rewrite discover_snoc, discover_step_lookup.
  rewrite (Hall f) by (apply in_or_app; right; by left).
  apply IH. intros f' Hin. apply Hall, in_or_app. by left.
Qed.

Lemma discover_latest (files : list config_file) (name : text) :
  forall i f d,
    files !! i = Some f -> defines f name = Some d ->
    (forall j f', i < j -> files !! j = Some f' -> defines f' name = None) ->
    discover_mcp_servers files !! name = Some d.
Proof.
  induction files as [|f0 files IH] using rev_ind;
    intros i f d Hi Hd Hlater; [done|].
  rewrite discover_snoc, discover_step_lookup.
  destruct (decide (i = length files)) as [->|Hne].
  - rewrite list_lookup_middle in Hi by done. injection Hi as ->.
    by rewrite Hd.
  - assert (Hlt : i < length files).
    { apply lookup_lt_Some in Hi. rewrite length_app in Hi. simpl in Hi.
      lia. }
    rewrite lookup_app_l in Hi by done.
    rewrite (Hlater (length files) f0 Hlt)
      by (by rewrite list_lookup_middle).
    apply (IH i f d Hi Hd). intros j f' Hij Hj.
    apply (Hlater j f' Hij). rewrite lookup_app_l; [done|].
    by apply lookup_lt_Some in Hj.
Qed.

(** C1 (as amended).  The tables found at the configuration paths are
    merged in order and the last writer wins: the descriptor kept for a
    server name is that of the latest file that defines it, and a name no
    file defines is absent. *)
Theorem discover_last_writer_wins (files : list config_file) (name : text)
    (i : nat) (f : config_file) (d : descriptor) :
  files !! i = Some f -> defines f name = Some d ->
  (forall j f', i < j -> files !! j = Some f' -> defines f' name = None) ->
  discover_mcp_servers files !! name = Some d
  /\ forall other,
       (forall f', In f' files -> defines f' other = None) ->
       discover_mcp_servers files !! other = None.
Proof.
  intros Hi Hd Hlater. split; [by eapply discover_latest|].
  intros other. apply discover_undefined.
Qed.

Lemma discover_last_writer_wins_witness :
  discover_mcp_servers Samples.two_files !! ("memory" : text)
  = Some Samples.project_server
  /\ forall other,
       (forall f', In f' Samples.two_files -> defines f' other = None) ->
       discover_mcp_servers Samples.two_files !! other = None.
Proof.
  apply (discover_last_writer_wins Samples.two_files "memory" 2
           (Config (Some {[ ("memory" : text) := Samples.project_server ]}))
           Samples.project_server).
  - reflexivity.
  - reflexivity.
  - intros j f' Hj Hf. apply lookup_lt_Some in Hf. simpl in Hf. lia.
Defined.

(** C1 (as stated) fails: of two files that declare the same server, the
    later one's descriptor is kept. *)
Lemma first_writer_wins_fails : ~ first_writer_wins.
Proof.
  intros Hclaim.
  assert (Hfirst : discover_mcp_servers Samples.two_files !! ("memory" : text)
                   = Some Samples.user_server).
  { apply (Hclaim Samples.two_files 0
             (Config (Some {[ ("memory" : text) := Samples.user_server ]}))).
    - reflexivity.
    - reflexivity.
    - intros j f' Hj. lia. }
  assert (Hlast : discover_mcp_servers Samples.two_files !! ("memory" : text)
                  = Some Samples.project_server) by reflexivity.
  rewrite Hlast in Hfirst. discriminate.
Qed.

Section Call.
Variable json_loads : text -> result pyval.
Variable json_dumps : pyval -> result text.
Variable popen : list text -> gmap text text -> result unit.
Variable communicate : list text -> gmap text text -> text -> proc_outcome.
Variable os_environ : gmap text text.

(** C5.  A call that names a server absent from the merged table returns
    the error payload [MCP server '<name>' not found] and does nothing
    else: no process is spawned, nothing is sent, nothing is waited for
    or scanned. *)
Theorem unknown_server (mcp_servers : gmap text descriptor)
    (server_name tool_name : text) (arguments : pyval) :
  mcp_servers !! server_name = None ->
  execute_mcp_tool json_loads json_dumps popen communicate os_environ
    mcp_servers server_name tool_name arguments
  = (error_payload (("MCP server '" : text) ++ server_name
                    ++ ("' not found" : text)), []).
Proof.
  intros Hnone. unfold execute_mcp_tool. by rewrite Hnone.
Qed.

End Call.

Lemma unknown_server_witness :
  execute_mcp_tool Json.loads Samples.sample_dumps Samples.sample_popen
    Samples.noisy_server ∅ Samples.sample_servers "cursor-control"
    "cursor_open_file" (PDict ∅)
  = (error_payload "MCP server 'cursor-control' not found", []).
Proof.
  apply (unknown_server Json.loads Samples.sample_dumps Samples.sample_popen
           Samples.noisy_server ∅ Samples.sample_servers "cursor-control"
           "cursor_open_file" (PDict ∅)).
  reflexivity.
Defined.

Lemma passed_over_next (json_loads : text -> result pyval) (line : text) :
  passed_over json_loads line -> scan_line json_loads line = NextLine.
Proof.
  unfold scan_line. intros [Hb|[(e & Hn & He)|(d & Hd & Hr & He)]].
  - by rewrite Hb.
  - rewrite Hn, He. by destruct (Text.strip line).
  - rewrite Hd. unfold py_contains.
    rewrite !bool_decide_eq_false_2
      by (rewrite ?Hr, ?He; by intros [? ?]).
    by destruct (Text.strip line).
Qed.

(** Where the scan does what is expected of it: when every line before
    the response is passed over, the payload of the response is
    returned. *)
Lemma scan_lines_response (json_loads : text -> result pyval)
    (earlier : list text) (line : text) (later : list text)
    (d : gmap text pyval) (v : pyval) :
  Forall (passed_over json_loads) earlier ->
  Text.strip line <> [] ->
  json_loads line = Ok (PDict d) ->
  d !! ("result" : text) = Some v ->
  scan_lines json_loads (earlier ++ line :: later) = Some (Ok v).
Proof.
  intros Hearlier Hline Hd Hv.
  induction Hearlier as [|l ls Hl _ IH]; simpl.
  - unfold scan_line. rewrite Hd. unfold py_contains, py_getitem.
    rewrite bool_decide_eq_true_2 by (rewrite Hv; by eexists).
    rewrite Hv. by destruct (Text.strip line).
  - by rewrite (passed_over_next _ _ Hl).
Qed.

(** C6, the code at the failing input.  The server exits with status zero
    and prints the line [42] before its response line.  The response line
    decodes to an object with the field [result], yet the call does not
    return that payload: the line [42] decodes to a number, the test
    ['result' in response] raises on it, and the call returns the payload
    of a failed execution. *)
Theorem scalar_line_aborts_scan (json_dumps : pyval -> result text)
    (popen : list text -> gmap text text -> result unit)
    (communicate : list text -> gmap text text -> text -> proc_outcome)
    (os_environ : gmap text text) (mcp_servers : gmap text descriptor)
    (server_name tool_name body stderr : text) (arguments : pyval)
    (server_config : descriptor) :
  mcp_servers !! server_name = Some server_config ->
  popen (command server_config :: d_args server_config)
    (Tools.dict_update os_environ (env server_config)) = Ok tt ->
  json_dumps (request tool_name arguments) = Ok body ->
  communicate (command server_config :: d_args server_config)
    (Tools.dict_update os_environ (env server_config))
    (body ++ [Text.newline])
  = Exited 0 Samples.noisy_stdout stderr ->
  scan_line Json.loads Samples.response_line = Return (PDict ∅)
  /\ (execute_mcp_tool Json.loads json_dumps popen communicate os_environ
        mcp_servers server_name tool_name arguments).1
     = error_payload
         "Failed to execute MCP tool: argument of type 'int' is not iterable".
Proof.
  intros Hcfg Hpopen Hdumps Hcomm. split; [reflexivity|].
  unfold execute_mcp_tool. rewrite Hcfg, Hpopen, Hdumps, Hcomm.
  reflexivity.
Qed.

Lemma scalar_line_aborts_scan_witness :
  scan_line Json.loads Samples.response_line = Return (PDict ∅)
  /\ (execute_mcp_tool Json.loads Samples.sample_dumps Samples.sample_popen
        Samples.noisy_server ∅ Samples.sample_servers "memory"
        "memory_save_context" (PDict ∅)).1
     = error_payload
         "Failed to execute MCP tool: argument of type 'int' is not iterable".
Proof.
  apply (scalar_line_aborts_scan Samples.sample_dumps Samples.sample_popen
           Samples.noisy_server ∅ Samples.sample_servers "memory"
           "memory_save_context" "{}" [] (PDict ∅) Samples.project_server);
    reflexivity.
Defined.

End GatewayFacts.

(** * Further properties *)

(** ** What a match reads *)

Module ReTextFacts.
Import Re ReText.
#[local] Set Default Proof Using "Type*".

Lemma colon_caseless : caseless ":"%char.
Proof.
  intros x. destruct x as [[] [] [] [] [] [] [] []]; vm_compute; congruence.
Qed.

Section Consumes.
Context {A : Type}.
Variable fl : flags.
Variable c : ascii.
Hypothesis Hc : caseless c.

Lemma consumed_refl (st : mstate) : consumed st st [].
Proof. split; simpl; [done|lia]. Qed.

Lemma consumed_trans (st st1 st2 : mstate) (u v : text) :
  consumed st st1 u -> consumed st1 st2 v -> consumed st st2 (u ++ v).
Proof.
  intros [Hr1 Hp1] [Hr2 Hp2]. split.
  - by rewrite Hr1, Hr2, app_assoc.
  - rewrite Hp2, Hp1, length_app. lia.
Qed.

Lemma lit_match_needs (c' x : ascii) :
  lit_match fl c' x = true -> c' = c -> x = c.
Proof.
  unfold lit_match. intros Hm ->. destruct (ignorecase fl).
  - apply bool_decide_eq_true_1 in Hm. by apply Hc.
  - by apply bool_decide_eq_true_1 in Hm.
Qed.

Lemma star_loop_consumes (r1 : regex) (greedy : bool)
    (k : mstate -> option A) (x : A) :
  (forall st k', rmatch fl r1 st k' = Some x ->
     exists st1 u, k' st1 = Some x /\ consumed st st1 u
       /\ (needs c r1 = true -> In c u)) ->
  forall n st, star_loop (rmatch fl r1) greedy k n st = Some x ->
  exists st1 u, k st1 = Some x /\ consumed st st1 u.
Proof.
  intros IH n. induction n as [|n IHn]; intros st Hs; simpl in Hs.
  - destruct greedy; simpl in Hs.
    + exists st, []. split; [done|]. apply consumed_refl.
    + apply ReFacts.or_else_Some in Hs as [Hs|Hs]; [|done].
      exists st, []. split; [done|]. apply consumed_refl.
  - assert (Hmore :
      rmatch fl r1 st (fun st1 =>
        if decide (m_pos st < m_pos st1)
        then star_loop (rmatch fl r1) greedy k n st1 else None) = Some x ->
      exists st1 u, k st1 = Some x /\ consumed st st1 u).
    { intros Hm. apply IH in Hm as (st1 & u & Hk & Hu & _).
      destruct (decide (m_pos st < m_pos st1)); [|done].
      apply IHn in Hk as (st2 & v & Hk2 & Hv).
      exists st2, (u ++ v). split; [done|]. by eapply consumed_trans. }
    destruct greedy; apply ReFacts.or_else_Some in Hs as [Hs|Hs]; auto;
      exists st, []; (split; [done|]); apply consumed_refl.
Qed.

(** Every success of the matcher hands its continuation the rest of the
    text, having read a prefix of it that holds each character the pattern
    needs. *)
Lemma rmatch_consumes (r : regex) :
  forall (st : mstate) (k : mstate -> option A) (x : A),
  rmatch fl r st k = Some x ->
  exists st1 u, k st1 = Some x /\ consumed st st1 u
    /\ (needs c r = true -> In c u).
Proof.
  induction r as [| |cs|r1 IH1 r2 IH2|r1 IH1 r2 IH2|g r1 IH1|g r1 IH1
                  |g r1 IH1|n r1 IH1|n|]; intros st k x Hm; simpl in Hm.
  - exists st, []. split; [done|]. split; [apply consumed_refl|done].
  - done.
  - destruct (m_rest st) as [|y rest] eqn:Hrest; [done|].
    destruct (cs_match fl cs y) eqn:Hcs; [|done].
    exists (advance 1 st), [y]. split; [done|]. split.
    + split; simpl; [|lia]. rewrite Hrest. simpl. by rewrite drop_0.
    + destruct cs; simpl; try done. intros Hn%bool_decide_eq_true_1.
      left. by eapply lit_match_needs.
  - apply IH1 in Hm as (st1 & u & Hk & Hu & Hn1).
    apply IH2 in Hk as (st2 & v & Hk2 & Hv & Hn2).
    exists st2, (u ++ v). split; [done|].
    split; [by eapply consumed_trans|].
    simpl. intros [H1|H2]%orb_true_iff; apply in_or_app; auto.
  - apply ReFacts.or_else_Some in Hm as [Hm|Hm].
    + apply IH1 in Hm as (st1 & u & Hk & Hu & Hn). exists st1, u.
      split; [done|]. split; [done|]. simpl.
      intros [H1 _]%andb_true_iff. auto.
    + apply IH2 in Hm as (st1 & u & Hk & Hu & Hn). exists st1, u.
      split; [done|]. split; [done|]. simpl.
      intros [_ H2]%andb_true_iff. auto.
  - assert (Hin : rmatch fl r1 st k = Some x ->
              exists st1 u, k st1 = Some x /\ consumed st st1 u
                /\ (needs c (ROpt g r1) = true -> In c u)).
    { intros H1. apply IH1 in H1 as (st1 & u & Hk & Hu & _).
      exists st1, u. split; [done|]. split; [done|]. simpl. done. }
    destruct g; apply ReFacts.or_else_Some in Hm as [Hm|Hm]; auto;
      exists st, []; (split; [done|]); (split; [apply consumed_refl|done]).
  - eapply star_loop_consumes in Hm as (st1 & u & Hk & Hu);
      [|intros st0 k0; apply IH1].
    exists st1, u. split; [done|]. split; [done|]. simpl. done.
  - apply IH1 in Hm as (st1 & u & Hk & Hu & Hn).
    eapply star_loop_consumes in Hk as (st2 & v & Hk2 & Hv);
      [|intros st0 k0; apply IH1].
    exists st2, (u ++ v). split; [done|].
    split; [by eapply consumed_trans|].
    simpl. intros H1. apply in_or_app. auto.
  - apply IH1 in Hm as (st1 & u & Hk & Hu & Hn).
    exists (set_group n st st1), u. split; [done|]. split; [|done].
    destruct Hu as [Hr Hp]. by split.
  - destruct (m_groups st !! n) as [g|]; [|done].
    destruct (Text.startswith g (m_rest st)) eqn:Hsw; [|done].
    apply TextFacts.startswith_spec in Hsw as [b Hb].
    exists (advance (length g) st), g. split; [done|]. split; [|done].
    split; simpl; [|lia]. rewrite Hb. by rewrite drop_app_length.
  - exists st, []. split; [|split; [apply consumed_refl|done]].
    destruct (m_rest st) as [|y [|y' rest]]; [done| |done].
    by destruct (bool_decide (y = Text.newline)).
Qed.

End Consumes.

Section Located.
Variable fl : flags.
Variable c : ascii.
Hypothesis Hc : caseless c.
Variable r : regex.

Lemma match_at_located (pos : nat) (t : text) (m : match_obj) :
  match_at fl r pos t = Some m ->
  (exists b, t = mo_whole m ++ b)
  /\ mo_start m = pos
  /\ mo_end m = pos + length (mo_whole m)
  /\ (needs c r = true -> In c (mo_whole m)).
Proof.
  unfold match_at. intros Hm.
  destruct (rmatch fl r _ Some) as [st1|] eqn:Hr; [|done].
  apply (rmatch_consumes fl c Hc) in Hr
    as (st2 & u & [= ->] & [Hrest Hpos] & Hn).
  injection Hm as <-. simpl in *.
  assert (Hw : take (m_pos st1 - pos) t = u).
  { rewrite Hrest, Hpos. replace (pos + length u - pos) with (length u) by lia.
    by rewrite take_app_length. }
  rewrite Hw. split; [by exists (m_rest st1)|]. split; [done|].
  split; [done|]. done.
Qed.

Lemma search_from_located (t : text) :
  forall (pos : nat) (m : match_obj),
  search_from fl r pos t = Some m ->
  located pos t m /\ (needs c r = true -> In c (mo_whole m)).
Proof.
  induction t as [|y t IH]; intros pos m Hs; simpl in Hs.
  - destruct (match_at fl r pos []) eqn:Hm; [|done]. injection Hs as ->.
    apply match_at_located in Hm as ([b Hb] & Hst & Hen & Hn).
    split; [|done]. exists [], b. simpl. split; [done|]. split; lia.
  - destruct (match_at fl r pos (y :: t)) eqn:Hm.
    + injection Hs as ->.
      apply match_at_located in Hm as ([b Hb] & Hst & Hen & Hn).
      split; [|done]. exists [], b. simpl. split; [done|]. split; lia.
    + apply IH in Hs as [(a & b & Ht & Hst & Hen) Hn]. split; [|done].
      exists (y :: a), b. simpl. split; [by rewrite Ht|]. split; lia.
Qed.

(** Every match [finditer] yields is a run of the text, at the position the
    match object records. *)
Lemma finditer_from_located :
  forall (fuel pos : nat) (t : text),
  Forall (fun m => located pos t m
                   /\ (needs c r = true -> In c (mo_whole m)))
    (finditer_from fl r fuel pos t).
Proof.
  induction fuel as [|fuel IH]; intros pos t; simpl; [constructor|].
  destruct (search_from fl r pos t) as [m|] eqn:Hs; [|constructor].
  apply search_from_located in Hs as [Hloc Hn].
  constructor; [done|].
  set (step := if decide (mo_end m = mo_start m)
               then S (mo_end m - pos) else mo_end m - pos).
  destruct (decide (step <= length t)) as [Hle|]; [|constructor].
  eapply Forall_impl; [apply IH|]. simpl.
  intros m' [(a & b & Ht & Hst & Hen) Hn']. split; [|done].
  exists (take step t ++ a), b. split.
  - rewrite <- app_assoc, <- Ht. by rewrite take_drop.
  - rewrite length_app, length_take. split; lia.
Qed.

(** A text without a character the pattern needs has no match. *)
Lemma finditer_from_needs (fuel pos : nat) (t : text) :
  needs c r = true -> ~ In c t -> finditer_from fl r fuel pos t = [].
Proof.
  intros Hn Hnot.
  pose proof (finditer_from_located fuel pos t) as Hall.
  destruct (finditer_from fl r fuel pos t) as [|m ms]; [done|].
  apply Forall_inv in Hall as [(a & b & Ht & _) Hin].
  exfalso. apply Hnot. rewrite Ht.
  apply in_or_app. right. apply in_or_app. left. by apply Hin.
Qed.

End Located.

End ReTextFacts.

(** ** More on the tool executor *)

Module ToolsMore.
Import Tools ToolsSpec Catalogue.

Lemma patterns_need_colon :
  Forall (fun p => ReText.needs ":"%char (Re.compiled p) = true) patterns.
Proof. repeat constructor. Qed.

Section More.
Variable json_loads : text -> result pyval.
Context {W : Type}.
Variable tools : gmap text (@tool_fn W).

Lemma calls_of_pattern_plain (t p : text) :
  ReText.needs ":"%char (Re.compiled p) = true ->
  ~ In ":"%char t ->
  calls_of_pattern json_loads tools t p = [].
Proof.
  intros Hn Hnot. unfold calls_of_pattern, re_finditer.
  by rewrite (ReTextFacts.finditer_from_needs _ _
                ReTextFacts.colon_caseless _ _ _ _ Hn Hnot).
Qed.

(** X1.  A text without a colon holds no directive in any of the three
    notations: nothing is extracted, no tool runs, and the response comes
    back unchanged under [message] with [has_tool_calls] false. *)
Theorem plain_text_runs_nothing (t : text) (w : W) :
  ~ In ":"%char t ->
  parse_tool_calls json_loads tools t = []
  /\ process_ai_response json_loads tools t w = (no_calls_aggregate t, w).
Proof.
  intros Hnot.
  assert (Hnone : parse_tool_calls json_loads tools t = []).
  { unfold parse_tool_calls.
    pose proof patterns_need_colon as Hp.
    induction Hp as [|p ps Hn _ IH]; simpl; [done|].
    by rewrite (calls_of_pattern_plain t p Hn Hnot), IH. }
  split; [done|]. unfold process_ai_response. by rewrite Hnone.
Qed.

(** X2.  Each extracted call records as [raw_match] the text that stands
    in the response at the position of its match, and that text holds the
    colon of its notation. *)
Theorem raw_match_is_source_text (t : text) :
  Forall (fun '(pos, c) =>
            Text.startswith (raw_match c) (drop pos t) = true
            /\ In ":"%char (raw_match c))
    (spanned_calls json_loads tools t).
Proof.
  unfold spanned_calls. apply List.Forall_forall.
  intros [pos c] (p & Hp & Hc)%in_flat_map.
  unfold spanned_calls_of_pattern in Hc.
  apply in_flat_map in Hc as (m & Hm & Hc).
  apply in_map_iff in Hc as (c' & [= <- <-] & Hc').
  assert (Hraw : raw_match c' = Re.mo_whole m).
  { unfold call_of_match in Hc'.
    destruct (Re.group m 1) as [name|]; [|done].
    destruct (decide (is_Some (tools !! name))); [|done].
    destruct Hc' as [<-|[]]. done. }
  assert (Hneeds : ReText.needs ":"%char (Re.compiled p) = true).
  { pose proof patterns_need_colon as Hall.
    rewrite List.Forall_forall in Hall. by apply Hall. }
  unfold re_finditer in Hm.
  pose proof (ReTextFacts.finditer_from_located Re.IGNORECASE_DOTALL _
                ReTextFacts.colon_caseless (Re.compiled p)
                (S (length t)) 0 t) as Hall.
  rewrite List.Forall_forall in Hall.
  destruct (Hall m Hm) as [(a & b & Ht & Hst & _) Hin].
  rewrite Hraw. split; [|by apply Hin].
  apply TextFacts.startswith_spec. exists b.
  rewrite Hst. simpl. rewrite Ht at 1. by rewrite drop_app_length.
Qed.

(** X3.  The record [execute_tool] returns has the field [error] exactly
    when the tool is not registered or its callable raised; a name that is
    not registered runs nothing and leaves the state as it was. *)
Theorem execute_tool_error_field (tool_name : text) (a : pyval) (w : W) :
  exists d w1,
    execute_tool tools tool_name a w = (PDict d, w1)
    /\ (is_Some (d !! ("error" : text)) <->
        tools !! tool_name = None
        \/ exists f e tb, tools !! tool_name = Some f
             /\ f a w = (Raised e tb, w1))
    /\ (tools !! tool_name = None ->
        w1 = w
        /\ d = {[ ("error" : text) :=
                    PStr (("Tool '" : text) ++ tool_name
                          ++ ("' not found" : text)) ]}).
Proof.
  unfold execute_tool. destruct (tools !! tool_name) as [f|] eqn:Hf.
  - destruct (f a w) as [[r|e tb] w1] eqn:Hr.
    + eexists _, w1. split; [reflexivity|]. split; [|done]. split.
      * intros [v Hv]. vm_compute in Hv. discriminate.
      * intros [?|(f' & e & tb & [= <-] & Hr')]; [done|].
        rewrite Hr in Hr'. discriminate.
    + eexists _, w1. split; [reflexivity|]. split; [|done]. split.
      * intros _. right. by exists f, e, tb.
      * intros _. eexists. reflexivity.
  - eexists _, w. split; [reflexivity|]. split; [|done]. split.
    + intros _. by left.
    + intros _. eexists. reflexivity.
Qed.

End More.

Lemma plain_text_runs_nothing_witness :
  parse_tool_calls Json.loads Samples.sample_tools
    "All files are in place." = []
  /\ process_ai_response Json.loads Samples.sample_tools
       "All files are in place." tt
     = (no_calls_aggregate "All files are in place.", tt).
Proof.
  apply (plain_text_runs_nothing Json.loads Samples.sample_tools
           "All files are in place." tt).
  rewrite <- list_elem_of_In. apply (bool_decide_unpack _).
  vm_compute. exact I.
Defined.

Lemma family_names {W} (impl : string -> @tool_fn W) (names : list string) :
  dom (family impl names)
  = list_to_set (C := gset text) (text_of_string <$> names).
Proof.
  unfold family. rewrite dom_list_to_map_L. f_equal.
  induction names as [|n names IH]; simpl; [done|]. by f_equal.
Qed.

Lemma family_lookup {W} (impl : string -> @tool_fn W) (names : list string)
    (n : string) :
  In n names -> family impl names !! text_of_string n = Some (impl n).
Proof.
  unfold family. induction names as [|n0 names IH]; simpl; [done|].
  destruct (decide (n0 = n)) as [->|Hne].
  - intros _. by rewrite lookup_insert_eq.
  - intros [?|Hin]; [done|]. rewrite lookup_insert_ne; [by apply IH|].
    intros Heq. apply Hne.
    apply (f_equal string_of_list_ascii) in Heq.
    unfold text_of_string in Heq.
    by rewrite !string_of_list_ascii_of_string in Heq.
Qed.

Lemma family_lookup_None {W} (impl : string -> @tool_fn W)
    (names : list string) (n : string) :
  ~ In n names -> family impl names !! text_of_string n = None.
Proof.
  intros Hnot. apply not_elem_of_dom. rewrite family_names.
  rewrite elem_of_list_to_set, list_elem_of_fmap.
  intros (n' & Heq & Hin). apply Hnot.
  apply (f_equal string_of_list_ascii) in Heq. unfold text_of_string in Heq.
  rewrite !string_of_list_ascii_of_string in Heq. subst n'.
  by apply list_elem_of_In.
Qed.

(** X4.  The registry [_register_tools] builds has exactly the names
    [get_available_tools] advertises, and no family overwrites another:
    each name is bound to the callable its own family supplied. *)
Theorem registry_matches_catalogue {W} (impl : string -> @tool_fn W) :
  dom (_register_tools impl) = dom get_available_tools
  /\ Forall (fun n =>
       _register_tools impl !! text_of_string n = Some (impl n))
       registered_names
  /\ NoDup registered_names.
Proof.
  split; [|split].
  - unfold _register_tools, dict_update, get_available_tools.
    rewrite !dom_union_L, !family_names, dom_empty_L, dom_list_to_map_L.
    set (advertised := (map _ _).*1).
    assert (Hadv : advertised = text_of_string <$> registered_names)
      by reflexivity.
    rewrite Hadv. unfold registered_names.
    rewrite !fmap_app, !list_to_set_app_L. set_solver.
  - apply List.Forall_forall. intros n Hn.
    unfold _register_tools, dict_update.
    assert (Hdec : forall names : list string, {In n names} + {~ In n names}).
    { intros names. apply In_dec. apply string_dec. }
    repeat match goal with
    | |- (family impl ?names ∪ _) !! _ = _ =>
        let Hnot := fresh "Hnot" in
        destruct (Hdec names) as [Hin|Hnot];
        [ by apply lookup_union_Some_l, family_lookup
        | rewrite lookup_union_r by (by apply family_lookup_None) ]
    end.
    exfalso. unfold registered_names in Hn.
    repeat (apply in_app_or in Hn as [Hn|Hn]; [done|]). done.
  - unfold registered_names.
    apply (bool_decide_unpack _). vm_compute. exact I.
Qed.

End ToolsMore.

(** ** More on texts *)

Module TextMore.
Import Text.

Lemma lower_char_idem (c : ascii) : lower_char (lower_char c) = lower_char c.
Proof. destruct c as [[] [] [] [] [] [] [] []]; reflexivity. Qed.

Lemma isspace_lower_char (c : ascii) : isspace (lower_char c) = isspace c.
Proof. destruct c as [[] [] [] [] [] [] [] []]; reflexivity. Qed.

Lemma lower_idem (t : text) : lower (lower t) = lower t.
Proof.
  unfold lower. rewrite map_map. apply map_ext. apply lower_char_idem.
Qed.

Lemma lstrip_lower (t : text) : lstrip (lower t) = lower (lstrip t).
Proof.
  induction t as [|c t IH]; simpl; [done|].
  rewrite isspace_lower_char. by destruct (isspace c).
Qed.

Lemma rstrip_lower (t : text) : rstrip (lower t) = lower (rstrip t).
Proof.
  unfold rstrip, lower. rewrite <- map_rev.
  fold (lower (rev t)). rewrite lstrip_lower. unfold lower.
  by rewrite map_rev.
Qed.

Lemma strip_lower (t : text) : strip (lower t) = lower (strip t).
Proof. unfold strip. by rewrite lstrip_lower, rstrip_lower. Qed.

Lemma lstrip_idem (t : text) : lstrip (lstrip t) = lstrip t.
Proof.
  induction t as [|c t IH]; simpl; [done|].
  destruct (isspace c) eqn:Hc; [done|]. simpl. by rewrite Hc.
Qed.

Lemma lstrip_head (t : text) (c : ascii) (r : text) :
  lstrip t = c :: r -> isspace c = false.
Proof.
  induction t as [|x t IH]; simpl; [done|].
  destruct (isspace x) eqn:Hx; [done|]. by intros [= <- <-].
Qed.

Lemma lstrip_snoc (l : text) (c : ascii) :
  isspace c = false -> lstrip (l ++ [c]) = lstrip l ++ [c].
Proof.
  intros Hc. induction l as [|x l IH]; simpl; [by rewrite Hc|].
  by destruct (isspace x).
Qed.

Lemma rstrip_cons (c : ascii) (t : text) :
  isspace c = false -> rstrip (c :: t) = c :: rstrip t.
Proof.
  intros Hc. unfold rstrip. simpl. rewrite lstrip_snoc by done.
  by rewrite rev_app_distr.
Qed.

Lemma rstrip_idem (t : text) : rstrip (rstrip t) = rstrip t.
Proof. unfold rstrip. by rewrite rev_involutive, lstrip_idem. Qed.

(** Stripping a stripped text changes nothing. *)
Lemma strip_idem (t : text) : strip (strip t) = strip t.
Proof.
  unfold strip. destruct (lstrip t) as [|c y] eqn:Hy; [done|].
  pose proof (lstrip_head _ _ _ Hy) as Hc.
  rewrite rstrip_cons by done. simpl. rewrite Hc.
  rewrite rstrip_cons by done. by rewrite rstrip_idem.
Qed.

End TextMore.

(** ** More on the command interpreter *)

Module VoiceMore.
Import Voice VoiceSpec VoiceMoreSpec.

Lemma normalize_idem (t : text) : normalize (normalize t) = normalize t.
Proof.
  unfold normalize.
  by rewrite <- TextMore.strip_lower, TextMore.lower_idem,
    TextMore.strip_idem.
Qed.

Lemma first_entry_app (t : text) (es es' : list (CommandType * pattern_info)) :
  first_entry t (es ++ es')
  = match first_entry t es with
    | Some x => Some x
    | None => first_entry t es'
    end.
Proof.
  induction es as [|[ty info] es IH]; simpl; [done|].
  by destruct (re_search (p_pattern info) t Re.IGNORECASE).
Qed.

Lemma first_entry_pattern (t : text) (ty : CommandType)
    (pats : list pattern_info) :
  first_entry t (map (pair ty) pats)
  = (fun '(info, m) => (ty, info, m)) <$> first_pattern t pats.
Proof.
  induction pats as [|info pats IH]; simpl; [done|].
  by destruct (re_search (p_pattern info) t Re.IGNORECASE).
Qed.

(** The two loops of [parse_command] are one pass over the entries. *)
Lemma first_command_entries (t : text) table :
  first_command t table
  = first_entry t (flat_map (fun '(ty, pats) => map (pair ty) pats) table).
Proof.
  induction table as [|[ty pats] table IH]; simpl; [done|].
  rewrite first_entry_app, first_entry_pattern, IH.
  by destruct (first_pattern t pats) as [[info m]|].
Qed.

Lemma first_entry_None (t : text) es :
  (forall e, In e es -> re_search (p_pattern e.2) t Re.IGNORECASE = None) ->
  first_entry t es = None.
Proof.
  induction es as [|[ty info] es IH]; intros Hall; simpl; [done|].
  pose proof (Hall (ty, info) (or_introl eq_refl)) as Hhere.
  simpl in Hhere. rewrite Hhere. apply IH.
  intros e He. apply Hall. by right.
Qed.

Lemma extract_params_stripped (m : Re.match_obj) (ps : list (text * nat)) :
  forall acc params,
  map_Forall (fun _ v => Text.strip v = v) acc ->
  extract_params m ps acc = Ok params ->
  map_Forall (fun _ v => Text.strip v = v) params.
Proof.
  induction ps as [|[name i] ps IH]; intros acc params Hacc Hex;
    simpl in Hex.
  - by injection Hex as <-.
  - destruct (decide (i <= Re.mo_ngroups m)); [|by eapply IH].
    destruct (Re.group m i) as [g|]; [|done].
    eapply IH; [|exact Hex].
    apply map_Forall_insert_2; [apply TextMore.strip_idem|done].
Qed.

(** X5.  [parse_command] never raises on the source's table.  The command
    it returns records the lowercased, stripped text and the clock
    reading, and every parameter value is free of surrounding white
    space. *)
Theorem parse_command_returns (now : Q) (t : text) :
  exists c,
    parse_command now t = Ok c
    /\ original_text c = normalize t
    /\ timestamp c = now
    /\ map_Forall (fun _ v => Text.strip v = v) (parameters c).
Proof.
  unfold parse_command, parse_command_with. fold (normalize t).
  destruct (first_command (normalize t) command_patterns)
    as [[[ty info] m]|] eqn:Hf.
  - apply VoiceFacts.first_command_Some in Hf as (pats & Hin & Hi & Hs).
    destruct (VoiceFacts.table_params_set _ _ _ _ _ Hin Hi Hs) as [_ Hset].
    destruct (VoiceFacts.extract_params_total m (p_params info) ∅)
      as [params Hp].
    { intros name i Hn _. exact (Hset name i Hn). }
    rewrite Hp. eexists. split; [reflexivity|]. simpl.
    split; [done|]. split; [done|].
    eapply extract_params_stripped; [|exact Hp]. apply map_Forall_empty.
  - eexists. split; [reflexivity|]. simpl. split; [done|]. split; [done|].
    apply map_Forall_singleton. unfold normalize. apply TextMore.strip_idem.
Qed.

Lemma parse_command_text (now : Q) (t : text) (c : VoiceCommand) :
  parse_command now t = Ok c -> original_text c = normalize t.
Proof.
  unfold parse_command, parse_command_with. fold (normalize t).
  destruct (first_command (normalize t) command_patterns)
    as [[[ty info] m]|].
  - destruct (extract_params m (p_params info) ∅); [|done].
    by intros [= <-].
  - by intros [= <-].
Qed.

(** X6.  Parsing the text a command records gives the same command
    again: the recorded text is already in the form the interpreter
    works on. *)
Theorem parse_command_replay (now : Q) (t : text) (c : VoiceCommand) :
  parse_command now t = Ok c ->
  parse_command now (original_text c) = Ok c.
Proof.
  intros Hc. rewrite (parse_command_text now t c Hc).
  unfold parse_command, parse_command_with in *.
  fold (normalize (normalize t)). fold (normalize t) in Hc.
  by rewrite normalize_idem.
Qed.

Lemma parse_command_replay_witness :
  parse_command 0 (original_text MoreSamples.open_command)
  = Ok MoreSamples.open_command.
Proof.
  apply (parse_command_replay 0 "  Open MAIN.py in Cursor ").
  reflexivity.
Defined.

(** X7.  The first entry that matches wins: when an entry of the table
    matches the normalized text and no entry before it does, the command
    has that entry's type and action, whatever later entries match. *)
Theorem parse_command_first_match (now : Q) (t : text)
    (earlier later : list (CommandType * pattern_info))
    (ty : CommandType) (info : pattern_info) :
  entries = earlier ++ (ty, info) :: later ->
  (forall e, In e earlier ->
     re_search (p_pattern e.2) (normalize t) Re.IGNORECASE = None) ->
  is_Some (re_search (p_pattern info) (normalize t) Re.IGNORECASE) ->
  exists c,
    parse_command now t = Ok c
    /\ command_type c = ty /\ action c = p_action info.
Proof.
  intros Hent Hearlier [m Hm].
  assert (Hf : first_command (normalize t) command_patterns
               = Some (ty, info, m)).
  { rewrite first_command_entries. fold entries. rewrite Hent.
    rewrite first_entry_app, (first_entry_None _ _ Hearlier). simpl.
    by rewrite Hm. }
  unfold parse_command, parse_command_with. fold (normalize t). rewrite Hf.
  apply VoiceFacts.first_command_Some in Hf as (pats & Hin & Hi & Hs).
  destruct (VoiceFacts.table_params_set _ _ _ _ _ Hin Hi Hs) as [_ Hset].
  destruct (VoiceFacts.extract_params_total m (p_params info) ∅)
    as [params ->].
  { intros name i Hn _. exact (Hset name i Hn). }
  eexists. split; [reflexivity|]. done.
Qed.

Lemma no_match_among (t : text) (es : list (CommandType * pattern_info)) :
  forallb (fun e => bool_decide
             (re_search (p_pattern e.2) t Re.IGNORECASE = None)) es = true ->
  forall e, In e es -> re_search (p_pattern e.2) t Re.IGNORECASE = None.
Proof.
  rewrite forallb_forall. intros Hall e He.
  exact (bool_decide_eq_true_1 _ (Hall e He)).
Defined.

Lemma parse_command_first_match_witness :
  exists c,
    parse_command 0 "create a file called sort function" = Ok c
    /\ command_type c = MCP_CONTROL
    /\ action c = ("cursor_create_file" : text).
Proof.
  apply (parse_command_first_match 0 "create a file called sort function"
           (take 3 entries) (drop 4 entries) MCP_CONTROL
           (entry "create (?:a )?file (?:called )?(.+)" "cursor_create_file"
              [("file_name" : text, 1)])).
  - reflexivity.
  - apply no_match_among. vm_compute. reflexivity.
  - vm_compute. eexists. reflexivity.
Defined.

End VoiceMore.

(** ** More on the session controller *)

Module ControllerMore.
Import Voice Controller ControllerSpec ControllerMoreSpec.

Section Shapes.
Context {H : Type}.
Abbreviation M := (@M H).

(** [speak] returns, and what it does to the world is [enqueue]. *)
Lemma tts_speak_enqueue (t : text) (w : @world H) :
  exists b,
    tts_speak t w
    = (Ok b, {| ctl := enqueue t (ctl w); ext := ext w; trace := trace w |}).
Proof.
  unfold tts_speak, enqueue.
  destruct (Text.strip t) as [|c0 t0].
  - exists false. unfold ret. by destruct w.
  - exists true. reflexivity.
Qed.

Lemma enqueue_same_session (t : text) (c : controller) :
  same_session c (enqueue t c).
Proof. unfold enqueue. by destruct (Text.strip t). Qed.

Lemma enqueue_handed (t : text) (c : controller) :
  handed_over (tts (enqueue t c))
  = handed_over (tts c)
    ++ match Text.strip t with [] => [] | t' => [t'] end.
Proof.
  unfold enqueue. destruct (Text.strip t); simpl; [|done].
  by rewrite app_nil_r.
Qed.

Lemma quiet_ret {A} (a : A) : quiet (ret a : M A).
Proof. intros w. by exists a, w. Qed.

Lemma quiet_get_ctl : quiet (get_ctl : M controller).
Proof. intros w. by exists (ctl w), w. Qed.

Lemma quiet_modify (f : controller -> controller) :
  quiet (modify_ctl f : M unit).
Proof. intros w. by eexists tt, _. Qed.

Lemma quiet_pure {A} (a : A) : quiet ((fun w => (Ok a, w)) : M A).
Proof. intros w. by exists a, w. Qed.

Lemma quiet_bind {A B} (m : M A) (f : A -> M B) :
  quiet m -> (forall a, quiet (f a)) -> quiet (bind m f).
Proof.
  intros Hm Hf w. unfold bind.
  destruct (Hm w) as (a & w1 & -> & He & Ht).
  destruct (Hf a w1) as (b & w2 & -> & He2 & Ht2).
  exists b, w2. split; [done|]. split; congruence.
Qed.

Lemma quiet_try {A} (m : M A) (h : exn -> M A) :
  quiet m -> quiet (try_except m h).
Proof.
  intros Hm w. unfold try_except.
  destruct (Hm w) as (a & w1 & -> & He & Ht). by exists a, w1.
Qed.

Lemma quiet_speak (t : text) : quiet (@tts_speak H t).
Proof.
  intros w. destruct (tts_speak_enqueue t w) as [b ->]. by eexists b, _.
Qed.

Lemma quiet_returns {A} (m : M A) : quiet m -> returns m.
Proof. intros Hm w. destruct (Hm w) as (a & w1 & -> & _). by exists a, w1. Qed.

Lemma returns_bind {A B} (m : M A) (f : A -> M B) :
  returns m -> (forall a, returns (f a)) -> returns (bind m f).
Proof.
  intros Hm Hf w. unfold bind. destruct (Hm w) as (a & w1 & ->).
  apply Hf.
Qed.

(** A handler that returns makes the whole [try] return. *)
Lemma returns_try {A} (m : M A) (h : exn -> M A) :
  (forall e, returns (h e)) -> returns (try_except m h).
Proof.
  intros Hh w. unfold try_except.
  destruct (m w) as [[a|e] w1]; [by exists a, w1|apply Hh].
Qed.

Lemma returns_emit (e : event) : returns (emit e : M unit).
Proof. intros w. by eexists tt, _. Qed.

End Shapes.

(** Decomposes a computation that calls nothing outside the controller. *)
Ltac quiet_by known :=
  repeat first
    [ known
    | match goal with
      | |- quiet (ret _) => apply quiet_ret
      | |- quiet get_ctl => apply quiet_get_ctl
      | |- quiet (modify_ctl _) => apply quiet_modify
      | |- quiet (tts_speak _) => apply quiet_speak
      | |- quiet (bind _ _) => apply quiet_bind; [|intros ?]
      | |- quiet (if ?b then _ else _) => destruct b
      | |- quiet (match ?x with _ => _ end) => destruct x
      end ].

Section Handlers.
Context {H : Type}.
Variable on_command_detected : option (@callback H VoiceCommand text).

Lemma quiet_set_rate (r : Z) : quiet (@tts_set_rate H r).
Proof. unfold tts_set_rate. quiet_by fail. Qed.

Lemma quiet_set_volume (v : Q) : quiet (@tts_set_volume H v).
Proof. unfold tts_set_volume. quiet_by fail. Qed.

Lemma quiet_set_voice (v : text) : quiet (@tts_set_voice H v).
Proof. unfold tts_set_voice. quiet_by fail. Qed.

Lemma quiet_get_voices : quiet (@tts_get_available_voices H).
Proof. unfold tts_get_available_voices. quiet_by fail. Qed.

Lemma quiet_system (command : VoiceCommand) :
  quiet (@_handle_system_command H command).
Proof.
  unfold _handle_system_command. cbv zeta.
  quiet_by ltac:(first
    [ apply quiet_set_rate | apply quiet_set_volume
    | apply quiet_set_voice | apply quiet_get_voices ]).
Qed.

Lemma quiet_conversation (command : VoiceCommand) :
  quiet (@_handle_conversation_command H command).
Proof. unfold _handle_conversation_command. apply quiet_ret. Qed.

(** X8.  A command of type [SYSTEM_CONTROL] or [CONVERSATION] is handled
    inside the controller: [_execute_command] returns a reply without
    calling the registered handler, so the handler's state is untouched
    and no dispatch is traced. *)
Theorem internal_commands_stay_inside (command : VoiceCommand)
    (w : @world H) :
  command_type command = SYSTEM_CONTROL
  \/ command_type command = CONVERSATION ->
  exists reply w1,
    _execute_command on_command_detected command w = (Ok reply, w1)
    /\ ext w1 = ext w /\ trace w1 = trace w.
Proof.
  intros Hty. unfold _execute_command. apply quiet_try.
  destruct Hty as [Hty|Hty]; rewrite Hty; simpl.
  - apply quiet_system.
  - apply quiet_conversation.
Qed.

(** X9.  [_execute_command] never raises: whatever the handler does, a
    reply comes back; when the handler raises, the reply is the fixed
    apology and the failure is logged. *)
Theorem execute_command_contained (command : VoiceCommand) (w : @world H) :
  (exists reply w1,
     _execute_command on_command_detected command w = (Ok reply, w1))
  /\ forall handler e h1,
       on_command_detected = Some handler ->
       command_type command <> SYSTEM_CONTROL ->
       command_type command <> CONVERSATION ->
       handler command (ext w) = (Raise e, h1) ->
       _execute_command on_command_detected command w
       = (Ok ("Sorry, I couldn't execute that command." : text),
          {| ctl := ctl w; ext := h1;
             trace := trace w
                      ++ [Dispatched command;
                          Logged "error"
                            (("Error executing command: " : text)
                             ++ exn_msg e)] |}).
Proof.
  split.
  - apply (returns_try _ _). intros e.
    apply returns_bind; [apply returns_emit|].
    intros _. apply quiet_returns, quiet_ret.
  - intros handler e h1 Hh Hs Hc Hr.
    unfold _execute_command, try_except.
    rewrite decide_False by done. rewrite decide_False by done.
    rewrite Hh. unfold bind, emit, call, ret. simpl. rewrite Hr. simpl.
    by rewrite <- app_assoc.
Qed.

End Handlers.

Lemma internal_commands_stay_inside_witness :
  exists reply w1,
    _execute_command None MoreSamples.mute_command Samples.fresh_world
    = (Ok reply, w1)
    /\ ext w1 = ext Samples.fresh_world
    /\ trace w1 = trace Samples.fresh_world.
Proof.
  apply (internal_commands_stay_inside None MoreSamples.mute_command
           Samples.fresh_world).
  left. reflexivity.
Defined.

Lemma execute_command_contained_witness :
  _execute_command (Some MoreSamples.failing_handler)
    MoreSamples.open_command Samples.fresh_world
  = (Ok ("Sorry, I couldn't execute that command." : text),
     {| ctl := ctl Samples.fresh_world; ext := tt;
        trace := trace Samples.fresh_world
                 ++ [Dispatched MoreSamples.open_command;
                     Logged "error"
                       (("Error executing command: " : text)
                        ++ ("bridge down" : text))] |}).
Proof.
  apply (proj2 (execute_command_contained (Some MoreSamples.failing_handler)
                  MoreSamples.open_command Samples.fresh_world)
           MoreSamples.failing_handler
           {| exn_type := "RuntimeError"; exn_msg := "bridge down" |} tt);
    [reflexivity|discriminate|discriminate|reflexivity].
Defined.

End ControllerMore.

(** ** More on the session: what the methods leave alone *)

Module SessionMore.
Import Voice Controller ControllerSpec ControllerMoreSpec SessionSpec.
Import ControllerFacts.

#[local] Instance capture_untouched_preorder : PreOrder capture_untouched.
Proof.
  split.
  - intros c. by repeat split.
  - intros c c1 c2 (?&?&?&?&?&?) (?&?&?&?&?&?). repeat split; congruence.
Qed.

#[local] Instance hands_more_preorder : PreOrder hands_more.
Proof.
  split.
  - intros c. exists []. by rewrite app_nil_r.
  - intros c c1 c2 (n1 & H1 & Hn1) (n2 & H2 & Hn2). exists (n1 ++ n2).
    split; [by rewrite H2, H1, app_assoc|]. by apply Forall_app.
Qed.

Lemma same_handed_more (c c1 : controller) :
  handed_over (tts c1) = handed_over (tts c) -> hands_more c c1.
Proof. intros Hq. exists []. by rewrite app_nil_r. Qed.

Ltac untouched :=
  rel_by ltac:(apply rel_modify; intros ?; by repeat split).

Ltac same_handed :=
  rel_by ltac:(apply rel_modify; intros ?; by apply same_handed_more).

Section Scope.
Context {H : Type}.
Variable on_command_detected : option (@callback H VoiceCommand text).
Variable on_wake_word_detected : option (@callback H unit unit).
Variable on_error : option (@callback H exn unit).

(** X10.  A system command changes the mode or a property of the
    synthesizer and nothing else: capture goes on (also after the spoken
    command "stop listening"), the wake word, the history and the voices
    on offer are as they were, and nothing is handed to the
    synthesizer. *)
Theorem system_command_scope (command : VoiceCommand) (w : @world H) :
  capture_untouched (ctl w) (ctl (_handle_system_command command w).2).
Proof.
  revert w. change (respects capture_untouched
                      (@_handle_system_command H command)).
  unfold _handle_system_command, tts_get_available_voices, tts_set_voice,
    tts_set_rate, tts_set_volume.
  cbv zeta. untouched.
Qed.

Lemma tts_speak_hands (t : text) : respects hands_more (@tts_speak H t).
Proof.
  intros w. destruct (ControllerMore.tts_speak_enqueue t w) as [b ->].
  simpl. destruct (Text.strip t) as [|c0 t0] eqn:Hs.
  - exists []. rewrite app_nil_r. unfold enqueue. by rewrite Hs.
  - exists [c0 :: t0]. split.
    + unfold enqueue. by rewrite Hs.
    + constructor; [|done]. split; [done|].
      rewrite <- Hs. apply TextMore.strip_idem.
Qed.

Lemma _handle_system_command_hands (command : VoiceCommand) :
  respects hands_more (@_handle_system_command H command).
Proof.
  unfold _handle_system_command, tts_get_available_voices, tts_set_voice,
    tts_set_rate, tts_set_volume.
  cbv zeta. same_handed.
Qed.

Lemma _execute_command_hands (command : VoiceCommand) :
  respects hands_more (_execute_command on_command_detected command).
Proof.
  unfold _execute_command, _handle_conversation_command.
  rel_by ltac:(apply _handle_system_command_hands).
Qed.

Lemma process_command_hands (now : Q) (t : text) :
  respects hands_more (process_command on_command_detected now t).
Proof.
  unfold process_command.
  apply rel_bind; [apply rel_pure|]. intros command.
  rel_by ltac:(first
    [ apply _execute_command_hands | apply tts_speak_hands
    | apply rel_modify; intros ?; by apply same_handed_more ]).
Qed.

Lemma _process_speech_hands (now : Q) (t : text) :
  respects hands_more
    (_process_speech on_command_detected on_wake_word_detected on_error
       now t).
Proof.
  unfold _process_speech. cbv zeta.
  rel_by ltac:(first
    [ apply process_command_hands | apply tts_speak_hands ]).
Qed.

Lemma start_listening_hands : respects hands_more (@start_listening H).
Proof.
  unfold start_listening.
  rel_by ltac:(first
    [ apply tts_speak_hands
    | apply rel_modify; intros ?; by apply same_handed_more ]).
Qed.

Lemma stop_listening_hands : respects hands_more (@stop_listening H).
Proof.
  unfold stop_listening.
  rel_by ltac:(first
    [ apply tts_speak_hands
    | apply rel_modify; intros ?; by apply same_handed_more ]).
Qed.

Lemma toggle_wake_word_mode_hands :
  respects hands_more (@toggle_wake_word_mode H).
Proof.
  unfold toggle_wake_word_mode.
  rel_by ltac:(first
    [ apply tts_speak_hands
    | apply rel_modify; intros ?; by apply same_handed_more ]).
Qed.

(** X11.  What the controller hands to the synthesizer can be spoken:
    in every state a constructed controller can reach, each text that was
    put on the synthesizer's queue is non-blank and carries no
    surrounding white space. *)
Theorem handed_texts_are_utterances (w : @world H) :
  reachable on_command_detected on_wake_word_detected on_error w ->
  Forall utterance_ok (handed_over (tts (ctl w))).
Proof.
  assert (Hstep : forall w0 w1,
            step on_command_detected on_wake_word_detected on_error w0 w1 ->
            hands_more (ctl w0) (ctl w1)).
  { intros w0 w1 [now t w'|w'|w'|w'].
    - apply _process_speech_hands.
    - apply start_listening_hands.
    - apply stop_listening_hands.
    - apply toggle_wake_word_mode_hands. }
  induction 1 as [w0 rate volume wake voices Hinit|w0 w1 Hr IH Hs].
  - rewrite Hinit. simpl. constructor.
  - destruct (Hstep _ _ Hs) as (new & Hq & Hnew).
    rewrite Hq. by apply Forall_app.
Qed.

End Scope.

Lemma handed_texts_are_utterances_witness :
  Forall utterance_ok
    (handed_over (tts (ctl (toggle_wake_word_mode Samples.fresh_world).2))).
Proof.
  apply (handed_texts_are_utterances None None None).
  eapply reach_step; [|apply step_toggle].
  by eapply reach_init.
Defined.

End SessionMore.

(** ** More on the session: how the methods end *)

Module SessionFlow.
Import Voice Controller ControllerSpec ControllerMoreSpec SessionSpec.

Section Run.
Context {H : Type}.

Lemma run_modify {A} (f : controller -> controller) (k : unit -> @M H A)
    (w : @world H) :
  bind (modify_ctl f) k w
  = k tt {| ctl := f (ctl w); ext := ext w; trace := trace w |}.
Proof. reflexivity. Qed.

Lemma run_emit {A} (e : event) (k : unit -> @M H A) (w : @world H) :
  bind (emit e) k w
  = k tt {| ctl := ctl w; ext := ext w; trace := trace w ++ [e] |}.
Proof. reflexivity. Qed.


Lemma run_speak {A} (t : text) (k : bool -> @M H A) (w : @world H) :
  exists b,
    bind (tts_speak t) k w
    = k b {| ctl := enqueue t (ctl w); ext := ext w; trace := trace w |}.
Proof.
  destruct (ControllerMore.tts_speak_enqueue t w) as [b Hb].
  exists b. unfold bind. by rewrite Hb.
Qed.





End Run.


Section Flow.
Context {H : Type}.
Variable on_command_detected : option (@callback H VoiceCommand text).
Variable on_wake_word_detected : option (@callback H unit unit).
Variable on_error : option (@callback H exn unit).





Lemma start_listening_on (w : @world H) :
  listening (ctl w) = true -> start_listening w = (Ok tt, w).
Proof.
  intros Hl. unfold start_listening. unfold bind at 1. unfold get_ctl.
  cbv beta iota. by rewrite Hl.
Qed.

Lemma stop_listening_off (w : @world H) :
  listening (ctl w) = false -> stop_listening w = (Ok tt, w).
Proof.
  intros Hl. unfold stop_listening. unfold bind at 1. unfold get_ctl.
  cbv beta iota. by rewrite Hl.
Qed.

Lemma enqueue_listening (t : text) (c : controller) :
  listening (enqueue t c) = listening c.
Proof. by destruct (ControllerMore.enqueue_same_session t c) as (_&?&_). Qed.

Lemma start_listening_sets (w : @world H) :
  listening (ctl (start_listening w).2) = true.
Proof.
  unfold start_listening. unfold bind at 1. unfold get_ctl.
  cbv beta iota.
  destruct (listening (ctl w)) eqn:Hl; [exact Hl|].
  rewrite run_modify, run_emit.
  destruct (wake_word_mode (ctl w));
    match goal with |- context [bind (tts_speak ?u) ?k ?w'] =>
      destruct (run_speak u k w') as [b ->]
    end; unfold ret; cbn [snd fst ctl]; by rewrite enqueue_listening.
Qed.

Lemma stop_listening_clears (w : @world H) :
  listening (ctl (stop_listening w).2) = false.
Proof.
  unfold stop_listening. unfold bind at 1. unfold get_ctl.
  cbv beta iota.
  destruct (listening (ctl w)) eqn:Hl; [|exact Hl].
  rewrite run_modify, run_emit.
  match goal with |- context [bind (tts_speak ?u) ?k ?w'] =>
    destruct (run_speak u k w') as [b ->]
  end.
  unfold ret; cbn [snd fst ctl]. by rewrite enqueue_listening.
Qed.

(** X13.  [start_listening] and [stop_listening] are idempotent: a second
    call in a row returns at once, starts or stops nothing and says
    nothing. *)
Theorem listening_calls_idempotent (w : @world H) :
  (let w1 := (start_listening w).2 in
   listening (ctl w1) = true /\ start_listening w1 = (Ok tt, w1))
  /\ (let w1 := (stop_listening w).2 in
      listening (ctl w1) = false /\ stop_listening w1 = (Ok tt, w1)).
Proof.
  split; cbv zeta.
  - split; [apply start_listening_sets|].
    apply start_listening_on, start_listening_sets.
  - split; [apply stop_listening_clears|].
    apply stop_listening_off, stop_listening_clears.
Qed.

(** X14.  Toggling the wake-word mode twice restores the session: the
    mode is what it was, nothing outside the controller is called, and
    the two announcements are handed to the synthesizer in the order
    they were made, after what was handed over before. *)
Theorem toggle_twice_restores (w : @world H) :
  let w1 := (toggle_wake_word_mode w).2 in
  let w2 := (toggle_wake_word_mode w1).2 in
  wake_word_mode (ctl w1) = negb (wake_word_mode (ctl w))
  /\ same_session (ctl w) (ctl w2)
  /\ ext w2 = ext w /\ trace w2 = trace w
  /\ handed_over (tts (ctl w2))
     = handed_over (tts (ctl w))
       ++ [ mode_announcement (negb (wake_word_mode (ctl w)));
            mode_announcement (wake_word_mode (ctl w)) ].
Proof.
  destruct w as [c e tr]. destruct c as [ww l m h mx q]. cbv zeta.
  destruct m; simpl; repeat split; by rewrite <- app_assoc.
Qed.

End Flow.


End SessionFlow.

(** ** More on the session: the history view and the built-in replies *)

Module SessionViews.
Import Voice Controller ControllerSpec ControllerMoreSpec SessionSpec.

(** X15.  [get_command_history] returns the most recent [limit] commands,
    oldest first, or all of them when there are fewer; with the limit 0
    it returns the whole history, not an empty list. *)
Theorem history_window (limit : Z) (c : controller) :
  let h := command_history c in
  get_command_history 0 c = map history_view h
  /\ ((0 < limit)%Z ->
      get_command_history limit c
      = map history_view (drop (length h - Z.to_nat limit) h)
      /\ length (get_command_history limit c)
         = Nat.min (Z.to_nat limit) (length h)).
Proof.
  cbv zeta. split; [reflexivity|]. intros Hpos.
  unfold get_command_history, slice_from.
  replace (- limit <? 0)%Z with true by (symmetry; apply Z.ltb_lt; lia).
  replace (Z.to_nat (Z.max 0 (Z.of_nat (length (command_history c))
                              + - limit)))
    with (length (command_history c) - Z.to_nat limit) by lia.
  split; [done|]. rewrite length_map, length_drop. lia.
Qed.

Lemma history_window_witness :
  length (get_command_history 10 (with_history Samples.fifty_one)) = 10.
Proof.
  apply (proj2 (history_window 10 (with_history Samples.fifty_one))).
  reflexivity.
Defined.

Lemma table_actions_known (ty : CommandType) (pats : list pattern_info)
    (info : pattern_info) :
  In (ty, pats) command_patterns -> In info pats ->
  action_known ty (p_action info) = true.
Proof.
  assert (Hall : forallb (fun e =>
            forallb (fun info => action_known e.1 (p_action info)) e.2)
            command_patterns = true) by (vm_compute; reflexivity).
  rewrite forallb_forall in Hall. intros Hin Hi.
  specialize (Hall _ Hin). simpl in Hall.
  rewrite forallb_forall in Hall. by apply Hall.
Qed.

Section Replies.
Context {H : Type}.

Ltac differs :=
  let Heq := fresh in
  intros Heq; apply (f_equal (take 3)) in Heq; vm_compute in Heq;
  discriminate Heq.

Lemma system_reply_known (command : VoiceCommand) (w w1 : @world H)
    (reply : text) :
  action command ∈ system_actions ->
  _handle_system_command command w = (Ok reply, w1) ->
  reply <> not_implemented.
Proof.
  intros Hin. unfold _handle_system_command. cbv zeta.
  repeat case_decide.
  6: { exfalso. unfold system_actions in Hin.
       repeat (apply elem_of_cons in Hin as [Hin|Hin]; [done|]).
       by apply not_elem_of_nil in Hin. }
  all: unfold bind, ret, modify_ctl, get_ctl, tts_get_available_voices,
         tts_set_voice, tts_set_rate, tts_set_volume, bind, ret, modify_ctl,
         get_ctl; cbn -[take].
  all: repeat case_match; intros [= <- <-]; differs.
Qed.

Lemma conversation_reply_known (command : VoiceCommand) (w w1 : @world H)
    (reply : text) :
  action command ∈ conversation_actions ->
  _handle_conversation_command command w = (Ok reply, w1) ->
  reply <> chat_fallback.
Proof.
  intros Hin. unfold _handle_conversation_command. cbv zeta. unfold ret.
  intros [= <- <-].
  repeat case_decide; try differs.
  exfalso. unfold conversation_actions in Hin.
  repeat (apply elem_of_cons in Hin as [Hin|Hin]; [done|]).
  by apply not_elem_of_nil in Hin.
Qed.

(** X16.  Every system and conversation command the table can produce has
    its own branch in the handler: a parsed command of either type gets a
    reply, and never the reply kept for an action nobody handles. *)
Theorem parsed_commands_have_replies (now : Q) (t : text)
    (c : VoiceCommand) (w : @world H) :
  parse_command now t = Ok c ->
  (command_type c = SYSTEM_CONTROL ->
     exists reply w1,
       _handle_system_command c w = (Ok reply, w1)
       /\ reply <> not_implemented)
  /\ (command_type c = CONVERSATION ->
        exists reply w1,
          _handle_conversation_command c w = (Ok reply, w1)
          /\ reply <> chat_fallback).
Proof.
  intros Hp.
  assert (Hk : action_known (command_type c) (action c) = true).
  { revert Hp. unfold parse_command, parse_command_with.
    destruct (first_command _ command_patterns) as [[[ty info] m]|] eqn:Hf.
    - apply VoiceFacts.first_command_Some in Hf as (pats & Hin & Hi & _).
      destruct (extract_params m (p_params info) ∅); [|done].
      intros [= <-]. simpl. by apply (table_actions_known ty pats).
    - by intros [= <-]. }
  split; intros Hty; rewrite Hty in Hk; apply bool_decide_eq_true_1 in Hk.
  - destruct (ControllerMore.quiet_system c w) as (reply & w1 & Hr & _).
    exists reply, w1. split; [done|]. by eapply system_reply_known.
  - destruct (ControllerMore.quiet_conversation c w)
      as (reply & w1 & Hr & _).
    exists reply, w1. split; [done|]. by eapply conversation_reply_known.
Qed.

End Replies.

Lemma parsed_commands_have_replies_witness :
  exists reply w1,
    _handle_system_command MoreSamples.mute_command Samples.fresh_world
    = (Ok reply, w1)
    /\ reply <> not_implemented.
Proof.
  apply (parsed_commands_have_replies 0 "mute" MoreSamples.mute_command
           Samples.fresh_world); reflexivity.
Defined.

End SessionViews.

(** ** More on the gateway *)

Module GatewayMore.
Import Gateway GatewaySpec.

(** X17.  Discovery invents nothing: a descriptor kept for a name stands
    under that name in the table of one of the files, and a name is known
    exactly when some file declares it.  A missing file, an unreadable
    one and one without a table declare nothing. *)
Theorem discover_provenance (files : list config_file) (name : text) :
  (forall d, discover_mcp_servers files !! name = Some d ->
     exists f, In f files /\ defines f name = Some d)
  /\ (is_Some (discover_mcp_servers files !! name)
      <-> exists f, In f files /\ is_Some (defines f name)).
Proof.
  induction files as [|f files [IH1 IH2]] using rev_ind.
  - unfold discover_mcp_servers. simpl. rewrite lookup_empty.
    split; [done|]. split; [by intros [? ?]|by intros (? & [] & _)].
  - rewrite GatewayFacts.discover_snoc, GatewayFacts.discover_step_lookup.
    destruct (defines f name) as [d0|] eqn:Hd.
    + split.
      * intros d [= <-]. exists f.
        split; [apply in_or_app; right; by left|done].
      * split; [|by eexists]. intros _. exists f. rewrite Hd.
        split; [apply in_or_app; right; by left|by eexists].
    + split.
      * intros d Hs. destruct (IH1 d Hs) as (f' & ? & ?). exists f'.
        split; [apply in_or_app; by left|done].
      * rewrite IH2. split; intros (f' & Hin & Hs).
        -- exists f'. split; [apply in_or_app; by left|done].
        -- apply in_app_or in Hin as [Hin|[<-|[]]]; [by exists f'|].
           rewrite Hd in Hs. by destruct Hs.
Qed.

Section Scan.
Variable json_loads : text -> result pyval.

(** A line ends the scan with a value only when it decodes to an object:
    the value is the object's [result], or its [error] wrapped. *)
Lemma scan_line_return (line : text) (v : pyval) :
  scan_line json_loads line = Return v ->
  exists d,
    json_loads line = Ok (PDict d)
    /\ (d !! ("result" : text) = Some v
        \/ d !! ("result" : text) = None
           /\ exists x, d !! ("error" : text) = Some x /\ v = error_value x).
Proof.
  unfold scan_line. destruct (Text.strip line); [done|].
  destruct (json_loads line) as [response|e];
    [|by destruct (is_decode_error e)].
  destruct response as [| | | | | |d]; simpl;
    try done; repeat (case_match; try done).
  all: intros [= <-]; exists d; split; [done|].
  - left. by simplify_eq.
  - right. simplify_eq. split; [|by eexists].
    match goal with Hb : bool_decide _ = false |- _ =>
      apply bool_decide_eq_false_1 in Hb;
      by apply eq_None_not_Some
    end.
Qed.

Lemma scan_lines_ok (lines : list text) (v : pyval) :
  scan_lines json_loads lines = Some (Ok v) ->
  exists line d,
    In line lines /\ json_loads line = Ok (PDict d)
    /\ (d !! ("result" : text) = Some v
        \/ d !! ("result" : text) = None
           /\ exists x, d !! ("error" : text) = Some x /\ v = error_value x).
Proof.
  induction lines as [|l lines IH]; simpl; [done|].
  destruct (scan_line json_loads l) as [|v'|e] eqn:Hl.
  - intros Hs. destruct (IH Hs) as (line & d & Hin & Hd).
    exists line, d. split; [by right|done].
  - intros [= <-]. destruct (scan_line_return l v' Hl) as (d & Hd).
    exists l, d. split; [by left|done].
  - done.
Qed.

Lemma scan_lines_skip (earlier rest : list text) :
  Forall (passed_over json_loads) earlier ->
  scan_lines json_loads (earlier ++ rest) = scan_lines json_loads rest.
Proof.
  induction 1 as [|l ls Hl _ IH]; simpl; [done|].
  by rewrite (GatewayFacts.passed_over_next _ _ Hl).
Qed.

Lemma scan_line_object (line : text) (d : gmap text pyval) :
  Text.strip line <> [] -> json_loads line = Ok (PDict d) ->
  scan_line json_loads line
  = match d !! ("result" : text), d !! ("error" : text) with
    | Some v, _ => Return v
    | None, Some x => Return (error_value x)
    | None, None => NextLine
    end.
Proof.
  intros Hs Hd. unfold scan_line. rewrite Hd.
  destruct (Text.strip line); [done|]. simpl.
  repeat case_match; simplify_eq; try done.
  all: match goal with
       | Hb : bool_decide _ = false |- _ =>
           apply bool_decide_eq_false_1 in Hb; destruct Hb; by eexists
       end.
Qed.

Variable json_dumps : pyval -> result text.
Variable popen : list text -> gmap text text -> result unit.
Variable communicate : list text -> gmap text text -> text -> proc_outcome.
Variable os_environ : gmap text text.
Variable mcp_servers : gmap text descriptor.

Abbreviation run := (execute_mcp_tool json_loads json_dumps popen
                       communicate os_environ mcp_servers).

(** X18.  What a call returns is an error payload, or it was sent by the
    server: a value that is not [{error: ...}] stands as the [result] of
    an object on a line of the output of a server that was configured,
    started, and exited with status zero. *)
Theorem answer_comes_from_server (server_name tool_name : text)
    (arguments : pyval) :
  let v := (run server_name tool_name arguments).1 in
  (exists x, v = error_value x)
  \/ exists cfg body stdout stderr line d,
       mcp_servers !! server_name = Some cfg
       /\ json_dumps (request tool_name arguments) = Ok body
       /\ communicate (command cfg :: d_args cfg)
            (Tools.dict_update os_environ (env cfg))
            (body ++ [Text.newline]) = Exited 0 stdout stderr
       /\ In line (Text.split_on Text.newline (Text.strip stdout))
       /\ json_loads line = Ok (PDict d)
       /\ d !! ("result" : text) = Some v.
Proof.
  cbv zeta. unfold execute_mcp_tool.
  destruct (mcp_servers !! server_name) as [cfg|] eqn:Hcfg;
    [|left; by eexists].
  destruct (popen _ _) as [[]|e]; [|left; by eexists].
  destruct (json_dumps _) as [body|e] eqn:Hbody; [|left; by eexists].
  destruct (communicate _ _ _) as [|rc stdout stderr] eqn:Hc;
    [left; by eexists|].
  destruct (decide (rc ≠ 0%Z)) as [Hrc|Hrc]; [left; by eexists|].
  apply dec_stable in Hrc. subst rc.
  destruct (scan_lines _ _) as [[v|e]|] eqn:Hscan;
    [|left; by eexists|left; by eexists].
  destruct (scan_lines_ok _ _ Hscan) as (line & d & Hin & Hd & Hv).
  destruct Hv as [Hv|(_ & x & _ & ->)]; [|left; by eexists].
  right. by exists cfg, body, stdout, stderr, line, d.
Qed.

(** X19.  The first line that answers wins.  When the server exits with
    status zero and every line before some line is blank, not JSON, or an
    object with neither field, then that line decides the call if it is
    an object with [result] or [error], whatever the lines after it
    hold: its [result] is returned as it is, and otherwise its [error]
    under the key [error]. *)
Theorem first_answer_wins (server_name tool_name : text)
    (arguments : pyval) (cfg : descriptor) (body stdout stderr : text)
    (earlier later : list text) (line : text) (d : gmap text pyval) :
  mcp_servers !! server_name = Some cfg ->
  popen (command cfg :: d_args cfg)
    (Tools.dict_update os_environ (env cfg)) = Ok tt ->
  json_dumps (request tool_name arguments) = Ok body ->
  communicate (command cfg :: d_args cfg)
    (Tools.dict_update os_environ (env cfg)) (body ++ [Text.newline])
  = Exited 0 stdout stderr ->
  Text.split_on Text.newline (Text.strip stdout)
  = earlier ++ line :: later ->
  Forall (passed_over json_loads) earlier ->
  Text.strip line <> [] ->
  json_loads line = Ok (PDict d) ->
  (forall v, d !! ("result" : text) = Some v ->
     (run server_name tool_name arguments).1 = v)
  /\ (forall x, d !! ("result" : text) = None ->
        d !! ("error" : text) = Some x ->
        (run server_name tool_name arguments).1 = error_value x).
Proof.
  intros Hcfg Hpopen Hbody Hc Hsplit Hearlier Hline Hd.
  unfold execute_mcp_tool. rewrite Hcfg, Hpopen, Hbody, Hc, Hsplit.
  rewrite (scan_lines_skip _ _ Hearlier). simpl.
  rewrite (scan_line_object _ _ Hline Hd). simpl.
  split.
  - intros v Hv. by rewrite Hv.
  - intros x Hr He. by rewrite Hr, He.
Qed.

(** X20.  A server that exits with status zero without an answer is
    reported: when every line of its output is blank, not JSON, or an
    object with neither field, the call returns the payload
    [No valid response from MCP server]. *)
Theorem silent_server_reported (server_name tool_name : text)
    (arguments : pyval) (cfg : descriptor) (body stdout stderr : text) :
  mcp_servers !! server_name = Some cfg ->
  popen (command cfg :: d_args cfg)
    (Tools.dict_update os_environ (env cfg)) = Ok tt ->
  json_dumps (request tool_name arguments) = Ok body ->
  communicate (command cfg :: d_args cfg)
    (Tools.dict_update os_environ (env cfg)) (body ++ [Text.newline])
  = Exited 0 stdout stderr ->
  Forall (passed_over json_loads)
    (Text.split_on Text.newline (Text.strip stdout)) ->
  (run server_name tool_name arguments).1
  = error_payload "No valid response from MCP server".
Proof.
  intros Hcfg Hpopen Hbody Hc Hall.
  unfold execute_mcp_tool. rewrite Hcfg, Hpopen, Hbody, Hc. simpl.
  rewrite <- (app_nil_r (Text.split_on _ _)).
  by rewrite (scan_lines_skip _ [] Hall).
Qed.

End Scan.

Lemma first_answer_wins_witness :
  (execute_mcp_tool Json.loads Samples.sample_dumps Samples.sample_popen
     GatewaySamples.chatty_server ∅ Samples.sample_servers "memory"
     "memory_save_context" (PDict ∅)).1 = PDict ∅.
Proof.
  refine (proj1 (first_answer_wins Json.loads Samples.sample_dumps
           Samples.sample_popen GatewaySamples.chatty_server ∅
           Samples.sample_servers "memory" "memory_save_context" (PDict ∅)
           Samples.project_server "{}" GatewaySamples.chatty_stdout []
           [("starting" : text); GatewaySamples.status_line]
           [GatewaySamples.error_line] Samples.response_line
           {[ ("result" : text) := PDict ∅ ]}
           _ _ _ _ _ _ _ _) (PDict ∅) _);
    [reflexivity|reflexivity|reflexivity|reflexivity|reflexivity| |
     vm_compute; discriminate|reflexivity|reflexivity].
  constructor; [right; left; eexists; split; reflexivity|].
  constructor; [|constructor].
  right. right. exists {[ ("status" : text) := PInt 1 ]}.
  split; [reflexivity|]. split; reflexivity.
Defined.

Lemma silent_server_reported_witness :
  (execute_mcp_tool Json.loads Samples.sample_dumps Samples.sample_popen
     GatewaySamples.silent_server ∅ Samples.sample_servers "memory"
     "memory_save_context" (PDict ∅)).1
  = error_payload "No valid response from MCP server".
Proof.
  apply (silent_server_reported Json.loads Samples.sample_dumps
           Samples.sample_popen GatewaySamples.silent_server ∅
           Samples.sample_servers "memory" "memory_save_context" (PDict ∅)
           Samples.project_server "{}" GatewaySamples.silent_stdout []);
    [reflexivity|reflexivity|reflexivity|reflexivity|].
  constructor; [right; left; eexists; split; reflexivity|].
  constructor; [|constructor].
  right. right. exists {[ ("status" : text) := PInt 1 ]}.
  split; [reflexivity|]. split; reflexivity.
Defined.

End GatewayMore.

(** ** The agent answers a spoken request *)

Module AgentMore.
Import Voice VoiceSpec Controller ControllerSpec ControllerMoreSpec.
Import Agent AgentSpec.

Lemma agent_actions_known (ty : CommandType) (pats : list pattern_info)
    (info : pattern_info) :
  In (ty, pats) command_patterns -> In info pats ->
  agent_action_known ty (p_action info) = true.
Proof.
  assert (Hall : forallb (fun e =>
            forallb (fun info => agent_action_known e.1 (p_action info)) e.2)
            command_patterns = true) by (vm_compute; reflexivity).
  rewrite forallb_forall in Hall. intros Hin Hi.
  specialize (Hall _ Hin). simpl in Hall.
  rewrite forallb_forall in Hall. by apply Hall.
Qed.

Lemma agent_reply_known (command : VoiceCommand) :
  action command ∈ agent_actions ->
  _execute_agent_voice_command command <> agent_fallback (action command).
Proof.
  intros Hin. unfold _execute_agent_voice_command, agent_fallback.
  cbv zeta. repeat case_decide.
  5: { exfalso. unfold agent_actions in Hin.
       repeat (apply elem_of_cons in Hin as [Hin|Hin]; [done|]).
       by apply not_elem_of_nil in Hin. }
  all: intros Heq; apply (f_equal (take 1)) in Heq; vm_compute in Heq;
    discriminate Heq.
Qed.

(** X21.  Every AGENT_REQUEST action of the command table has its own
    branch in the agent: a command [parse_command] returns with that type
    is answered with the sentence of its action, never with the reply
    kept for an action that is not implemented. *)
Theorem agent_requests_answered (now : Q) (t : text) (c : VoiceCommand) :
  parse_command now t = Ok c ->
  command_type c = AGENT_REQUEST ->
  action c ∈ agent_actions
  /\ _execute_agent_voice_command c <> agent_fallback (action c).
Proof.
  intros Hp Hty.
  assert (Hk : agent_action_known (command_type c) (action c) = true).
  { revert Hp. unfold parse_command, parse_command_with.
    destruct (first_command _ command_patterns) as [[[ty info] m]|] eqn:Hf.
    - apply VoiceFacts.first_command_Some in Hf as (pats & Hin & Hi & _).
      destruct (extract_params m (p_params info) ∅); [|done].
      intros [= <-]. simpl. by apply (agent_actions_known ty pats).
    - by intros [= <-]. }
  rewrite Hty in Hk. apply bool_decide_eq_true_1 in Hk.
  split; [done|]. by apply agent_reply_known.
Qed.

Lemma agent_requests_answered_witness :
  action visit_command ∈ agent_actions
  /\ _execute_agent_voice_command visit_command
     <> agent_fallback (action visit_command).
Proof.
  apply (agent_requests_answered 0 "Visit example.org" visit_command);
    reflexivity.
Defined.

Lemma parse_command_strip (now : Q) (t : text) :
  parse_command now (Text.strip t) = parse_command now t.
Proof.
  unfold parse_command, parse_command_with.
  by rewrite <- TextMore.strip_lower, TextMore.strip_idem.
Qed.

Section Wiring.
Context {H : Type}.
Variable _execute_mcp_voice_command : VoiceCommand -> H -> text * H.

Abbreviation handler := (_handle_voice_command _execute_mcp_voice_command).

Lemma execute_agent_request (c : VoiceCommand) (w : @world H) :
  command_type c = AGENT_REQUEST ->
  _execute_command (Some handler) c w
  = (Ok (_execute_agent_voice_command c),
     {| ctl := ctl w; ext := ext w; trace := trace w ++ [Dispatched c] |}).
Proof.
  intros Hty. unfold _execute_command, try_except.
  rewrite Hty.
  rewrite (decide_False (P := AGENT_REQUEST = SYSTEM_CONTROL)) by done.
  rewrite (decide_False (P := AGENT_REQUEST = CONVERSATION)) by done.
  rewrite SessionFlow.run_emit. unfold call, _handle_voice_command.
  cbn [ext ctl trace]. rewrite Hty.
  rewrite (decide_False (P := AGENT_REQUEST = MCP_CONTROL)) by done.
  by rewrite (decide_True (P := AGENT_REQUEST = AGENT_REQUEST)).
Qed.

(** X22.  With the agent's wiring and the controller in continuous mode,
    a spoken agent request is recorded, dispatched and answered: the
    parsed command is pushed on the history, the agent's sentence for it
    is handed to the synthesizer, the gateway is not called, and nothing
    is raised. *)
Theorem spoken_request_answered (now : Q) (t : text) (c : VoiceCommand)
    (w : @world H) :
  wake_word_mode (ctl w) = false ->
  Text.strip t <> [] ->
  parse_command now t = Ok c ->
  command_type c = AGENT_REQUEST ->
  _process_speech (Some handler) None None now t w
  = (Ok tt,
     {| ctl := enqueue (_execute_agent_voice_command c)
                 (set_command_history
                    (history_push (max_history (ctl w)) c
                       (command_history (ctl w)))
                    (ctl w));
        ext := ext w;
        trace := trace w
                 ++ [ Logged "info"
                        (("Processing speech: '" : text) ++ Text.strip t
                         ++ ("'" : text));
                      Dispatched c ] |}).
Proof.
  intros Hmode Hne Hp Hty.
  rewrite <- parse_command_strip in Hp.
  unfold _process_speech, try_except. cbv zeta.
  destruct (Text.strip t) as [|a l] eqn:Hs; [exfalso; by apply Hne|].
  rewrite SessionFlow.run_emit. unfold bind at 1. unfold get_ctl.
  cbn [ctl ext trace]. rewrite Hmode.
  unfold process_command. unfold bind at 1. rewrite Hp.
  rewrite SessionFlow.run_modify. unfold bind at 1.
  rewrite (execute_agent_request c _ Hty). cbn [ctl ext trace].
  rewrite <- app_assoc. simpl app.
  destruct (_execute_agent_voice_command c) as [|r0 rs] eqn:Hr.
  - reflexivity.
  - rewrite <- Hr.
    match goal with |- context [bind (tts_speak ?u) ?k ?w'] =>
      destruct (SessionFlow.run_speak u k w') as [b ->]
    end.
    reflexivity.
Qed.

End Wiring.

Lemma spoken_request_answered_witness :
  _process_speech (Some (_handle_voice_command mute_gateway)) None None 0
    "Visit example.org" continuous_world
  = (Ok tt,
     {| ctl := enqueue (_execute_agent_voice_command visit_command)
                 (set_command_history
                    (history_push (max_history (ctl continuous_world))
                       visit_command
                       (command_history (ctl continuous_world)))
                    (ctl continuous_world));
        ext := ext continuous_world;
        trace := trace continuous_world
                 ++ [ Logged "info"
                        (("Processing speech: '" : text)
                         ++ Text.strip "Visit example.org" ++ ("'" : text));
                      Dispatched visit_command ] |}).
Proof.
  apply (spoken_request_answered mute_gateway 0 "Visit example.org"
           visit_command continuous_world);
    [reflexivity|vm_compute; discriminate|reflexivity|reflexivity].
Defined.

End AgentMore.

(** ** The volume *)

Module VolumeMore.
Import Voice Controller ControllerSpec FurtherSpec.
Import ControllerFacts SessionMore.

#[local] Instance keeps_volume_ok_preorder : PreOrder keeps_volume_ok.
Proof.
  split.
  - by intros c Hc.
  - intros c c1 c2 H1 H2 Hc. by apply H2, H1.
Qed.

Lemma clamp01_range (v : Q) : (0 <= clamp01 v)%Q /\ (clamp01 v <= 1)%Q.
Proof.
  unfold clamp01. destruct (Qle_bool v 0) eqn:H0; [split; by compute|].
  destruct (Qle_bool 1 v) eqn:H1; [split; by compute|].
  split.
  - apply Qlt_le_weak, Qnot_le_lt. intros Hle.
    apply Qle_bool_iff in Hle. congruence.
  - apply Qlt_le_weak, Qnot_le_lt. intros Hle.
    apply Qle_bool_iff in Hle. congruence.
Qed.

Ltac volume_kept :=
  rel_by ltac:(first
    [ apply rel_modify; intros ? Hv; exact Hv
    | apply rel_modify; intros ? _; apply clamp01_range ]).

Section Volume.
Context {H : Type}.
Variable on_command_detected : option (@callback H VoiceCommand text).
Variable on_wake_word_detected : option (@callback H unit unit).
Variable on_error : option (@callback H exn unit).

Lemma tts_speak_volume (t : text) :
  respects keeps_volume_ok (@tts_speak H t).
Proof. unfold tts_speak. volume_kept. Qed.

Lemma _handle_system_command_volume (command : VoiceCommand) :
  respects keeps_volume_ok (@_handle_system_command H command).
Proof.
  unfold _handle_system_command, tts_get_available_voices, tts_set_voice,
    tts_set_rate, tts_set_volume.
  cbv zeta. volume_kept.
Qed.

Lemma _execute_command_volume (command : VoiceCommand) :
  respects keeps_volume_ok (_execute_command on_command_detected command).
Proof.
  unfold _execute_command, _handle_conversation_command.
  rel_by ltac:(apply _handle_system_command_volume).
Qed.

Lemma process_command_volume (now : Q) (t : text) :
  respects keeps_volume_ok (process_command on_command_detected now t).
Proof.
  unfold process_command.
  apply rel_bind; [apply rel_pure|]. intros command.
  rel_by ltac:(first
    [ apply _execute_command_volume | apply tts_speak_volume
    | apply rel_modify; intros ? Hv; exact Hv ]).
Qed.

Lemma _process_speech_volume (now : Q) (t : text) :
  respects keeps_volume_ok
    (_process_speech on_command_detected on_wake_word_detected on_error
       now t).
Proof.
  unfold _process_speech. cbv zeta.
  rel_by ltac:(first
    [ apply process_command_volume | apply tts_speak_volume ]).
Qed.

Lemma start_listening_volume :
  respects keeps_volume_ok (@start_listening H).
Proof.
  unfold start_listening.
  rel_by ltac:(first
    [ apply tts_speak_volume | apply rel_modify; intros ? Hv; exact Hv ]).
Qed.

Lemma stop_listening_volume :
  respects keeps_volume_ok (@stop_listening H).
Proof.
  unfold stop_listening.
  rel_by ltac:(first
    [ apply tts_speak_volume | apply rel_modify; intros ? Hv; exact Hv ]).
Qed.

Lemma toggle_wake_word_mode_volume :
  respects keeps_volume_ok (@toggle_wake_word_mode H).
Proof.
  unfold toggle_wake_word_mode.
  rel_by ltac:(first
    [ apply tts_speak_volume | apply rel_modify; intros ? Hv; exact Hv ]).
Qed.

(** X23.  The volume stays in range: in every state a constructed
    controller can reach, whatever was asked for at construction and
    whatever commands were spoken, the synthesizer's volume lies between
    0 and 1. *)
Theorem volume_in_range (w : @world H) :
  reachable on_command_detected on_wake_word_detected on_error w ->
  volume_ok (ctl w).
Proof.
  induction 1 as [w0 rate volume wake voices Hinit|w0 w1 Hr IH Hs].
  - unfold volume_ok. rewrite Hinit. simpl. apply clamp01_range.
  - revert IH. destruct Hs as [now t w'|w'|w'|w'].
    + apply _process_speech_volume.
    + apply start_listening_volume.
    + apply stop_listening_volume.
    + apply toggle_wake_word_mode_volume.
Qed.

(** X24.  Unmuting does not bring back the earlier volume.  The spoken
    command "mute" sets an audible synthesizer to volume 0 and answers
    [Muted]; said again, it sets the volume to 0.8, whatever it was
    before, and answers [Unmuted]. *)
Theorem unmute_sets_default (command : VoiceCommand) (w : @world H) :
  said_mute command ->
  (0 < engine_volume (tts (ctl w)))%Q ->
  let r1 := _handle_system_command command w in
  let r2 := _handle_system_command command r1.2 in
  r1.1 = Ok ("Muted" : text)
  /\ engine_volume (tts (ctl r1.2)) = 0%Q
  /\ r2.1 = Ok ("Unmuted" : text)
  /\ engine_volume (tts (ctl r2.2)) = 0.8%Q.
Proof.
  intros Hact Hpos. cbv zeta.
  assert (Hrun : forall w0 : @world H,
    _handle_system_command command w0
    = if Qle_bool (engine_volume (tts (ctl w0))) 0
      then bind (tts_set_volume 0.8) (fun _ => ret ("Unmuted" : text)) w0
      else bind (tts_set_volume 0) (fun _ => ret ("Muted" : text)) w0).
  { intros w0. unfold _handle_system_command. cbv zeta.
    unfold said_mute in Hact. rewrite Hact.
    repeat (rewrite decide_False by (intros Heq; vm_compute in Heq;
                                     discriminate Heq)).
    rewrite decide_True by reflexivity.
    unfold bind at 1. unfold get_ctl.
    by destruct (Qle_bool (engine_volume (tts (ctl w0))) 0). }
  rewrite !Hrun.
  assert (Hq : Qle_bool (engine_volume (tts (ctl w))) 0 = false).
  { destruct (Qle_bool _ 0) eqn:Hle; [|done].
    apply Qle_bool_iff in Hle. exfalso. by apply (Qlt_not_le _ _ Hpos). }
  rewrite Hq. repeat split.
Qed.

End Volume.

Lemma volume_in_range_witness :
  volume_ok (ctl (toggle_wake_word_mode Samples.fresh_world).2).
Proof.
  apply (volume_in_range None None None).
  eapply reach_step; [|apply step_toggle].
  by eapply reach_init.
Defined.

Lemma unmute_sets_default_witness :
  let r1 := _handle_system_command MoreSamples.mute_command
              Samples.fresh_world in
  let r2 := _handle_system_command MoreSamples.mute_command r1.2 in
  r1.1 = Ok ("Muted" : text)
  /\ engine_volume (tts (ctl r1.2)) = 0%Q
  /\ r2.1 = Ok ("Unmuted" : text)
  /\ engine_volume (tts (ctl r2.2)) = 0.8%Q.
Proof.
  apply (unmute_sets_default MoreSamples.mute_command Samples.fresh_world);
    reflexivity.
Defined.

End VolumeMore.
